(** * demo_HFT_System: lock-free containers, order book, risk gate, quoting

    A shallow embedding of the single-threaded behaviour of
    - [include/common/circular_buffer.h]  (SPSC and MPSC rings),
    - [include/common/memory_pool.h]      (slab pool),
    - [include/common/hashmap.h]          (both templates),
    - [market_data/order_book.{h,cpp}]    (book ladders and snapshots),
    - [market_data/market_data_handler.cpp] (symbol table and message feed),
    - [trading/order_manager.cpp]         (pre-trade risk checks),
    - [trading/strategy.cpp]              (market-making quotes).

    Conventions.  [size_t] and [uint64_t] are [Z] reduced modulo [2^64],
    [uint32_t] is [Z] modulo [2^32]; masks are written with [Z.land] as in the
    source.  [double] is the kernel's binary64 [float]: every C++ operator on
    doubles is the correctly rounded IEEE operation of [PrimFloat], one
    rounding per operator (no fused multiply-add, no extended precision).
    Arrays are lists read with [!!] and written with [<[ i := x ]>].  Atomics
    are plain fields: the memory orders play no role in a sequential run, and
    a compare-exchange on a field nobody else writes succeeds; the spurious
    failures [compare_exchange_weak] is allowed are counted in the [_weak]
    loops of the MPSC ring.  External effects enter as arguments: clock
    readings, and the result of [send_order]. *)

From Stdlib Require Import ZArith Lia Bool Floats Strings.Byte Sorting.Sorted.
From stdpp Require Import base list.

(* Decimal literals such as [0.0002] denote the nearest binary64, as in C++. *)
Set Warnings "-inexact-float".

Local Open Scope Z_scope.

(** ** Machine words *)

Definition wrap64 (z : Z) : Z := z mod 2 ^ 64.
Definition wrap32 (z : Z) : Z := z mod 2 ^ 32.

(** [static_cast<intptr_t>(a) - static_cast<intptr_t>(b)] on a 64-bit target:
    the difference of two words read as a signed 64-bit integer. *)
Definition signed_diff (a b : Z) : Z :=
  let d := wrap64 (a - b) in
  if d <? 2 ^ 63 then d else d - 2 ^ 64.

(** ** CircularBuffer<T, Capacity>: the SPSC ring *)

Module SPSC.
Section CircularBuffer.
Context {T : Type}.
(** [Capacity] is a power of two (the [static_assert]); [k] is its log. *)
Variable k : nat.

Definition SIZE : Z := 2 ^ Z.of_nat k.

Record CircularBuffer : Type := mk {
  head_ : Z;
  tail_ : Z;
  buffer_ : list T
}.

(** The constructor zeroes both indices; [d] is the default-initialised [T]
    the array starts with. *)
Definition new (d : T) : CircularBuffer :=
  {| head_ := 0; tail_ := 0; buffer_ := replicate (Z.to_nat SIZE) d |}.

Definition push (item : T) (b : CircularBuffer) : bool * CircularBuffer :=
  let current_tail := tail_ b in
  let next_tail := Z.land (wrap64 (current_tail + 1)) (SIZE - 1) in
  if next_tail =? head_ b then (false, b)
  else (true, {| head_ := head_ b;
                 tail_ := next_tail;
                 buffer_ := <[ Z.to_nat current_tail := item ]> (buffer_ b) |}).

(** [bool pop(T& item)]: [None] is the [false] return (nothing written to
    [item]); [Some x] is [true] with [item = x].  The slot read is always in
    range because both indices are stored masked. *)
Definition pop (b : CircularBuffer) : option T * CircularBuffer :=
  let current_head := head_ b in
  if current_head =? tail_ b then (None, b)
  else match buffer_ b !! Z.to_nat current_head with
       | Some item =>
           (Some item, {| head_ := Z.land (wrap64 (current_head + 1)) (SIZE - 1);
                          tail_ := tail_ b;
                          buffer_ := buffer_ b |})
       | None => (None, b)
       end.

Definition empty (b : CircularBuffer) : bool := head_ b =? tail_ b.

Definition size (b : CircularBuffer) : Z :=
  Z.land (wrap64 (tail_ b - head_ b)) (SIZE - 1).

(** A sequential client: a script of calls, and what it observed. *)
Inductive call : Type :=
  | Push (item : T)
  | Pop.

Record log : Type := mkLog {
  pushed : list T;   (* items of the pushes that returned true, in order *)
  popped : list T;   (* items of the pops that returned true, in order *)
  ring : CircularBuffer
}.

Definition step (l : log) (c : call) : log :=
  match c with
  | Push item =>
      let '(ok, b) := push item (ring l) in
      {| pushed := if ok then pushed l ++ [item] else pushed l;
         popped := popped l;
         ring := b |}
  | Pop =>
      let '(r, b) := pop (ring l) in
      {| pushed := pushed l;
         popped := match r with Some x => popped l ++ [x] | None => popped l end;
         ring := b |}
  end.

Definition run (d : T) (cs : list call) : log :=
  foldl step {| pushed := []; popped := []; ring := new d |} cs.

(** Results of pushing a list of items back to back. *)
Fixpoint push_all (items : list T) (b : CircularBuffer) : list bool * CircularBuffer :=
  match items with
  | [] => ([], b)
  | item :: rest =>
      let '(ok, b1) := push item b in
      let '(oks, b2) := push_all rest b1 in
      (ok :: oks, b2)
  end.

(** [inv b q]: the ring [b] holds exactly the items [q], oldest first, in the
    slots from [head_] up to [tail_]. *)
Definition inv (b : CircularBuffer) (q : list T) : Prop :=
  0 <= head_ b < SIZE /\ 0 <= tail_ b < SIZE /\
  length (buffer_ b) = Z.to_nat SIZE /\
  Z.of_nat (length q) = (tail_ b - head_ b) mod SIZE /\
  forall (i : nat) x, q !! i = Some x ->
    buffer_ b !! Z.to_nat ((head_ b + Z.of_nat i) mod SIZE) = Some x.

End CircularBuffer.
Arguments CircularBuffer : clear implicits.
Arguments log : clear implicits.
Arguments call : clear implicits.
End SPSC.

(** ** MPSCCircularBuffer<T, Capacity>: the Vyukov-style ring *)

Module MPSC.
Section MPSCCircularBuffer.
Context {T : Type}.
Variable k : nat.

Definition SIZE : Z := 2 ^ Z.of_nat k.

Record Entry : Type := mkEntry {
  sequence : Z;
  data : T
}.

Record MPSCCircularBuffer : Type := mk {
  head_ : Z;
  tail_ : Z;
  buffer_ : list Entry
}.

(** The constructor: [head_(0), tail_(0)] and, for every entry,
    [entry.sequence.store(0)]. *)
Definition new (d : T) : MPSCCircularBuffer :=
  {| head_ := 0;
     tail_ := 0;
     buffer_ := replicate (Z.to_nat SIZE) {| sequence := 0; data := d |} |}.

(** The [for (;;)] loop of [push], one iteration per unit of fuel; [tail] is
    the local copy.  [None]: the loop is still running when the fuel is spent
    (the slot read itself never fails, [pos] being masked below [SIZE]).  A
    failed compare-exchange reloads the local copy, as does the retry branch. *)
Fixpoint push_loop (fuel : nat) (tail : Z) (item : T) (b : MPSCCircularBuffer)
  : option (bool * MPSCCircularBuffer) :=
  match fuel with
  | O => None
  | S fuel' =>
      let pos := Z.land tail (SIZE - 1) in
      match buffer_ b !! Z.to_nat pos with
      | None => None
      | Some e =>
          let seq := sequence e in
          let diff := signed_diff seq tail in
          if diff =? 0 then
            if tail_ b =? tail then
              Some (true,
                    {| head_ := head_ b;
                       tail_ := wrap64 (tail + 1);
                       buffer_ := <[ Z.to_nat pos :=
                                       {| sequence := wrap64 (tail + 1); data := item |} ]>
                                    (buffer_ b) |})
            else push_loop fuel' (tail_ b) item b
          else if diff <? 0 then Some (false, b)
          else push_loop fuel' (tail_ b) item b
      end
  end.

Definition push (fuel : nat) (item : T) (b : MPSCCircularBuffer)
  : option (bool * MPSCCircularBuffer) :=
  push_loop fuel (tail_ b) item b.

(** [pop]: [Some (Some x, b')] is the [true] return with [item = x]. *)
Fixpoint pop_loop (fuel : nat) (head : Z) (b : MPSCCircularBuffer)
  : option (option T * MPSCCircularBuffer) :=
  match fuel with
  | O => None
  | S fuel' =>
      let pos := Z.land head (SIZE - 1) in
      match buffer_ b !! Z.to_nat pos with
      | None => None
      | Some e =>
          let seq := sequence e in
          let diff := signed_diff seq (wrap64 (head + 1)) in
          if diff =? 0 then
            if head_ b =? head then
              Some (Some (data e),
                    {| head_ := wrap64 (head + 1);
                       tail_ := tail_ b;
                       buffer_ := <[ Z.to_nat pos :=
                                       {| sequence := wrap64 (head + SIZE); data := data e |} ]>
                                    (buffer_ b) |})
            else pop_loop fuel' (head_ b) b
          else if diff <? 0 then Some (None, b)
          else pop_loop fuel' (head_ b) b
      end
  end.

Definition pop (fuel : nat) (b : MPSCCircularBuffer)
  : option (option T * MPSCCircularBuffer) :=
  pop_loop fuel (head_ b) b.

(** Back-to-back pushes; the results are collected until the first call that
    does not return. *)
Fixpoint push_all (fuel : nat) (items : list T) (b : MPSCCircularBuffer)
  : option (list bool * MPSCCircularBuffer) :=
  match items with
  | [] => Some ([], b)
  | item :: rest =>
      match push fuel item b with
      | None => None
      | Some (ok, b1) =>
          match push_all fuel rest b1 with
          | None => None
          | Some (oks, b2) => Some (ok :: oks, b2)
          end
      end
  end.

(** A sequential client of the ring, as for the SPSC ring; [None] when a call
    is still looping after [fuel] iterations. *)
Inductive call : Type :=
  | Push (item : T)
  | Pop.

Record log : Type := mkLog {
  pushed : list T;
  popped : list T;
  ring : MPSCCircularBuffer
}.

Definition step (fuel : nat) (l : log) (c : call) : option log :=
  match c with
  | Push item =>
      match push fuel item (ring l) with
      | None => None
      | Some (ok, b) =>
          Some {| pushed := if ok then pushed l ++ [item] else pushed l;
                  popped := popped l;
                  ring := b |}
      end
  | Pop =>
      match pop fuel (ring l) with
      | None => None
      | Some (r, b) =>
          Some {| pushed := pushed l;
                  popped := match r with Some x => popped l ++ [x] | None => popped l end;
                  ring := b |}
      end
  end.

Fixpoint run_from (fuel : nat) (l : log) (cs : list call) : option log :=
  match cs with
  | [] => Some l
  | c :: rest =>
      match step fuel l c with
      | None => None
      | Some l' => run_from fuel l' rest
      end
  end.

Definition run (fuel : nat) (d : T) (cs : list call) : option log :=
  run_from fuel {| pushed := []; popped := []; ring := new d |} cs.

(** The two loops with [compare_exchange_weak] as the source has it: the
    exchange may fail although the index still matches.  [spurious] is the
    number of such failures the call has yet to meet.  A failed exchange
    stores the current index in the local copy and the loop goes round, like
    the retry branch. *)
Fixpoint push_loop_weak (fuel spurious : nat) (tail : Z) (item : T)
  (b : MPSCCircularBuffer) : option (bool * MPSCCircularBuffer) :=
  match fuel with
  | O => None
  | S fuel' =>
      let pos := Z.land tail (SIZE - 1) in
      match buffer_ b !! Z.to_nat pos with
      | None => None
      | Some e =>
          let seq := sequence e in
          let diff := signed_diff seq tail in
          if diff =? 0 then
            if tail_ b =? tail then
              match spurious with
              | S spurious' => push_loop_weak fuel' spurious' (tail_ b) item b
              | O =>
                  Some (true,
                        {| head_ := head_ b;
                           tail_ := wrap64 (tail + 1);
                           buffer_ := <[ Z.to_nat pos :=
                                           {| sequence := wrap64 (tail + 1); data := item |} ]>
                                        (buffer_ b) |})
              end
            else push_loop_weak fuel' spurious (tail_ b) item b
          else if diff <? 0 then Some (false, b)
          else push_loop_weak fuel' spurious (tail_ b) item b
      end
  end.

Definition push_weak (fuel spurious : nat) (item : T) (b : MPSCCircularBuffer)
  : option (bool * MPSCCircularBuffer) :=
  push_loop_weak fuel spurious (tail_ b) item b.

Fixpoint pop_loop_weak (fuel spurious : nat) (head : Z) (b : MPSCCircularBuffer)
  : option (option T * MPSCCircularBuffer) :=
  match fuel with
  | O => None
  | S fuel' =>
      let pos := Z.land head (SIZE - 1) in
      match buffer_ b !! Z.to_nat pos with
      | None => None
      | Some e =>
          let seq := sequence e in
          let diff := signed_diff seq (wrap64 (head + 1)) in
          if diff =? 0 then
            if head_ b =? head then
              match spurious with
              | S spurious' => pop_loop_weak fuel' spurious' (head_ b) b
              | O =>
                  Some (Some (data e),
                        {| head_ := wrap64 (head + 1);
                           tail_ := tail_ b;
                           buffer_ := <[ Z.to_nat pos :=
                                           {| sequence := wrap64 (head + SIZE);
                                              data := data e |} ]>
                                        (buffer_ b) |})
              end
            else pop_loop_weak fuel' spurious (head_ b) b
          else if diff <? 0 then Some (None, b)
          else pop_loop_weak fuel' spurious (head_ b) b
      end
  end.

Definition pop_weak (fuel spurious : nat) (b : MPSCCircularBuffer)
  : option (option T * MPSCCircularBuffer) :=
  pop_loop_weak fuel spurious (head_ b) b.

(** The sequential client again, each call paired with the number of
    spurious failures its compare-exchange meets. *)
Definition step_weak (fuel : nat) (l : log) (c : call * nat) : option log :=
  match c.1 with
  | Push item =>
      match push_weak fuel c.2 item (ring l) with
      | None => None
      | Some (ok, b) =>
          Some {| pushed := if ok then pushed l ++ [item] else pushed l;
                  popped := popped l;
                  ring := b |}
      end
  | Pop =>
      match pop_weak fuel c.2 (ring l) with
      | None => None
      | Some (r, b) =>
          Some {| pushed := pushed l;
                  popped := match r with Some x => popped l ++ [x] | None => popped l end;
                  ring := b |}
      end
  end.

Fixpoint run_from_weak (fuel : nat) (l : log) (cs : list (call * nat)) : option log :=
  match cs with
  | [] => Some l
  | c :: rest =>
      match step_weak fuel l c with
      | None => None
      | Some l' => run_from_weak fuel l' rest
      end
  end.

Definition run_weak (fuel : nat) (d : T) (cs : list (call * nat)) : option log :=
  run_from_weak fuel {| pushed := []; popped := []; ring := new d |} cs.

(** The three shapes a ring of capacity at least 2 takes in a sequential run:
    as constructed; after the one push that succeeds; after that item was
    popped. *)
Definition fresh (d : T) (b : MPSCCircularBuffer) : Prop := b = new d.

Definition loaded (d x : T) (b : MPSCCircularBuffer) : Prop :=
  b = {| head_ := 0; tail_ := 1;
         buffer_ := <[ 0%nat := {| sequence := 1; data := x |} ]> (buffer_ (new d)) |}.

Definition spent (d x : T) (b : MPSCCircularBuffer) : Prop :=
  b = {| head_ := 1; tail_ := 1;
         buffer_ := <[ 0%nat := {| sequence := wrap64 SIZE; data := x |} ]>
                      (buffer_ (new d)) |}.

(** Where a sequential run can be. *)
Definition phase (d : T) (l : log) : Prop :=
  (fresh d (ring l) /\ pushed l = [] /\ popped l = []) \/
  (exists x, loaded d x (ring l) /\ pushed l = [x] /\ popped l = []) \/
  (exists x, spent d x (ring l) /\ pushed l = [x] /\ popped l = [x]).

End MPSCCircularBuffer.
Arguments Entry : clear implicits.
Arguments MPSCCircularBuffer : clear implicits.
Arguments log : clear implicits.
Arguments call : clear implicits.
End MPSC.

(** ** MemoryPool<T, PoolSize>: the slab pool *)

Module Pool.
Section MemoryPool.
Context {T : Type}.
Variable PoolSize : nat.

(** [storage_] holds the live objects ([None]: raw storage); a [T*] into the
    pool is the index of its slot, which is what [deallocate] computes from
    the pointer.  [nullptr] is [None]. *)
Record MemoryPool : Type := mk {
  storage_ : list (option T);
  allocated_ : list bool;
  free_count_ : Z;
  free_list_ : list Z
}.

Definition new : MemoryPool :=
  {| storage_ := replicate PoolSize None;
     allocated_ := replicate PoolSize false;
     free_count_ := Z.of_nat PoolSize;
     free_list_ := Z.of_nat <$> seq 0 PoolSize |}.

(** [allocate(args...)], with [obj] the object the placement-new constructs.
    Outer [None]: an array is indexed out of bounds (undefined behaviour);
    [Some (None, _)]: the pool is exhausted and [nullptr] is returned. *)
Definition allocate (obj : T) (p : MemoryPool) : option (option Z * MemoryPool) :=
  let count := free_count_ p in
  if 0 <? count then
    match free_list_ p !! Z.to_nat (count - 1) with
    | None => None
    | Some idx =>
        if (0 <=? idx) && (idx <? Z.of_nat PoolSize) then
          Some (Some idx,
                {| storage_ := <[ Z.to_nat idx := Some obj ]> (storage_ p);
                   allocated_ := <[ Z.to_nat idx := true ]> (allocated_ p);
                   free_count_ := count - 1;
                   free_list_ := free_list_ p |})
        else None
    end
  else Some (None, p).

(** [deallocate(ptr)].  [None]: [allocated_] or [free_list_] is written out of
    bounds. *)
Definition deallocate (ptr : option Z) (p : MemoryPool) : option MemoryPool :=
  match ptr with
  | None => Some p
  | Some idx =>
      let count := free_count_ p in
      if (0 <=? idx) && (idx <? Z.of_nat PoolSize)
         && (0 <=? count) && (count <? Z.of_nat PoolSize) then
        Some {| storage_ := <[ Z.to_nat idx := None ]> (storage_ p);
                allocated_ := <[ Z.to_nat idx := false ]> (allocated_ p);
                free_count_ := wrap64 (count + 1);
                free_list_ := <[ Z.to_nat count := idx ]> (free_list_ p) |}
      else None
  end.

Definition available (p : MemoryPool) : Z := free_count_ p.

Definition owns (ptr : option Z) : bool :=
  match ptr with
  | Some idx => (0 <=? idx) && (idx <? Z.of_nat PoolSize)
  | None => false
  end.

(** [k] allocations in a row; the pointers come back in call order. *)
Fixpoint allocate_all (objs : list T) (p : MemoryPool)
  : option (list (option Z) * MemoryPool) :=
  match objs with
  | [] => Some ([], p)
  | obj :: rest =>
      match allocate obj p with
      | None => None
      | Some (ptr, p1) =>
          match allocate_all rest p1 with
          | None => None
          | Some (ptrs, p2) => Some (ptr :: ptrs, p2)
          end
      end
  end.

Fixpoint deallocate_all (ptrs : list (option Z)) (p : MemoryPool) : option MemoryPool :=
  match ptrs with
  | [] => Some p
  | ptr :: rest =>
      match deallocate ptr p with
      | None => None
      | Some p1 => deallocate_all rest p1
      end
  end.

(** The shape of every pool the constructor and the two operations produce:
    the arrays have [PoolSize] slots, the count is within the stack, and the
    live part of the free-index stack holds slot numbers. *)
Definition wf (p : MemoryPool) : Prop :=
  length (storage_ p) = PoolSize /\
  length (allocated_ p) = PoolSize /\
  length (free_list_ p) = PoolSize /\
  0 <= free_count_ p <= Z.of_nat PoolSize /\
  forall i, 0 <= i < free_count_ p ->
    exists idx, free_list_ p !! Z.to_nat i = Some idx /\ 0 <= idx < Z.of_nat PoolSize.

(** The free slots: the live part of the free-index stack, bottom first. *)
Definition free_slots (p : MemoryPool) : list Z :=
  take (Z.to_nat (free_count_ p)) (free_list_ p).

(** No slot is on the free stack twice. *)
Definition stack_ok (p : MemoryPool) : Prop := wf p /\ NoDup (free_slots p).

End MemoryPool.
Arguments MemoryPool : clear implicits.

(** Fifty objects to allocate, numbered as in the pool test. *)
Definition fifty : list Z := Z.of_nat <$> seq 0 50.

End Pool.

(** ** LockFreeHashMap<const char*, V, Capacity>: the symbol table *)

Module StrMap.

(** A [char] is a byte; NUL is [x00].  A [const char*] argument is the list of
    bytes found at the pointer: the C string it denotes ends at the first NUL,
    or at the end of the list (where the terminator sits). *)
Abbreviation char := Byte.byte.
Definition NUL : char := Byte.x00.
Definition is_nul (c : char) : bool := Byte.eqb c NUL.

Fixpoint c_str (s : list char) : list char :=
  match s with
  | [] => []
  | c :: rest => if is_nul c then [] else c :: c_str rest
  end.

Definition strlen (s : list char) : nat := length (c_str s).

(** [std::strncpy(dst, src, n)]: at most [n] bytes of [src] go to the front of
    [dst]; once [src] has ended the remainder of the [n] bytes is NUL. *)
Fixpoint strncpy (dst src : list char) (n : nat) : list char :=
  match n, dst with
  | O, _ => dst
  | S _, [] => []
  | S n', _ :: dst' =>
      match src with
      | [] => NUL :: strncpy dst' [] n'
      | c :: src' =>
          if is_nul c then NUL :: strncpy dst' [] n'
          else c :: strncpy dst' src' n'
      end
  end.

(** [std::strcmp(a, b) == 0]: byte by byte up to and including the
    terminator. *)
Fixpoint strcmp_eq (a b : list char) : bool :=
  match a, b with
  | [], [] => true
  | [], c :: _ => is_nul c
  | c :: _, [] => is_nul c
  | c1 :: a', c2 :: b' =>
      if Byte.eqb c1 c2 then (if is_nul c1 then true else strcmp_eq a' b')
      else false
  end.

Section LockFreeHashMap.
Context {V : Type}.
Variable Capacity : Z.
(** Whether plain [char] is signed on the target (x86-64: yes; AArch64 Linux:
    no); it decides how the [static_cast<uint64_t>] of a [char] extends it. *)
Variable char_signed : bool.

Definition SIZE : Z := Capacity.
Definition MAX_KEY_LEN : nat := 16.
Definition EMPTY : Z := 0.
Definition TOMBSTONE : Z := 1.

Record Entry : Type := mkEntry {
  hash : Z;
  key : list char;
  value : V
}.

Definition FNV_OFFSET : Z := 14695981039346656037.
Definition FNV_PRIME : Z := 1099511628211.

Definition char_to_u64 (c : char) : Z :=
  let n := Z.of_N (Byte.to_N c) in
  if char_signed && (128 <=? n) then wrap64 (n - 256) else n.

(** The [while] loop of [hash_string], which stops at the terminator. *)
Fixpoint hash_string_from (hash : Z) (str : list char) : Z :=
  match str with
  | [] => hash
  | c :: rest =>
      if is_nul c then hash
      else hash_string_from (wrap64 (Z.lxor hash (char_to_u64 c) * FNV_PRIME)) rest
  end.

Definition hash_string (str : list char) : Z := hash_string_from FNV_OFFSET str.

(** The tag under which a key is stored and looked up. *)
Definition tag (k : list char) : Z :=
  let h := hash_string k in
  if (h =? EMPTY) || (h =? TOMBSTONE) then 2 else h.

Definition mask : Z := wrap64 (SIZE - 1).

(** The table: [entries_], value-initialised. *)
Definition new (v0 : V) : list Entry :=
  replicate (Z.to_nat SIZE) {| hash := EMPTY; key := replicate MAX_KEY_LEN NUL; value := v0 |}.

(** The probe loop of [insert] with [n] iterations left. *)
Fixpoint insert_loop (n : nat) (idx h : Z) (k : list char) (v : V) (es : list Entry)
  : bool * list Entry :=
  match n with
  | O => (false, es)
  | S n' =>
      match es !! Z.to_nat idx with
      | None => (false, es)
      | Some e =>
          if hash e =? EMPTY then
            (true, <[ Z.to_nat idx :=
                        {| hash := h;
                           key := strncpy (key e) k (MAX_KEY_LEN - 1);
                           value := v |} ]> es)
          else if (hash e =? h) && strcmp_eq (key e) k then
            (true, <[ Z.to_nat idx := {| hash := hash e; key := key e; value := v |} ]> es)
          else insert_loop n' (Z.land (wrap64 (idx + 1)) mask) h k v es
      end
  end.

Definition insert (k : list char) (v : V) (es : list Entry) : bool * list Entry :=
  let h := tag k in
  insert_loop (Z.to_nat SIZE) (Z.land h mask) h k v es.

(** The probe loop of [find]; the result is the slot whose [value] field the
    returned pointer addresses, [None] for [nullptr]. *)
Fixpoint find_loop (n : nat) (idx h : Z) (k : list char) (es : list Entry) : option Z :=
  match n with
  | O => None
  | S n' =>
      match es !! Z.to_nat idx with
      | None => None
      | Some e =>
          if hash e =? EMPTY then None
          else if (hash e =? h) && strcmp_eq (key e) k then Some idx
          else find_loop n' (Z.land (wrap64 (idx + 1)) mask) h k es
      end
  end.

Definition find (k : list char) (es : list Entry) : option Z :=
  let h := tag k in
  find_loop (Z.to_nat SIZE) (Z.land h mask) h k es.

(** Dereferencing the pointer [find] returned. *)
Definition deref (es : list Entry) (p : Z) : option V :=
  value <$> es !! Z.to_nat p.

(** The layout every constructed table keeps: 16-byte keys whose last byte,
    which [strncpy] never reaches, is still NUL. *)
Definition key_ok (e : Entry) : Prop :=
  length (key e) = MAX_KEY_LEN ∧ key e !! 15%nat = Some NUL.

Definition table_ok (es : list Entry) : Prop := Forall key_ok es.

End LockFreeHashMap.
Arguments Entry : clear implicits.
End StrMap.

(** ** LockFreeHashMap<K, V, Capacity>: the primary template *)

Module KeyMap.

Abbreviation char := Byte.byte.

(** [std::memcmp(&a, &b, sizeof(K)) == 0] on the object representations. *)
Fixpoint keys_equal (a b : list char) : bool :=
  match a, b with
  | [], [] => true
  | c1 :: a', c2 :: b' => Byte.eqb c1 c2 && keys_equal a' b'
  | _, _ => false
  end.

Section LockFreeHashMap.
Context {V : Type}.
(** [Capacity] is a power of two (the [static_assert]); [k] is its log.  A key
    is its object representation, [key_size = sizeof(K)] bytes. *)
Variable k : nat.
Variable key_size : nat.
Variable char_signed : bool.

Definition SIZE : Z := 2 ^ Z.of_nat k.
Definition EMPTY : Z := 0.
Definition TOMBSTONE : Z := 1.

Record Entry : Type := mkEntry {
  hash_ : Z;
  key : list char;
  value : V
}.

Definition FNV_OFFSET : Z := 14695981039346656037.
Definition FNV_PRIME : Z := 1099511628211.

Definition char_to_u64 (c : char) : Z :=
  let n := Z.of_N (Byte.to_N c) in
  if char_signed && (128 <=? n) then wrap64 (n - 256) else n.

(** The [for] loop of [hash] over the bytes of the key. *)
Fixpoint hash_from (h : Z) (data : list char) : Z :=
  match data with
  | [] => h
  | c :: rest => hash_from (wrap64 (Z.lxor h (char_to_u64 c) * FNV_PRIME)) rest
  end.

Definition hash (key : list char) : Z := hash_from FNV_OFFSET (take key_size key).

Definition tag (key : list char) : Z :=
  let h := hash key in
  if (h =? EMPTY) || (h =? TOMBSTONE) then 2 else h.

Definition mask : Z := wrap64 (SIZE - 1).

Definition new (v0 : V) : list Entry :=
  replicate (Z.to_nat SIZE)
            {| hash_ := EMPTY; key := replicate key_size Byte.x00; value := v0 |}.

Fixpoint insert_loop (n : nat) (idx h : Z) (key0 : list char) (v : V) (es : list Entry)
  : bool * list Entry :=
  match n with
  | O => (false, es)
  | S n' =>
      match es !! Z.to_nat idx with
      | None => (false, es)
      | Some e =>
          if hash_ e =? EMPTY then
            (true, <[ Z.to_nat idx := {| hash_ := h; key := key0; value := v |} ]> es)
          else if (hash_ e =? h) && keys_equal (key e) key0 then
            (true, <[ Z.to_nat idx := {| hash_ := hash_ e; key := key e; value := v |} ]> es)
          else insert_loop n' (Z.land (wrap64 (idx + 1)) mask) h key0 v es
      end
  end.

Definition insert (key0 : list char) (v : V) (es : list Entry) : bool * list Entry :=
  let h := tag key0 in
  insert_loop (Z.to_nat SIZE) (Z.land h mask) h key0 v es.

Fixpoint find_loop (n : nat) (idx h : Z) (key0 : list char) (es : list Entry) : option Z :=
  match n with
  | O => None
  | S n' =>
      match es !! Z.to_nat idx with
      | None => None
      | Some e =>
          if hash_ e =? EMPTY then None
          else if (hash_ e =? h) && keys_equal (key e) key0 then Some idx
          else find_loop n' (Z.land (wrap64 (idx + 1)) mask) h key0 es
      end
  end.

Definition find (key0 : list char) (es : list Entry) : option Z :=
  let h := tag key0 in
  find_loop (Z.to_nat SIZE) (Z.land h mask) h key0 es.

Definition deref (es : list Entry) (p : Z) : option V :=
  value <$> es !! Z.to_nat p.

End LockFreeHashMap.
Arguments Entry : clear implicits.
End KeyMap.

(** ** PriceLevel, OrderBook and OrderBook::Snapshot *)

Module Book.

Record PriceLevel : Type := mkLevel {
  price : float;
  quantity : float;
  order_count : Z
}.

(** [PriceLevel::reset()], also the value of the default member initialisers. *)
Definition reset : PriceLevel :=
  {| price := 0%float; quantity := 0%float; order_count := 0 |}.

#[global] Instance PriceLevel_inhabited : Inhabited PriceLevel := populate reset.

Definition MAX_DEPTH : Z := 10.

(** [std::numeric_limits<double>::max()], the largest finite binary64. *)
Definition DBL_MAX : float := 0x1.fffffffffffffp+1023%float.

(** [struct Book]: one side of the ladder. *)
Record Book : Type := mkBook {
  levels : list PriceLevel;
  depth : Z;
  sequence : Z
}.

Record OrderBook : Type := mkOrderBook {
  symbol_ : list Byte.byte;
  bids_ : Book;
  asks_ : Book
}.

Definition new_side : Book :=
  {| levels := replicate (Z.to_nat MAX_DEPTH) reset; depth := 0; sequence := 0 |}.

(** [OrderBook::OrderBook(symbol)]. *)
Definition new (symbol : list Byte.byte) : OrderBook :=
  {| symbol_ := symbol; bids_ := new_side; asks_ := new_side |}.

(** [update_level]: the two stores to the level leave [order_count] as it is;
    [depth] is a [uint32_t], [sequence] a [uint64_t]. *)
Definition update_level (book : Book) (level : Z) (p q : float) : Book :=
  {| levels := alter (fun pl => {| price := p; quantity := q; order_count := order_count pl |})
                     (Z.to_nat level) (levels book);
     depth := if depth book <=? level then wrap32 (level + 1) else depth book;
     sequence := wrap64 (sequence book + 1) |}.

Definition update_bid (level : Z) (p q : float) (b : OrderBook) : OrderBook :=
  if MAX_DEPTH <=? level then b
  else {| symbol_ := symbol_ b; bids_ := update_level (bids_ b) level p q; asks_ := asks_ b |}.

Definition update_ask (level : Z) (p q : float) (b : OrderBook) : OrderBook :=
  if MAX_DEPTH <=? level then b
  else {| symbol_ := symbol_ b; bids_ := bids_ b; asks_ := update_level (asks_ b) level p q |}.

Record Snapshot : Type := mkSnapshot {
  bids : list PriceLevel;
  asks : list PriceLevel;
  bid_depth : Z;
  ask_depth : Z;
  bid_sequence : Z;
  ask_sequence : Z;
  timestamp : Z
}.

(** [get_snapshot]; [now] is the reading [Timestamp::now()] returns. *)
Definition get_snapshot (now : Z) (b : OrderBook) : Snapshot :=
  {| bids := take (Z.to_nat MAX_DEPTH) (levels (bids_ b));
     asks := take (Z.to_nat MAX_DEPTH) (levels (asks_ b));
     bid_depth := depth (bids_ b);
     ask_depth := depth (asks_ b);
     bid_sequence := sequence (bids_ b);
     ask_sequence := sequence (asks_ b);
     timestamp := now |}.

(** The accessors of [Snapshot]; [bids[0]] is a read of a ten-element array. *)
Definition best_bid (s : Snapshot) : float :=
  if 0 <? bid_depth s then price (bids s !!! 0%nat) else 0%float.

Definition best_ask (s : Snapshot) : float :=
  if 0 <? ask_depth s then price (asks s !!! 0%nat) else DBL_MAX.

Definition mid_price (s : Snapshot) : float := ((best_bid s + best_ask s) / 2)%float.

Definition spread (s : Snapshot) : float := (best_ask s - best_bid s)%float.

Definition spread_bps (s : Snapshot) : float :=
  let mid := mid_price s in
  if (0 <? mid)%float then (spread s / mid * 10000)%float else 0%float.

(** What holds of each ladder of such a book: ten levels whose reserved
    [order_count] is still zero, a depth within the ladder, a 64-bit
    sequence. *)
Definition side_ok (side : Book) : Prop :=
  length (levels side) = Z.to_nat MAX_DEPTH /\
  Forall (fun pl => order_count pl = 0) (levels side) /\
  0 <= depth side <= MAX_DEPTH /\
  0 <= sequence side < 2 ^ 64.

(** The books a program can hold: constructed, then updated ([level] is a
    [size_t]). *)
Inductive reachable : OrderBook -> Prop :=
  | reach_new symbol : reachable (new symbol)
  | reach_bid b level p q :
      reachable b -> 0 <= level < 2 ^ 64 -> reachable (update_bid level p q b)
  | reach_ask b level p q :
      reachable b -> 0 <= level < 2 ^ 64 -> reachable (update_ask level p q b).

(** An untouched side still has its first level as the constructor left
    it. *)
Definition top_ok (side : Book) : Prop := depth side = 0 -> levels side !! 0%nat = Some reset.

(** [OrderBook::best_bid()], [best_ask()] and [mid_price()]: the reads of
    level 0 on the live book, with no look at the depth. *)
Definition book_best_bid (b : OrderBook) : float := price (levels (bids_ b) !!! 0%nat).
Definition book_best_ask (b : OrderBook) : float := price (levels (asks_ b) !!! 0%nat).
Definition book_mid_price (b : OrderBook) : float :=
  ((book_best_bid b + book_best_ask b) / 2)%float.

(** A feed: the updates applied to a book, in order. *)
Inductive update : Type :=
  | Bid (level : Z) (p q : float)
  | Ask (level : Z) (p q : float).

Definition apply_update (b : OrderBook) (u : update) : OrderBook :=
  match u with
  | Bid level p q => update_bid level p q b
  | Ask level p q => update_ask level p q b
  end.

Definition apply_updates (b : OrderBook) (us : list update) : OrderBook :=
  foldl apply_update b us.

(** The levels below [MAX_DEPTH] a feed writes on the bid side, and on the ask
    side. *)
Definition bid_levels (us : list update) : list Z :=
  omap (fun u => match u with
                 | Bid level _ _ => if MAX_DEPTH <=? level then None else Some level
                 | Ask _ _ _ => None
                 end) us.

Definition ask_levels (us : list update) : list Z :=
  omap (fun u => match u with
                 | Ask level _ _ => if MAX_DEPTH <=? level then None else Some level
                 | Bid _ _ _ => None
                 end) us.

(** One more than the highest level written; 0 when none was. *)
Definition high_water (written : list Z) : Z := foldr (fun l acc => Z.max (l + 1) acc) 0 written.

End Book.

(** ** struct Order (network/tcp_sender.h) *)

Module Wire.

Inductive Side : Type := BUY | SELL.
Inductive OrderType : Type := LIMIT | MARKET | IOC.

Record Order : Type := mkOrder {
  symbol : list Byte.byte;
  order_id : Z;
  side : Side;
  type : OrderType;
  price : float;
  quantity : float;
  timestamp : Z
}.

End Wire.

(** ** OrderManager: the risk-gated submitter *)

Module Risk.
Import Wire.

Record RiskLimits : Type := mkLimits {
  max_order_size : float;
  max_position : float;
  max_notional : float;
  max_orders_per_second : Z
}.

Definition default_limits : RiskLimits :=
  {| max_order_size := 1000%float;
     max_position := 10000%float;
     max_notional := 1000000%float;
     max_orders_per_second := 100 |}.

Record OrderManager : Type := mkManager {
  limits_ : RiskLimits;
  position_ : float;
  notional_ : float;
  orders_this_second_ : Z;
  last_second_timestamp_ : Z
}.

Definition new : OrderManager :=
  {| limits_ := default_limits;
     position_ := 0%float;
     notional_ := 0%float;
     orders_this_second_ := 0;
     last_second_timestamp_ := 0 |}.

Definition set_risk_limits (limits : RiskLimits) (m : OrderManager) : OrderManager :=
  {| limits_ := limits;
     position_ := position_ m;
     notional_ := notional_ m;
     orders_this_second_ := orders_this_second_ m;
     last_second_timestamp_ := last_second_timestamp_ m |}.

Definition check_order_size (m : OrderManager) (size : float) : bool :=
  (0 <? size)%float && (size <=? max_order_size (limits_ m))%float.

Definition check_position_limit (m : OrderManager) (sd : Side) (size : float) : bool :=
  let current_position := position_ m in
  let new_position :=
    match sd with
    | BUY => (current_position + size)%float
    | SELL => (current_position - size)%float
    end in
  (abs new_position <=? max_position (limits_ m))%float.

Definition ONE_SECOND_NS : Z := 1000000000.

(** [now_ns] is the reading of [Timestamp::wall_clock_ns()]. *)
Definition update_rate_limiter (now_ns : Z) (m : OrderManager) : OrderManager :=
  let last_ns := last_second_timestamp_ m in
  if ONE_SECOND_NS <? wrap64 (now_ns - last_ns) then
    {| limits_ := limits_ m;
       position_ := position_ m;
       notional_ := notional_ m;
       orders_this_second_ := 0;
       last_second_timestamp_ := now_ns |}
  else m.

Definition check_rate_limit (now_ns : Z) (m : OrderManager) : bool * OrderManager :=
  let m1 := update_rate_limiter now_ns m in
  let count := orders_this_second_ m1 in
  if max_orders_per_second (limits_ m1) <=? count then (false, m1)
  else (true,
        {| limits_ := limits_ m1;
           position_ := position_ m1;
           notional_ := notional_ m1;
           orders_this_second_ := wrap32 (count + 1);
           last_second_timestamp_ := last_second_timestamp_ m1 |}).

Definition check_notional_limit (m : OrderManager) (p size : float) : bool :=
  let order_notional := (p * size)%float in
  let current_notional := notional_ m in
  (current_notional + order_notional <=? max_notional (limits_ m))%float.

(** Which [return] of [submit_order] was taken: one of the four guarded
    [return false] statements, named after the check whose failure it logs, or
    the final [return success] after the order went to the sender. *)
Inductive Rejection : Type := ORDER_SIZE | POSITION_LIMIT | RATE_LIMIT | NOTIONAL_LIMIT.

Inductive Outcome : Type :=
  | Rejected (why : Rejection)
  | Forwarded (success : bool).

Definition returned (o : Outcome) : bool :=
  match o with
  | Rejected _ => false
  | Forwarded success => success
  end.

(** [send_order] stands for [order_sender_.send_order]. *)
Definition submit_order (now_ns : Z) (send_order : Order -> bool) (order : Order)
  (m : OrderManager) : Outcome * OrderManager :=
  if negb (check_order_size m (quantity order)) then (Rejected ORDER_SIZE, m)
  else if negb (check_position_limit m (side order) (quantity order))
  then (Rejected POSITION_LIMIT, m)
  else
    let '(ok, m1) := check_rate_limit now_ns m in
    if negb ok then (Rejected RATE_LIMIT, m1)
    else if negb (check_notional_limit m1 (price order) (quantity order))
    then (Rejected NOTIONAL_LIMIT, m1)
    else
      let success := send_order order in
      if success then
        let position := position_ m1 in
        (Forwarded true,
         {| limits_ := limits_ m1;
            position_ := match side order with
                         | BUY => (position + quantity order)%float
                         | SELL => (position - quantity order)%float
                         end;
            notional_ := notional_ m1;
            orders_this_second_ := orders_this_second_ m1;
            last_second_timestamp_ := last_second_timestamp_ m1 |})
      else (Forwarded false, m1).

(** [cancel_order]: nothing is sent or recorded. *)
Definition cancel_order (order_id : Z) (m : OrderManager) : bool * OrderManager := (true, m).

(** A run of submissions, each with the wall-clock reading its rate check
    takes. *)
Fixpoint submit_all (send_order : Order -> bool) (calls : list (Z * Order))
  (m : OrderManager) : list Outcome * OrderManager :=
  match calls with
  | [] => ([], m)
  | (now_ns, order) :: rest =>
      let '(o, m1) := submit_order now_ns send_order order m in
      let '(os, m2) := submit_all send_order rest m1 in
      (o :: os, m2)
  end.

Definition is_forwarded (o : Outcome) : bool :=
  match o with
  | Forwarded _ => true
  | Rejected _ => false
  end.

End Risk.

(** ** MarketMakingStrategy *)

Module MM.
Import Wire.

Record Parameters : Type := mkParams {
  spread_target : float;
  quote_size : float;
  max_position : float;
  skew_factor : float;
  edge : float
}.

Definition default_params : Parameters :=
  {| spread_target := 0.0002%float;
     quote_size := 100%float;
     max_position := 1000%float;
     skew_factor := 0.5%float;
     edge := 0.0001%float |}.

Record MarketMakingStrategy : Type := mkStrategy {
  params_ : Parameters;
  position_ : float;
  pnl_ : float;
  last_quote_time_ : Z;
  next_order_id_ : Z
}.

Definition new (params : Parameters) : MarketMakingStrategy :=
  {| params_ := params;
     position_ := 0%float;
     pnl_ := 0%float;
     last_quote_time_ := 0;
     next_order_id_ := 1 |}.

Definition calculate_fair_value (params : Parameters) (mid position : float) : float :=
  let skew := (- position / max_position params * skew_factor params)%float in
  (mid * (1 + skew))%float.

(** The two prices [update_quotes] computes from the fair value. *)
Definition bid_price (params : Parameters) (fair_value : float) : float :=
  let half_spread := (fair_value * spread_target params / 2)%float in
  (fair_value - half_spread - edge params * fair_value)%float.

Definition ask_price (params : Parameters) (fair_value : float) : float :=
  let half_spread := (fair_value * spread_target params / 2)%float in
  (fair_value + half_spread + edge params * fair_value)%float.

(** The bytes of the literal the symbol field is filled from; the rest of the
    zeroed field stays NUL. *)
Definition SYMBOL : list Byte.byte := ["S"; "Y"; "M"; "B"; "O"; "L"]%byte.

(** [update_quotes], the only place the strategy sends orders from
    ([on_order_book_update] calls it when [should_requote] allows).  [t_bid],
    [t_ask] and [t_done] are the readings of [Timestamp::now()] stamped on the
    two orders and stored as the last quote time.  The result lists the orders
    handed to [send_order], in order. *)
Definition update_quotes (t_bid t_ask t_done : Z) (snapshot : Book.Snapshot)
  (s : MarketMakingStrategy) : list Order * MarketMakingStrategy :=
  let mid := Book.mid_price snapshot in
  if (mid <=? 0)%float then ([], s)
  else
    let position := position_ s in
    let params := params_ s in
    if (max_position params <=? abs position)%float then ([], s)
    else
      let fair_value := calculate_fair_value params mid position in
      let bid_order :=
        {| symbol := SYMBOL; order_id := next_order_id_ s; side := BUY; type := LIMIT;
           price := bid_price params fair_value; quantity := quote_size params;
           timestamp := t_bid |} in
      let ask_order :=
        {| symbol := SYMBOL; order_id := wrap64 (next_order_id_ s + 1); side := SELL;
           type := LIMIT; price := ask_price params fair_value;
           quantity := quote_size params; timestamp := t_ask |} in
      let sent_bid :=
        if (position <? max_position params * 0.8)%float then [bid_order] else [] in
      let sent_ask :=
        if (- max_position params * 0.8 <? position)%float then [ask_order] else [] in
      (sent_bid ++ sent_ask,
       {| params_ := params;
          position_ := position;
          pnl_ := pnl_ s;
          last_quote_time_ := t_done;
          next_order_id_ := wrap64 (wrap64 (next_order_id_ s + 1) + 1) |}).

(** A run of quoting rounds, each with its three clock readings and the
    snapshot it quotes from; the orders handed to the sender, in order. *)
Fixpoint quote_all (rounds : list (Z * Z * Z * Book.Snapshot)) (s : MarketMakingStrategy)
  : list Order * MarketMakingStrategy :=
  match rounds with
  | [] => ([], s)
  | (t_bid, t_ask, t_done, snapshot) :: rest =>
      let '(orders, s1) := update_quotes t_bid t_ask t_done snapshot s in
      let '(more, s2) := quote_all rest s1 in
      (orders ++ more, s2)
  end.

(** A snapshot the strategy quotes from, with a mid price of exactly 100:
    best bid 99.96875, best ask 100.03125.  Its spread is 6.25 bps, within the
    10 bps above which [should_requote] declines. *)
Definition snapshot_mid_100 : Book.Snapshot :=
  Book.get_snapshot 0
    (Book.update_ask 0 100.03125 400 (Book.update_bid 0 99.96875 500 (Book.new []))).

End MM.

(** ** MarketDataHandler *)

Module Handler.
Section MarketDataHandler.
Variable char_signed : bool.

Definition MAP_SIZE : Z := 256.
Definition POOL_SIZE : nat := 256.

(** The record [process_message] reads through its cast of the datagram.
    [symbol] is the 16-byte field; [after_symbol] is what follows it in the
    buffer, which [strcmp] and the hash run into when the field holds no
    NUL. *)
Record MarketDataMessage : Type := mkMessage {
  symbol : list StrMap.char;
  after_symbol : list StrMap.char;
  side : Z;
  level : Z;
  price : float;
  quantity : float;
  timestamp : Z
}.

(** [sizeof(MarketDataMessage)], packed: 16 + 1 + 1 + 8 + 8 + 8. *)
Definition MESSAGE_SIZE : Z := 42.

(** An [OrderBook*] is the pool slot of the book; [None] is [nullptr].
    [callback_] records whether a callback is registered. *)
Record MarketDataHandler : Type := mkHandler {
  order_book_map_ : list (StrMap.Entry (option Z));
  order_book_pool_ : Pool.MemoryPool Book.OrderBook;
  callback_ : bool
}.

Definition new : MarketDataHandler :=
  {| order_book_map_ := StrMap.new MAP_SIZE None;
     order_book_pool_ := Pool.new POOL_SIZE;
     callback_ := false |}.

Definition register_callback (h : MarketDataHandler) : MarketDataHandler :=
  {| order_book_map_ := order_book_map_ h;
     order_book_pool_ := order_book_pool_ h;
     callback_ := true |}.

Definition get_order_book (sym : list StrMap.char) (h : MarketDataHandler) : option Z :=
  match StrMap.find MAP_SIZE char_signed sym (order_book_map_ h) with
  | Some slot =>
      match StrMap.deref (order_book_map_ h) slot with
      | Some book => book
      | None => None
      end
  | None => None
  end.

(** [add_symbol]; outer [None]: the pool indexed an array out of bounds. *)
Definition add_symbol (sym : list StrMap.char) (h : MarketDataHandler)
  : option MarketDataHandler :=
  match get_order_book sym h with
  | Some _ => Some h
  | None =>
      match Pool.allocate POOL_SIZE (Book.new sym) (order_book_pool_ h) with
      | None => None
      | Some (None, pool) =>
          Some {| order_book_map_ := order_book_map_ h;
                  order_book_pool_ := pool;
                  callback_ := callback_ h |}
      | Some (Some book, pool) =>
          Some {| order_book_map_ :=
                    (StrMap.insert MAP_SIZE char_signed sym (Some book) (order_book_map_ h)).2;
                  order_book_pool_ := pool;
                  callback_ := callback_ h |}
      end
  end.

(** The book a pointer addresses; [None] when the slot holds no live book. *)
Definition book_at (h : MarketDataHandler) (book : Z) : option Book.OrderBook :=
  match Pool.storage_ (order_book_pool_ h) !! Z.to_nat book with
  | Some (Some b) => Some b
  | _ => None
  end.

(** [process_message(data, len)], with [msg] the record at [data].  The
    result carries the book handed to the callback, if one was called.  Outer
    [None]: the pointer found in the map addresses no live book. *)
Definition process_message (msg : MarketDataMessage) (len : Z) (h : MarketDataHandler)
  : option (option Book.OrderBook * MarketDataHandler) :=
  if len <? MESSAGE_SIZE then Some (None, h)
  else
    match get_order_book (symbol msg ++ after_symbol msg) h with
    | None => Some (None, h)
    | Some book =>
        match book_at h book with
        | None => None
        | Some b =>
            let b' := if side msg =? 0
                      then Book.update_bid (level msg) (price msg) (quantity msg) b
                      else Book.update_ask (level msg) (price msg) (quantity msg) b in
            let pool := order_book_pool_ h in
            Some (if callback_ h then Some b' else None,
                  {| order_book_map_ := order_book_map_ h;
                     order_book_pool_ :=
                       {| Pool.storage_ := <[ Z.to_nat book := Some b' ]> (Pool.storage_ pool);
                          Pool.allocated_ := Pool.allocated_ pool;
                          Pool.free_count_ := Pool.free_count_ pool;
                          Pool.free_list_ := Pool.free_list_ pool |};
                     callback_ := callback_ h |})
        end
    end.

(** The public calls, and a run of them on one handler.  [None]: a call
    indexed an array out of bounds or went through a pointer to no live
    book. *)
Inductive call : Type :=
  | RegisterCallback
  | AddSymbol (sym : list StrMap.char)
  | ProcessMessage (msg : MarketDataMessage) (len : Z).

Definition step (c : call) (h : MarketDataHandler) : option MarketDataHandler :=
  match c with
  | RegisterCallback => Some (register_callback h)
  | AddSymbol sym => add_symbol sym h
  | ProcessMessage msg len => snd <$> process_message msg len h
  end.

Fixpoint run (cs : list call) (h : MarketDataHandler) : option MarketDataHandler :=
  match cs with
  | [] => Some h
  | c :: rest =>
      match step c h with
      | None => None
      | Some h1 => run rest h1
      end
  end.






(** The number of table slots that are not EMPTY. *)
Definition occupied (es : list (StrMap.Entry (option Z))) : nat :=
  length (List.filter (fun e => negb (StrMap.hash e =? StrMap.EMPTY)) es).

(** What the handler keeps true of itself: the table and the pool are laid
    out as their constructors and operations leave them, no slot is on the
    free stack twice, the table has a free slot for every free book, and the
    pointers stored in the table address live books that are off the free
    stack and pairwise different. *)
Definition handler_ok (h : MarketDataHandler) : Prop :=
  StrMap.table_ok (order_book_map_ h) /\
  length (order_book_map_ h) = Z.to_nat MAP_SIZE /\
  Pool.stack_ok POOL_SIZE (order_book_pool_ h) /\
  Z.of_nat (occupied (order_book_map_ h)) + Pool.free_count_ (order_book_pool_ h)
    <= MAP_SIZE /\
  (forall (i : nat) e, order_book_map_ h !! i = Some e ->
     StrMap.hash e <> StrMap.EMPTY ->
     exists book b, StrMap.value e = Some book /\ book_at h book = Some b /\
                    0 <= book /\ book ∉ Pool.free_slots (order_book_pool_ h)) /\
  (forall (i j : nat) e e', i <> j ->
     order_book_map_ h !! i = Some e -> order_book_map_ h !! j = Some e' ->
     StrMap.hash e <> StrMap.EMPTY -> StrMap.hash e' <> StrMap.EMPTY ->
     StrMap.value e <> StrMap.value e').

End MarketDataHandler.
End Handler.

(** * Properties *)

(** ** Word and mask arithmetic *)

Lemma wrap64_small z : 0 <= z < 2 ^ 64 -> wrap64 z = z.
Proof. intros H. unfold wrap64. now apply Z.mod_small. Qed.

Lemma wrap32_small z : 0 <= z < 2 ^ 32 -> wrap32 z = z.
Proof. intros H. unfold wrap32. now apply Z.mod_small. Qed.

Lemma pow2_pos (k : nat) : 0 < 2 ^ Z.of_nat k.
Proof. apply Z.pow_pos_nonneg; lia. Qed.

(** Masking a 64-bit word with [2^k - 1] is reduction modulo [2^k]. *)
Lemma mask_mod (k : nat) z :
  (k <= 64)%nat -> Z.land (wrap64 z) (2 ^ Z.of_nat k - 1) = z mod 2 ^ Z.of_nat k.
Proof.
  intros Hk. unfold wrap64.
  replace (2 ^ Z.of_nat k - 1) with (Z.ones (Z.of_nat k))
    by (rewrite Z.ones_equiv; lia).
  rewrite Z.land_ones by lia.
  replace (2 ^ 64) with (2 ^ Z.of_nat k * 2 ^ (64 - Z.of_nat k))
    by (rewrite <- Z.pow_add_r by lia; f_equal; lia).
  pose proof (pow2_pos k).
  rewrite Z.rem_mul_r by (try apply Z.pow_nonzero; lia).
  rewrite (Z.mul_comm (2 ^ Z.of_nat k)), Z_mod_plus_full.
  apply Z.mod_mod. lia.
Qed.

Lemma mask_small (k : nat) z :
  (k <= 64)%nat -> 0 <= z < 2 ^ Z.of_nat k -> Z.land z (2 ^ Z.of_nat k - 1) = z.
Proof.
  intros Hk Hz.
  replace (2 ^ Z.of_nat k - 1) with (Z.ones (Z.of_nat k))
    by (rewrite Z.ones_equiv; lia).
  rewrite Z.land_ones by lia. now apply Z.mod_small.
Qed.

(** Case analysis on every [<?] test of the goal. *)
Ltac case_ltb :=
  repeat match goal with
         | |- context [?a <? ?c] => destruct (Z.ltb_spec a c)
         end.

(** Reduction modulo [n] of a value at most one lap away from [0, n). *)
Lemma mod_one_lap n z :
  0 < n -> - n <= z < 2 * n ->
  z mod n = if z <? 0 then z + n else if z <? n then z else z - n.
Proof.
  intros Hn Hz.
  destruct (Z.ltb_spec z 0).
  - replace z with (z + n + (-1) * n) at 1 by lia.
    rewrite Z_mod_plus_full. apply Z.mod_small. lia.
  - destruct (Z.ltb_spec z n).
    + apply Z.mod_small. lia.
    + replace z with (z - n + 1 * n) at 1 by lia.
      rewrite Z_mod_plus_full. apply Z.mod_small. lia.
Qed.

(** ** The SPSC ring *)

Section SPSC_facts.
Context {T : Type}.
Variable k : nat.
Hypothesis Hk : (k <= 63)%nat.

Local Abbreviation N := (SPSC.SIZE k).
Local Abbreviation buf := (SPSC.CircularBuffer T).

Import SPSC.

Lemma SIZE_pos : 0 < N.
Proof. apply pow2_pos. Qed.

(** The successor of an index, as both operations compute it. *)
Lemma next_index i :
  0 <= i < N ->
  Z.land (wrap64 (i + 1)) (N - 1) = if i + 1 <? N then i + 1 else 0.
Proof.
  intros Hi. pose proof SIZE_pos. unfold SIZE.
  rewrite mask_mod by lia. fold N.
  rewrite mod_one_lap by lia.
  destruct (Z.ltb_spec (i + 1) 0); [lia |].
  destruct (Z.ltb_spec (i + 1) N); lia.
Qed.

Lemma inv_new (d : T) : inv k (new k d) [].
Proof.
  pose proof SIZE_pos.
  unfold inv, new; simpl. repeat split; try lia.
  - now rewrite length_replicate.
  - intros i x Hx. discriminate.
Qed.

Lemma inv_length (b : buf) q : inv k b q -> Z.of_nat (length q) <= N - 1.
Proof.
  intros (Hh & Ht & _ & Hlen & _). pose proof SIZE_pos.
  pose proof (Z.mod_pos_bound (tail_ b - head_ b) N). lia.
Qed.

Lemma inv_size (b : buf) q : inv k b q -> size k b = Z.of_nat (length q).
Proof.
  intros (Hh & Ht & _ & Hlen & _). unfold size, SIZE.
  rewrite mask_mod by lia. now rewrite Hlen.
Qed.

Lemma push_inv (b : buf) q item :
  inv k b q ->
  if Z.of_nat (length q) <? N - 1
  then exists b', push k item b = (true, b') /\ inv k b' (q ++ [item])
  else push k item b = (false, b).
Proof.
  intros (Hh & Ht & Hbuf & Hlen & Hq). pose proof SIZE_pos as HN.
  unfold push. rewrite next_index by lia.
  rewrite mod_one_lap in Hlen by lia.
  destruct (Z.ltb_spec (Z.of_nat (length q)) (N - 1)) as [Hroom | Hfull].
  - assert (Hne : ((if tail_ b + 1 <? N then tail_ b + 1 else 0) =? head_ b) = false).
    { apply Z.eqb_neq.
      destruct (Z.ltb_spec (tail_ b + 1) N), (Z.ltb_spec (tail_ b - head_ b) 0);
        try destruct (Z.ltb_spec (tail_ b - head_ b) N); lia. }
    rewrite Hne. eexists; split; [reflexivity |].
    unfold inv; simpl.
    split; [lia |]. split; [destruct (Z.ltb_spec (tail_ b + 1) N); lia |].
    split; [now rewrite length_insert |].
    split.
    + rewrite length_app; simpl. rewrite mod_one_lap by (destruct (Z.ltb_spec (tail_ b + 1) N); lia).
      destruct (Z.ltb_spec (tail_ b + 1) N), (Z.ltb_spec (tail_ b - head_ b) 0);
        try destruct (Z.ltb_spec (tail_ b - head_ b) N);
        case_ltb; lia.
    + intros i x Hix.
      assert (Htail : (head_ b + Z.of_nat (length q)) mod N = tail_ b).
      { rewrite mod_one_lap by lia.
        destruct (Z.ltb_spec (tail_ b - head_ b) 0);
          try destruct (Z.ltb_spec (tail_ b - head_ b) N);
          case_ltb; lia. }
      apply lookup_app_Some in Hix as [Hix | [Hge Hix]].
      * pose proof (lookup_lt_Some _ _ _ Hix) as Hlt.
        rewrite list_lookup_insert_ne; [now apply Hq |].
        intros Heq. apply Z2Nat.inj in Heq; try lia.
        -- rewrite <- Htail in Heq.
           rewrite !mod_one_lap in Heq by lia.
           repeat match type of Heq with context [?a <? ?c] => destruct (Z.ltb_spec a c) end; lia.
        -- pose proof (Z.mod_pos_bound (head_ b + Z.of_nat i) N); lia.
      * apply list_lookup_singleton_Some in Hix as [Hi0 ->].
        replace i with (length q) by lia. rewrite Htail.
        apply list_lookup_insert_eq. lia.
  - assert (Heq : ((if tail_ b + 1 <? N then tail_ b + 1 else 0) =? head_ b) = true).
    { apply Z.eqb_eq.
      destruct (Z.ltb_spec (tail_ b + 1) N), (Z.ltb_spec (tail_ b - head_ b) 0);
        try destruct (Z.ltb_spec (tail_ b - head_ b) N); lia. }
    now rewrite Heq.
Qed.

Lemma pop_inv (b : buf) q :
  inv k b q ->
  match q with
  | [] => pop k b = (None, b)
  | x :: q' => exists b', pop k b = (Some x, b') /\ inv k b' q'
  end.
Proof.
  intros (Hh & Ht & Hbuf & Hlen & Hq). pose proof SIZE_pos as HN.
  unfold pop. rewrite mod_one_lap in Hlen by lia.
  destruct q as [| x q'].
  - simpl in Hlen.
    assert (Heq : (head_ b =? tail_ b) = true).
    { apply Z.eqb_eq.
      destruct (Z.ltb_spec (tail_ b - head_ b) 0);
        try destruct (Z.ltb_spec (tail_ b - head_ b) N); lia. }
    now rewrite Heq.
  - simpl length in Hlen.
    assert (Hne : (head_ b =? tail_ b) = false).
    { apply Z.eqb_neq. intros Heq. rewrite Heq, Z.sub_diag in Hlen.
      destruct (Z.ltb_spec 0 N); simpl in Hlen; lia. }
    rewrite Hne.
    pose proof (Hq 0%nat x eq_refl) as Hx.
    rewrite Z.add_0_r, Z.mod_small in Hx by lia. rewrite Hx.
    eexists; split; [reflexivity |].
    rewrite next_index by lia.
    unfold inv; simpl.
    split; [destruct (Z.ltb_spec (head_ b + 1) N); lia |].
    split; [lia |]. split; [assumption |].
    split.
    + rewrite mod_one_lap by (destruct (Z.ltb_spec (head_ b + 1) N); lia).
      destruct (Z.ltb_spec (head_ b + 1) N), (Z.ltb_spec (tail_ b - head_ b) 0);
        try destruct (Z.ltb_spec (tail_ b - head_ b) N);
        case_ltb; lia.
    + intros i y Hiy.
      pose proof (lookup_lt_Some _ _ _ Hiy) as Hlt.
      specialize (Hq (S i) y Hiy).
      replace (((if head_ b + 1 <? N then head_ b + 1 else 0) + Z.of_nat i) mod N)
        with ((head_ b + Z.of_nat (S i)) mod N); [assumption |].
      destruct (Z.ltb_spec (tail_ b - head_ b) 0);
        try destruct (Z.ltb_spec (tail_ b - head_ b) N); try lia;
        destruct (Z.ltb_spec (head_ b + 1) N);
        rewrite !mod_one_lap by lia;
        case_ltb; lia.
Qed.

(** What a script leaves behind: the ring holds the items pushed and not yet
    popped, in push order. *)
Lemma run_inv (d : T) cs :
  exists q, inv k (SPSC.ring (run k d cs)) q /\
            pushed (run k d cs) = popped (run k d cs) ++ q.
Proof.
  induction cs as [| c cs IH] using rev_ind.
  - exists []. split; [apply inv_new | reflexivity].
  - destruct IH as (q & Hinv & Hlog).
    unfold run in *. rewrite foldl_snoc.
    set (l := foldl (step k) _ cs) in *.
    destruct c as [item |]; simpl.
    + pose proof (push_inv (SPSC.ring l) q item Hinv) as Hpush.
      destruct (Z.of_nat (length q) <? N - 1).
      * destruct Hpush as (b' & -> & Hinv'). simpl.
        exists (q ++ [item]). split; [assumption |].
        now rewrite Hlog, app_assoc.
      * rewrite Hpush. simpl. now exists q.
    + pose proof (pop_inv (SPSC.ring l) q Hinv) as Hpop.
      destruct q as [| x q'].
      * rewrite Hpop. simpl. now exists [].
      * destruct Hpop as (b' & -> & Hinv'). simpl.
        exists q'. split; [assumption |].
        now rewrite Hlog, <- app_assoc.
Qed.

Lemma push_all_fits items : forall (b : buf) q,
  inv k b q ->
  Z.of_nat (length q) + Z.of_nat (length items) <= N - 1 ->
  exists b', push_all k items b = (replicate (length items) true, b') /\
             inv k b' (q ++ items).
Proof.
  induction items as [| item rest IH]; intros b q Hinv Hfit.
  - exists b. now rewrite app_nil_r.
  - simpl in *.
    pose proof (push_inv b q item Hinv) as Hpush.
    destruct (Z.ltb_spec (Z.of_nat (length q)) (N - 1)); [| lia].
    destruct Hpush as (b1 & -> & Hinv1).
    destruct (IH b1 (q ++ [item]) Hinv1) as (b2 & -> & Hinv2).
    { rewrite length_app; simpl; lia. }
    exists b2. split; [reflexivity |]. now rewrite <- app_assoc in Hinv2.
Qed.

Lemma push_full (b : buf) q item :
  inv k b q -> Z.of_nat (length q) = N - 1 -> push k item b = (false, b).
Proof.
  intros Hinv Hlen. pose proof (push_inv b q item Hinv) as Hpush.
  destruct (Z.ltb_spec (Z.of_nat (length q)) (N - 1)); [lia | assumption].
Qed.

Lemma push_all_app xs ys (b : buf) :
  push_all k (xs ++ ys) b =
  let '(r1, b1) := push_all k xs b in
  let '(r2, b2) := push_all k ys b1 in
  (r1 ++ r2, b2).
Proof.
  revert b. induction xs as [| x xs IH]; intros b; simpl.
  - now destruct (push_all k ys b).
  - destruct (push k x b) as [ok b1]. rewrite IH.
    destruct (push_all k xs b1) as [r1 b2].
    now destruct (push_all k ys b2).
Qed.

(** An empty ring holds nothing. *)
Lemma inv_empty (b : buf) q : inv k b q -> empty b = true -> q = [].
Proof.
  intros (Hh & Ht & _ & Hlen & _) Hempty. pose proof SIZE_pos.
  apply Z.eqb_eq in Hempty. rewrite Hempty, Z.sub_diag, Z.mod_0_l in Hlen by lia.
  destruct q; [reflexivity | simpl in Hlen; lia].
Qed.

(** C5.  In every state a sequential client can reach, the ring holds the
    items pushed and not yet popped, [size] reports their number, and that
    number is at most [SIZE - 1]; and of [SIZE] pushes made back to back on a
    ring that is empty (a new one, or one a script has drained), the first
    [SIZE - 1] return [true] and the last returns [false]. *)
Theorem spsc_capacity :
  (forall (d : T) cs,
     size k (SPSC.ring (run k d cs))
       = Z.of_nat (length (pushed (run k d cs))) - Z.of_nat (length (popped (run k d cs)))
     /\ size k (SPSC.ring (run k d cs)) <= N - 1) /\
  (forall (d : T) cs items,
     empty (SPSC.ring (run k d cs)) = true ->
     Z.of_nat (length items) = N ->
     (push_all k items (SPSC.ring (run k d cs))).1
       = replicate (Z.to_nat (N - 1)) true ++ [false]).
Proof.
  split.
  - intros d cs. destruct (run_inv d cs) as (q & Hinv & Hlog).
    rewrite (inv_size _ _ Hinv), Hlog, length_app.
    split; [lia | exact (inv_length _ _ Hinv)].
  - intros d cs items Hempty Hlen.
    destruct (run_inv d cs) as (q & Hinv & _).
    rewrite (inv_empty _ _ Hinv Hempty) in Hinv.
    destruct items as [| item rest _] using rev_ind.
    { pose proof SIZE_pos. simpl in Hlen. lia. }
    rewrite length_app in Hlen; simpl in Hlen.
    destruct (push_all_fits rest _ [] Hinv) as (b & Hall & Hinv').
    { simpl; lia. }
    simpl in Hinv'.
    rewrite push_all_app, Hall. simpl.
    rewrite (push_full b rest item Hinv') by lia. simpl.
    do 2 f_equal. lia.
Qed.

(** C9.  First in, first out: in any sequential script of pushes and pops on
    a new ring, the [j]-th pop that returns [true] yields the item of the
    [j]-th push that returned [true]. *)
Theorem spsc_fifo (d : T) cs (j : nat) (x : T) :
  popped (run k d cs) !! j = Some x -> pushed (run k d cs) !! j = Some x.
Proof.
  intros Hj. destruct (run_inv d cs) as (q & _ & ->).
  now apply lookup_app_l_Some.
Qed.

End SPSC_facts.

Lemma spsc_capacity_witness :
  let b := SPSC.ring (SPSC.run 2 0 [SPSC.Push 1; SPSC.Push 2; SPSC.Pop; SPSC.Pop]) in
  (2 <= 63)%nat /\ SPSC.empty b = true /\
  (SPSC.push_all 2 [10; 20; 30; 40] b).1 = [true; true; true; false].
Proof.
  intros b. split; [lia |]. split; [reflexivity |].
  apply (proj2 (spsc_capacity (T := Z) 2 ltac:(lia)) 0
           [SPSC.Push 1; SPSC.Push 2; SPSC.Pop; SPSC.Pop] [10; 20; 30; 40]);
    reflexivity.
Defined.

Lemma spsc_fifo_witness :
  (2 <= 63)%nat /\
  SPSC.popped (SPSC.run 2 0 [SPSC.Push 10; SPSC.Push 20; SPSC.Pop; SPSC.Push 30; SPSC.Pop])
    !! 1%nat = Some 20 /\
  SPSC.pushed (SPSC.run 2 0 [SPSC.Push 10; SPSC.Push 20; SPSC.Pop; SPSC.Push 30; SPSC.Pop])
    !! 1%nat = Some 20.
Proof.
  split; [lia |]. split; [reflexivity |].
  apply (spsc_fifo (T := Z) 2 ltac:(lia)). reflexivity.
Defined.

(** ** The MPSC ring *)

Section MPSC_facts.
Context {T : Type}.
Variable k : nat.

Import MPSC.

(** Every slot of a constructed ring carries sequence 0. *)
Lemma new_sequence (d : T) (i : nat) e :
  buffer_ (new k d) !! i = Some e -> sequence e = 0.
Proof.
  unfold new; simpl. intros H.
  apply lookup_replicate in H as [-> _]. reflexivity.
Qed.

(** The first push on a constructed ring claims slot 0. *)
Lemma first_push fuel (d item : T) :
  push k (S fuel) item (new k d) =
  Some (true, {| head_ := 0; tail_ := 1;
                 buffer_ := <[ 0%nat := {| sequence := 1; data := item |} ]>
                              (buffer_ (new k d)) |}).
Proof.
  pose proof (pow2_pos k) as HN.
  unfold push, new; simpl. rewrite Z.land_0_l. unfold SIZE; simpl.
  rewrite lookup_replicate_2 by lia.
  reflexivity.
Qed.

(** The second push finds sequence 0 in slot 1 where it expects 1, takes the
    slot for occupied a lap ago and reports the ring full. *)
Lemma second_push_full fuel (d item : T) b :
  (1 <= k <= 63)%nat ->
  b = {| head_ := 0; tail_ := 1;
         buffer_ := <[ 0%nat := {| sequence := 1; data := item |} ]> (buffer_ (new k d)) |} ->
  forall item', push k (S fuel) item' b = Some (false, b).
Proof.
  intros Hk -> item'.
  assert (HN : 2 <= 2 ^ Z.of_nat k).
  { change 2 with (2 ^ 1) at 1. apply Z.pow_le_mono_r; lia. }
  unfold push, new; simpl. unfold SIZE.
  rewrite mask_small by lia. simpl.
  rewrite list_lookup_insert_ne by lia.
  rewrite lookup_replicate_2 by lia.
  reflexivity.
Qed.
End MPSC_facts.

(** C1 (the code departs from it).  On a newly constructed ring of capacity 4
    every slot carries sequence 0, not its index; the first push returns
    [true] and the second and third return [false], so three pushes in a row
    do not all succeed. *)
Theorem mpsc_second_push_fails :
  MPSC.sequence <$> MPSC.buffer_ (MPSC.new 2 0) = [0; 0; 0; 0] /\
  (forall fuel, exists b,
     MPSC.push_all 2 (S fuel) [10; 20; 30] (MPSC.new 2 0) = Some ([true; false; false], b)).
Proof.
  split.
  - reflexivity.
  - intros fuel. eexists. unfold MPSC.push_all.
    rewrite first_push.
    rewrite (second_push_full 2 fuel 0 10 _ ltac:(lia) eq_refl 20).
    rewrite (second_push_full 2 fuel 0 10 _ ltac:(lia) eq_refl 30).
    reflexivity.
Qed.

(** ** The slab pool *)

Section Pool_facts.
Context {T : Type}.
Variable PoolSize : nat.
Hypothesis HPoolSize : Z.of_nat PoolSize < 2 ^ 64.

Local Abbreviation pool := (Pool.MemoryPool T).

Import Pool.

Lemma wf_new : wf PoolSize (new PoolSize : pool).
Proof.
  unfold wf, new; simpl.
  rewrite !length_replicate, length_fmap, length_seq.
  repeat split; try lia.
  intros i Hi. exists i. split; [| lia].
  rewrite list_lookup_fmap, lookup_seq_lt by lia. simpl. f_equal. lia.
Qed.

(** Under [wf] no array is indexed out of bounds: [allocate] returns. *)
Lemma allocate_wf (p : pool) obj :
  wf PoolSize p ->
  exists ptr p', allocate PoolSize obj p = Some (ptr, p') /\ wf PoolSize p' /\
    match ptr with
    | Some idx => 0 <= idx < Z.of_nat PoolSize /\ free_count_ p' = free_count_ p - 1
    | None => p' = p /\ free_count_ p = 0
    end.
Proof.
  intros (Hs & Ha & Hf & Hc & Hfree). unfold allocate.
  destruct (Z.ltb_spec 0 (free_count_ p)) as [Hpos | Hzero].
  - destruct (Hfree (free_count_ p - 1)) as (idx & Hidx & Hrange); [lia |].
    rewrite Hidx.
    assert (Hin : (0 <=? idx) && (idx <? Z.of_nat PoolSize) = true).
    { apply andb_true_intro; split; [apply Z.leb_le | apply Z.ltb_lt]; lia. }
    rewrite Hin. eexists _, _. split; [reflexivity |].
    split; [| split; [assumption | reflexivity]].
    unfold wf; simpl. rewrite !length_insert.
    repeat split; try lia.
    intros i Hi. apply Hfree. lia.
  - exists None, p. split; [reflexivity |].
    split; [unfold wf; tauto |]. split; [reflexivity | lia].
Qed.

Lemma deallocate_wf (p : pool) idx :
  wf PoolSize p -> 0 <= idx < Z.of_nat PoolSize -> free_count_ p < Z.of_nat PoolSize ->
  exists p', deallocate PoolSize (Some idx) p = Some p' /\ wf PoolSize p' /\
             free_count_ p' = free_count_ p + 1.
Proof.
  intros (Hs & Ha & Hf & Hc & Hfree) Hidx Hroom. unfold deallocate.
  assert (Hin : (0 <=? idx) && (idx <? Z.of_nat PoolSize)
                && (0 <=? free_count_ p) && (free_count_ p <? Z.of_nat PoolSize) = true).
  { repeat (apply andb_true_intro; split);
      first [apply Z.leb_le | apply Z.ltb_lt]; lia. }
  rewrite Hin. eexists. split; [reflexivity |].
  rewrite wrap64_small by lia.
  split; [| reflexivity].
  unfold wf; simpl. rewrite !length_insert.
  repeat split; try lia.
  intros i Hi.
  destruct (Z.eq_dec i (free_count_ p)) as [-> | Hne].
  - exists idx. split; [| lia]. apply list_lookup_insert_eq. lia.
  - rewrite list_lookup_insert_ne by lia. apply Hfree. lia.
Qed.

Lemma allocate_all_wf objs : forall (p : pool) ptrs p',
  wf PoolSize p ->
  allocate_all PoolSize objs p = Some (ptrs, p') ->
  Forall is_Some ptrs ->
  wf PoolSize p' /\ Forall (fun ptr => owns PoolSize ptr = true) ptrs /\
  free_count_ p' = free_count_ p - Z.of_nat (length ptrs).
Proof.
  induction objs as [| obj rest IH]; intros p ptrs p' Hwf Hall Hok; simpl in Hall.
  - injection Hall as <- <-. split; [assumption |]. split; [constructor | simpl; lia].
  - destruct (allocate_wf p obj Hwf) as (ptr & p1 & Halloc & Hwf1 & Hptr).
    rewrite Halloc in Hall.
    destruct (allocate_all PoolSize rest p1) as [[ptrs1 p2] |] eqn:Hrest; [| discriminate].
    injection Hall as <- <-.
    apply Forall_cons in Hok as [[idx ->] Hok].
    destruct Hptr as [Hidx Hcount].
    destruct (IH p1 ptrs1 p2 Hwf1 Hrest Hok) as (Hwf2 & Hown & Hcount2).
    split; [assumption |]. split.
    + constructor; [| assumption]. simpl.
      apply andb_true_intro; split; [apply Z.leb_le | apply Z.ltb_lt]; lia.
    + simpl length. lia.
Qed.

Lemma deallocate_all_wf ptrs : forall (p : pool),
  wf PoolSize p ->
  Forall (fun ptr => owns PoolSize ptr = true) ptrs ->
  free_count_ p + Z.of_nat (length ptrs) <= Z.of_nat PoolSize ->
  exists p', deallocate_all PoolSize ptrs p = Some p' /\ wf PoolSize p' /\
             free_count_ p' = free_count_ p + Z.of_nat (length ptrs).
Proof.
  induction ptrs as [| ptr rest IH]; intros p Hwf Hown Hroom.
  - exists p. simpl. split; [reflexivity |]. split; [assumption | lia].
  - apply Forall_cons in Hown as [Hptr Hown]. simpl length in Hroom.
    destruct ptr as [idx |]; [| discriminate].
    simpl in Hptr. apply andb_prop in Hptr as [H0 H1].
    apply Z.leb_le in H0. apply Z.ltb_lt in H1.
    destruct (deallocate_wf p idx Hwf) as (p1 & Hd & Hwf1 & Hc1); [lia | lia |].
    destruct (IH p1 Hwf1 Hown) as (p2 & Hd2 & Hwf2 & Hc2); [lia |].
    exists p2. cbn [deallocate_all]. rewrite Hd. split; [assumption |].
    split; [assumption |]. simpl length. lia.
Qed.

Lemma pool_cycle_from (p : pool) objs ptrs p1 ptrs' :
  wf PoolSize p ->
  allocate_all PoolSize objs p = Some (ptrs, p1) ->
  Forall is_Some ptrs ->
  ptrs' ≡ₚ ptrs ->
  available p1 = available p - Z.of_nat (length objs) /\
  exists p2, deallocate_all PoolSize ptrs' p1 = Some p2 /\ available p2 = available p.
Proof.
  intros Hwf Hall Hok Hperm.
  destruct (allocate_all_wf objs p ptrs p1 Hwf Hall Hok) as (Hwf1 & Hown & Hcount).
  assert (Hlen : length ptrs = length objs).
  { clear -Hall. revert p ptrs p1 Hall.
    induction objs as [| o os IH]; intros p ptrs p1 Hall; simpl in Hall.
    - now injection Hall as <- <-.
    - destruct (allocate PoolSize o p) as [[ptr q] |]; [| discriminate].
      destruct (allocate_all PoolSize os q) as [[ps q'] |] eqn:E; [| discriminate].
      injection Hall as <- <-. simpl. f_equal. eauto. }
  split; [unfold available; lia |].
  destruct Hwf as (Hs & Ha & Hf & Hc & Hfree).
  destruct (deallocate_all_wf ptrs' p1 Hwf1) as (p2 & Hd & _ & Hc2).
  - now rewrite Hperm.
  - rewrite Hperm. lia.
  - exists p2. split; [assumption |]. unfold available. rewrite Hc2, Hperm. lia.
Qed.

End Pool_facts.

(** C8.  On any well-formed pool, [k] allocations that all return a pointer
    lower [available()] by [k], and deallocating the [k] pointers, in any
    order, brings [available()] back to its value before the allocations.  In
    particular a pool of capacity 100 reports 100, then 50 after fifty
    allocations, then 100 again after the fifty deallocations. *)
Theorem pool_cycle :
  (forall (T : Type) (PoolSize : nat) (p : Pool.MemoryPool T) objs ptrs p1 ptrs',
     Z.of_nat PoolSize < 2 ^ 64 ->
     Pool.wf PoolSize p ->
     Pool.allocate_all PoolSize objs p = Some (ptrs, p1) ->
     Forall is_Some ptrs ->
     ptrs' ≡ₚ ptrs ->
     Pool.available p1 = Pool.available p - Z.of_nat (length objs) /\
     exists p2, Pool.deallocate_all PoolSize ptrs' p1 = Some p2 /\
                Pool.available p2 = Pool.available p) /\
  (Pool.available (Pool.new 100 : Pool.MemoryPool Z) = 100 /\
   exists ptrs p1 p2,
     Pool.allocate_all 100 Pool.fifty (Pool.new 100) = Some (ptrs, p1) /\
     Forall is_Some ptrs /\
     Pool.available p1 = 50 /\
     Pool.deallocate_all 100 ptrs p1 = Some p2 /\
     Pool.available p2 = 100).
Proof.
  split.
  - intros T PoolSize p objs ptrs p1 ptrs' Hsize. now apply pool_cycle_from.
  - split; [reflexivity |].
    destruct (Pool.allocate_all 100 Pool.fifty (Pool.new 100)) as [[ptrs p1] |] eqn:Hall;
      [| vm_compute in Hall; discriminate].
    assert (Hok : Forall is_Some ptrs).
    { vm_compute in Hall. injection Hall as <- _.
      repeat (constructor; [eexists; reflexivity |]). constructor. }
    destruct (pool_cycle_from 100 ltac:(lia) (Pool.new 100) Pool.fifty ptrs p1 ptrs
                (wf_new 100) Hall Hok (reflexivity _)) as (Hav & p2 & Hd & Hav2).
    exists ptrs, p1, p2. repeat split; assumption.
Qed.

Lemma pool_cycle_witness :
  let p : Pool.MemoryPool Z := Pool.new 4 in
  let p1 := Pool.mk [None; None; Some 8; Some 7] [false; false; true; true] 2 [0; 1; 2; 3] in
  Pool.wf 4 p /\
  Pool.allocate_all 4 [7; 8] p = Some ([Some 3; Some 2], p1) /\
  exists p2, Pool.deallocate_all 4 [Some 2; Some 3] p1 = Some p2 /\
             Pool.available p2 = Pool.available p.
Proof.
  intros p p1.
  assert (Hwf : Pool.wf 4 p).
  { unfold Pool.wf; simpl. repeat split; try lia.
    intros i Hi.
    assert (Hcases : i = 0 \/ i = 1 \/ i = 2 \/ i = 3) by lia.
    destruct Hcases as [-> | [-> | [-> | ->]]]; eexists; (split; [reflexivity | lia]). }
  split; [exact Hwf |]. split; [reflexivity |].
  apply (proj1 pool_cycle Z 4%nat p [7; 8] [Some 3; Some 2] p1 [Some 2; Some 3]).
  - lia.
  - exact Hwf.
  - reflexivity.
  - repeat constructor; eexists; reflexivity.
  - apply perm_swap.
Defined.

(** ** The symbol table *)

Section StrMap_facts.
Import StrMap.

Lemma byte_eqb_true (a b : char) : Byte.eqb a b = true <-> a = b.
Proof. split; [apply Byte.byte_dec_bl | apply Byte.byte_dec_lb]. Qed.

(** [strcmp] compares the C strings the two byte sequences denote. *)
Lemma strcmp_eq_c_str (a b : list char) :
  strcmp_eq a b = true <-> c_str a = c_str b.
Proof.
  revert b. induction a as [| c1 a IH]; intros [| c2 b]; simpl.
  - tauto.
  - destruct (is_nul c2); split; congruence.
  - destruct (is_nul c1); split; congruence.
  - destruct (Byte.eqb c1 c2) eqn:E.
    + apply byte_eqb_true in E as <-.
      destruct (is_nul c1); [tauto |].
      rewrite IH. split; [congruence | now intros [=]].
    + assert (c1 <> c2) by (intros ->; rewrite (proj2 (byte_eqb_true c2 c2) eq_refl) in E; discriminate).
      destruct (is_nul c1) eqn:E1, (is_nul c2) eqn:E2; split; try congruence.
      apply byte_eqb_true in E1, E2. congruence.
Qed.

(** A key of at most [n] bytes survives [strncpy] into a buffer whose byte
    [n] is NUL. *)
Lemma c_str_strncpy n : forall (dst src : list char),
  (strlen src <= n)%nat -> dst !! n = Some NUL ->
  c_str (strncpy dst src n) = c_str src.
Proof.
  induction n as [| n IH]; intros dst src Hlen Hnul.
  - destruct dst as [| d0 dst]; [discriminate |].
    injection Hnul as ->. simpl.
    unfold strlen in Hlen. destruct (c_str src); [reflexivity | simpl in Hlen; lia].
  - destruct dst as [| d0 dst]; [discriminate |]. simpl in Hnul.
    destruct src as [| c src]; simpl; [reflexivity |].
    unfold strlen in Hlen. simpl in Hlen.
    destruct (is_nul c) eqn:E; simpl; [reflexivity |].
    rewrite E. f_equal. apply IH; [| assumption].
    unfold strlen. simpl in Hlen. lia.
Qed.

Lemma length_strncpy n : forall (dst src : list char),
  length (strncpy dst src n) = length dst.
Proof.
  induction n as [| n IH]; intros [| d0 dst] src; simpl; try reflexivity.
  destruct src as [| c src]; [| destruct (is_nul c)]; simpl; now rewrite IH.
Qed.

Lemma strncpy_beyond n : forall (dst src : list char) (i : nat),
  (n <= i)%nat -> strncpy dst src n !! i = dst !! i.
Proof.
  induction n as [| n IH]; intros [| d0 dst] src i Hi; simpl; try reflexivity.
  destruct i as [| i]; [lia |].
  destruct src as [| c src]; [| destruct (is_nul c)]; simpl; apply IH; lia.
Qed.

Context {V : Type}.
Variable Capacity : Z.
Variable char_signed : bool.

Local Abbreviation table := (list (Entry V)).

Lemma tag_not_empty k : tag char_signed k <> EMPTY.
Proof.
  unfold tag, EMPTY, TOMBSTONE.
  destruct (Z.eqb_spec (hash_string char_signed k) 0); simpl; [lia |].
  destruct (Z.eqb_spec (hash_string char_signed k) 1); lia.
Qed.

Lemma table_ok_new (v0 : V) : table_ok (new Capacity v0).
Proof.
  unfold table_ok, new. apply Forall_replicate. split; reflexivity.
Qed.

(** What a successful probe of [insert] did, and that [find], walking the same
    chain over the new table, stops at the slot [insert] wrote. *)
Lemma insert_loop_find n : forall idx h k v (es es' : table),
  h <> EMPTY ->
  table_ok es ->
  (strlen k <= 15)%nat ->
  insert_loop Capacity n idx h k v es = (true, es') ->
  exists (j : nat) e0 e1,
    es !! j = Some e0 /\
    (hash e0 =? EMPTY) || ((hash e0 =? h) && strcmp_eq (key e0) k) = true /\
    es' = <[ j := e1 ]> es /\
    hash e1 <> EMPTY /\
    (hash e1 =? h) && strcmp_eq (key e1) k = true /\
    value e1 = v /\ key_ok e1 /\
    exists slot, find_loop Capacity n idx h k es' = Some slot /\ Z.to_nat slot = j.
Proof.
  induction n as [| n IH]; intros idx h k v es es' Hh Hok Hlen Hins; cbn [insert_loop] in Hins.
  - discriminate.
  - destruct (es !! Z.to_nat idx) as [e |] eqn:He; [| discriminate].
    pose proof (lookup_lt_Some _ _ _ He) as Hin.
    pose proof (proj1 (Forall_lookup _ _) Hok _ _ He) as [Hklen Hk15].
    destruct (Z.eqb_spec (hash e) EMPTY) as [Hempty | Hused].
    + injection Hins as <-.
      assert (Hkey : strcmp_eq (strncpy (key e) k 15) k = true).
      { apply strcmp_eq_c_str. apply c_str_strncpy; assumption. }
      eexists (Z.to_nat idx), e, _.
      split; [exact He |].
      split; [rewrite Hempty; reflexivity |].
      split; [reflexivity |]. cbn [hash key value].
      split; [assumption |].
      split; [rewrite Z.eqb_refl, Hkey; reflexivity |].
      split; [reflexivity |].
      split.
      { split; cbn [key]; [now rewrite length_strncpy |].
        rewrite strncpy_beyond by lia. assumption. }
      exists idx. split; [| reflexivity].
      cbn [find_loop]. rewrite list_lookup_insert_eq by assumption. cbn [hash key value].
      destruct (Z.eqb_spec h EMPTY); [contradiction |].
      now rewrite Z.eqb_refl, Hkey.
    + destruct ((hash e =? h) && strcmp_eq (key e) k) eqn:Hmatch.
      * injection Hins as <-.
        eexists (Z.to_nat idx), e, _.
        split; [exact He |].
        split; [rewrite Hmatch; apply orb_true_r |].
        split; [reflexivity |]. cbn [hash key value].
        split; [assumption |].
        split; [assumption |].
        split; [reflexivity |].
        split; [split; assumption |].
        exists idx. split; [| reflexivity].
        cbn [find_loop]. rewrite list_lookup_insert_eq by assumption. cbn [hash key value].
        destruct (Z.eqb_spec (hash e) EMPTY); [contradiction |].
        now rewrite Hmatch.
      * destruct (IH _ h k v es es' Hh Hok Hlen Hins)
          as (j & e0 & e1 & He0 & Hacc & -> & Hne & Hm & Hv & Hk1 & slot & Hfind & Hslot).
        exists j, e0, e1. repeat (split; [assumption || reflexivity |]).
        exists slot. split; [| assumption].
        assert (Hj : Z.to_nat idx <> j).
        { intros <-. rewrite He in He0. injection He0 as <-.
          rewrite Hmatch, orb_false_r in Hacc.
          apply Z.eqb_eq in Hacc. contradiction. }
        cbn [find_loop]. rewrite list_lookup_insert_ne by congruence. rewrite He.
        destruct (Z.eqb_spec (hash e) EMPTY); [contradiction |].
        now rewrite Hmatch.
Qed.

(** [insert] keeps the layout, whatever the key and whatever it returns. *)
Lemma insert_loop_table_ok n : forall idx h k v (es : table),
  table_ok es -> table_ok (insert_loop Capacity n idx h k v es).2.
Proof.
  induction n as [| n IH]; intros idx h k v es Hok; cbn [insert_loop]; [assumption |].
  destruct (es !! Z.to_nat idx) as [e |] eqn:He; [| assumption].
  pose proof (proj1 (Forall_lookup _ _) Hok _ _ He) as [Hklen Hk15].
  destruct (hash e =? EMPTY).
  - apply Forall_insert; [assumption |].
    split; cbn [key]; [now rewrite length_strncpy |].
    now rewrite strncpy_beyond by (unfold MAX_KEY_LEN; lia).
  - destruct ((hash e =? h) && strcmp_eq (key e) k).
    + apply Forall_insert; [assumption |]. split; assumption.
    + now apply IH.
Qed.

Lemma insert_table_ok (es : table) k v :
  table_ok es -> table_ok (insert Capacity char_signed k v es).2.
Proof. apply insert_loop_table_ok. Qed.

Lemma insert_then_find (es es' : table) k v :
  table_ok es ->
  (strlen k <= 15)%nat ->
  insert Capacity char_signed k v es = (true, es') ->
  table_ok es' /\
  exists slot, find Capacity char_signed k es' = Some slot /\ deref es' slot = Some v.
Proof.
  intros Hok Hlen Hins. unfold insert in Hins.
  destruct (insert_loop_find _ _ _ _ _ _ _ (tag_not_empty k) Hok Hlen Hins)
    as (j & e0 & e1 & He0 & _ & -> & _ & _ & Hv & Hk1 & slot & Hfind & Hslot).
  pose proof (lookup_lt_Some _ _ _ He0) as Hj.
  split.
  - unfold table_ok. apply Forall_insert; assumption.
  - exists slot. split; [exact Hfind |].
    unfold deref. rewrite Hslot, list_lookup_insert_eq by assumption.
    simpl. now rewrite Hv.
Qed.

End StrMap_facts.

(** C3 (as stated, for every string key).  A 16-character key is stored
    truncated to 15 characters: [insert] returns [true], and [find] on the
    same key then returns [nullptr]. *)
Lemma strmap_long_key_not_found :
  let K := replicate 16 "A"%byte in
  let r := StrMap.insert 256 true K 7 (StrMap.new 256 0) in
  r.1 = true /\ StrMap.find 256 true K r.2 = None.
Proof. vm_compute. split; reflexivity. Qed.

(** C3 (amended).  On a table laid out as the constructor and [insert] leave
    it, for every key of at most 15 characters: once [insert(K, V)] has
    returned [true], [find(K)] returns a pointer to a slot of the table, and
    the value read through it is [V]. *)
Theorem strmap_insert_find (V : Type) (Capacity : Z) (char_signed : bool)
  (es es' : list (StrMap.Entry V)) (K : list StrMap.char) (v : V) :
  StrMap.table_ok es ->
  (StrMap.strlen K <= 15)%nat ->
  StrMap.insert Capacity char_signed K v es = (true, es') ->
  exists slot, StrMap.find Capacity char_signed K es' = Some slot /\
               StrMap.deref es' slot = Some v.
Proof.
  intros Hok Hlen Hins.
  now destruct (insert_then_find Capacity char_signed es es' K v Hok Hlen Hins).
Qed.

Lemma strmap_insert_find_witness :
  let K := ["A"; "A"; "P"; "L"]%byte in
  let r := StrMap.insert 256 true K 150 (StrMap.new 256 0) in
  StrMap.table_ok (StrMap.new 256 0) /\
  (StrMap.strlen K <= 15)%nat /\
  r.1 = true /\
  exists slot, StrMap.find 256 true K r.2 = Some slot /\ StrMap.deref r.2 slot = Some 150.
Proof.
  intros K r.
  split; [apply table_ok_new |].
  split; [unfold K; vm_compute; lia |].
  split; [vm_compute; reflexivity |].
  apply (strmap_insert_find Z 256 true (StrMap.new 256 0) r.2 K 150).
  - apply table_ok_new.
  - unfold K; vm_compute; lia.
  - vm_compute; reflexivity.
Defined.

(** ** Binary64 arithmetic

    Facts about [double] operators, proved from the IEEE specification the
    kernel's floats come with. *)

Lemma round_aux_opp prec emax s m e l :
  binary_round_aux prec emax (negb s) m e l = SFopp (binary_round_aux prec emax s m e l).
Proof.
  unfold binary_round_aux.
  destruct (shr_fexp prec emax m e l) as [mrs' e'].
  destruct (shr_fexp prec emax _ e' loc_Exact) as [mrs'' e''].
  destruct (shr_m mrs''); try reflexivity.
  destruct (Z.leb e'' (emax - prec)); reflexivity.
Qed.

Lemma SFmul_comm prec emax x y : SFmul prec emax x y = SFmul prec emax y x.
Proof.
  destruct x as [sx | sx | | sx mx ex], y as [sy | sy | | sy my ey]; simpl;
    rewrite ?(xorb_comm sx sy); try reflexivity.
  now rewrite Pos.mul_comm, Z.add_comm.
Qed.

Lemma SFmul_opp_l prec emax x y :
  SFmul prec emax (SFopp x) y = SFopp (SFmul prec emax x y).
Proof.
  destruct x as [sx | sx | | sx mx ex], y as [sy | sy | | sy my ey]; simpl;
    rewrite <- ?negb_xorb_l; try reflexivity.
  apply round_aux_opp.
Qed.

Lemma SFdiv_opp_l prec emax x y :
  SFdiv prec emax (SFopp x) y = SFopp (SFdiv prec emax x y).
Proof.
  destruct x as [sx | sx | | sx mx ex], y as [sy | sy | | sy my ey]; simpl;
    rewrite <- ?negb_xorb_l; try reflexivity.
  destruct (SFdiv_core_binary prec emax (Z.pos mx) ex (Z.pos my) ey) as [[mz ez] lz].
  apply round_aux_opp.
Qed.

Lemma SFadd_opp_r prec emax x y : SFadd prec emax x (SFopp y) = SFsub prec emax x y.
Proof.
  destruct x as [sx | sx | | sx mx ex], y as [sy | sy | | sy my ey]; simpl;
    try reflexivity; destruct sx, sy; reflexivity.
Qed.

Lemma float_mul_comm (x y : float) : (x * y = y * x)%float.
Proof. apply Prim2SF_inj. rewrite !mul_spec. apply SFmul_comm. Qed.

Lemma float_opp_mul_l (x y : float) : (- x * y = - (x * y))%float.
Proof. apply Prim2SF_inj. rewrite opp_spec, !mul_spec, opp_spec. apply SFmul_opp_l. Qed.

Lemma float_opp_div_l (x y : float) : (- x / y = - (x / y))%float.
Proof. apply Prim2SF_inj. rewrite opp_spec, !div_spec, opp_spec. apply SFdiv_opp_l. Qed.

Lemma float_add_opp_r (x y : float) : (x + - y = x - y)%float.
Proof. apply Prim2SF_inj. rewrite add_spec, sub_spec, opp_spec. apply SFadd_opp_r. Qed.

(** [x <= 0] excludes [0 < x] (and so does an unordered [x]). *)
Lemma float_leb_zero_not_pos (x : float) :
  (x <=? 0)%float = true -> (0 <? x)%float = false.
Proof.
  rewrite leb_spec, ltb_spec.
  change (Prim2SF 0) with (S754_zero false).
  destruct (Prim2SF x) as [s | s | | s m e]; try destruct s; cbn; congruence.
Qed.

(** ** The order book *)

Section Book_facts.
Import Book.

Lemma side_ok_new : side_ok new_side.
Proof.
  unfold side_ok, new_side; cbn [levels depth sequence].
  split; [now rewrite length_replicate |].
  split; [now apply Forall_replicate |].
  unfold MAX_DEPTH; lia.
Qed.

Lemma side_ok_update (side : Book) level p q :
  side_ok side -> 0 <= level < MAX_DEPTH -> side_ok (update_level side level p q).
Proof.
  intros (Hlen & Hcount & Hdepth & Hseq) Hlevel.
  unfold side_ok, update_level, MAX_DEPTH in *; cbn [levels depth sequence].
  split; [now rewrite length_alter |].
  split.
  - apply Forall_alter; [assumption |]. intros pl _ Hpl. exact Hpl.
  - split.
    + destruct (Z.leb_spec (depth side) level); [rewrite wrap32_small |]; lia.
    + unfold wrap64. apply Z.mod_pos_bound. lia.
Qed.

Lemma reachable_ok b : reachable b -> side_ok (bids_ b) /\ side_ok (asks_ b).
Proof.
  induction 1 as [symbol | b level p q _ [IHb IHa] Hl | b level p q _ [IHb IHa] Hl].
  - split; apply side_ok_new.
  - unfold update_bid. destruct (Z.leb_spec MAX_DEPTH level); simpl; [tauto |].
    split; [apply side_ok_update; [assumption | lia] | assumption].
  - unfold update_ask. destruct (Z.leb_spec MAX_DEPTH level); simpl; [tauto |].
    split; [assumption | apply side_ok_update; [assumption | lia]].
Qed.

(** One in-range update of a ladder, as a snapshot then shows it. *)
Lemma update_level_spec (side : Book) level p q :
  side_ok side -> 0 <= level < MAX_DEPTH ->
  sequence (update_level side level p q) = wrap64 (sequence side + 1) /\
  (sequence side + 1 < 2 ^ 64 ->
   sequence (update_level side level p q) = sequence side + 1) /\
  level + 1 <= depth (update_level side level p q) <= MAX_DEPTH /\
  take (Z.to_nat MAX_DEPTH) (levels (update_level side level p q)) !! Z.to_nat level
    = Some {| price := p; quantity := q; order_count := 0 |}.
Proof.
  intros (Hlen & Hcount & Hdepth & Hseq) Hlevel.
  unfold update_level, MAX_DEPTH in *; cbn [levels depth sequence].
  split; [reflexivity |].
  split; [intros Hs; apply wrap64_small; lia |].
  split.
  - destruct (Z.leb_spec (depth side) level); [rewrite wrap32_small |]; lia.
  - rewrite lookup_take_lt by lia.
    destruct (lookup_lt_is_Some_2 (levels side) (Z.to_nat level)) as [pl Hpl]; [lia |].
    rewrite list_lookup_alter, Hpl. simpl. rewrite decide_True by reflexivity.
    now rewrite (proj1 (Forall_lookup _ _) Hcount _ _ Hpl).
Qed.


(** C4 (as stated, for every level index).  Level 10 is outside the ladder:
    the update is dropped, and the snapshot that follows shows the sequence
    and the depth where they were. *)
Lemma book_update_level_10_dropped :
  let b := new [] in
  let s := get_snapshot 0 (update_bid 10 1 1 b) in
  ~ (bid_sequence s >= sequence (bids_ b) + 1) /\
  ~ (bid_depth s >= 10 + 1) /\
  bids s !! 10%nat = None.
Proof. vm_compute. repeat split; congruence. Qed.

(** C4 (amended).  For a book that was constructed and then updated, and a
    level [L] below [MAX_DEPTH]: after [update_bid(L, P, Q)] the snapshot shows
    the bid sequence advanced by one (modulo [2^64], so it is at least the
    prior sequence plus one unless the counter wraps), a bid depth of at least
    [L + 1], and bid level [L] equal to [(P, Q, 0)]; likewise for
    [update_ask] and the ask side. *)
Theorem book_update_snapshot (b : OrderBook) (L : Z) (P Q : float) (now : Z) :
  reachable b -> 0 <= L < MAX_DEPTH ->
  (let s := get_snapshot now (update_bid L P Q b) in
   bid_sequence s = wrap64 (sequence (bids_ b) + 1) /\
   (sequence (bids_ b) + 1 < 2 ^ 64 -> bid_sequence s >= sequence (bids_ b) + 1) /\
   bid_depth s >= L + 1 /\
   bids s !! Z.to_nat L = Some {| price := P; quantity := Q; order_count := 0 |}) /\
  (let s := get_snapshot now (update_ask L P Q b) in
   ask_sequence s = wrap64 (sequence (asks_ b) + 1) /\
   (sequence (asks_ b) + 1 < 2 ^ 64 -> ask_sequence s >= sequence (asks_ b) + 1) /\
   ask_depth s >= L + 1 /\
   asks s !! Z.to_nat L = Some {| price := P; quantity := Q; order_count := 0 |}).
Proof.
  intros Hreach HL. destruct (reachable_ok b Hreach) as [Hbids Hasks].
  unfold update_bid, update_ask.
  destruct (Z.leb_spec MAX_DEPTH L) as [Hout | _]; [lia |].
  unfold get_snapshot; cbn [bids asks bid_depth ask_depth bid_sequence ask_sequence
                            bids_ asks_].
  split.
  - destruct (update_level_spec (bids_ b) L P Q Hbids HL) as (Hs & Hs' & Hd & Hl).
    repeat split; try assumption; [intros Hno; rewrite (Hs' Hno) |]; lia.
  - destruct (update_level_spec (asks_ b) L P Q Hasks HL) as (Hs & Hs' & Hd & Hl).
    repeat split; try assumption; [intros Hno; rewrite (Hs' Hno) |]; lia.
Qed.

(** C6 (as stated).  With no ask level the best ask is the largest finite
    double, which is not [+∞]. *)
Lemma snapshot_empty_ask_not_infinity :
  let s := get_snapshot 0 (new []) in
  ask_depth s = 0 /\ best_ask s <> infinity.
Proof.
  split; [reflexivity |].
  intros H. apply (f_equal (fun x => (x =? infinity)%float)) in H.
  vm_compute in H. discriminate.
Qed.

(** C6 (amended).  For every snapshot: with [bid_depth == 0] the best bid is
    0; with [ask_depth == 0] the best ask is [numeric_limits<double>::max()],
    a finite value below [+∞]. *)
Theorem snapshot_best_of_empty_side (s : Snapshot) :
  (bid_depth s = 0 -> best_bid s = 0%float) /\
  (ask_depth s = 0 -> best_ask s = DBL_MAX /\ (best_ask s <? infinity)%float = true).
Proof.
  unfold best_bid, best_ask. split.
  - intros ->. reflexivity.
  - intros ->. split; reflexivity.
Qed.

(** C10.  [spread_bps] returns 0 whenever the mid price is at most 0, and more
    generally whenever [0 < mid] does not hold, so the quotient by [mid] is
    formed only for a positive [mid]; the snapshot of a newly constructed book
    has mid [DBL_MAX / 2] and a spread of 20000 basis points. *)
Theorem spread_bps_guarded :
  (forall s, (mid_price s <=? 0)%float = true -> spread_bps s = 0%float) /\
  (forall s, (0 <? mid_price s)%float = false -> spread_bps s = 0%float) /\
  (forall now symbol,
     let s := get_snapshot now (new symbol) in
     mid_price s = (DBL_MAX / 2)%float /\ spread_bps s = 20000%float).
Proof.
  split; [| split].
  - intros s Hmid. unfold spread_bps.
    now rewrite (float_leb_zero_not_pos _ Hmid).
  - intros s Hmid. unfold spread_bps. now rewrite Hmid.
  - intros now symbol. split; reflexivity.
Qed.

End Book_facts.

Lemma book_update_snapshot_witness :
  let b := Book.update_ask 0 100.01 400 (Book.new []) in
  let s := Book.get_snapshot 7 (Book.update_bid 1 99.99 300 b) in
  Book.reachable b /\ 0 <= 1 < Book.MAX_DEPTH /\
  Book.bid_sequence s >= Book.sequence (Book.bids_ b) + 1 /\
  Book.bid_depth s >= 1 + 1 /\
  Book.bids s !! 1%nat
    = Some {| Book.price := 99.99; Book.quantity := 300; Book.order_count := 0 |}.
Proof.
  intros b s.
  assert (Hb : Book.reachable b).
  { apply Book.reach_ask; [apply Book.reach_new | lia]. }
  assert (HL : 0 <= 1 < Book.MAX_DEPTH) by (unfold Book.MAX_DEPTH; lia).
  destruct (book_update_snapshot b 1 99.99 300 7 Hb HL) as [(_ & Hseq & Hdepth & Hlevel) _].
  split; [exact Hb |]. split; [exact HL |].
  split; [apply Hseq; vm_compute; reflexivity |].
  split; assumption.
Defined.

Lemma snapshot_best_of_empty_side_witness :
  let s := Book.get_snapshot 7 (Book.new []) in
  Book.bid_depth s = 0 /\ Book.ask_depth s = 0 /\
  Book.best_bid s = 0%float /\ Book.best_ask s = Book.DBL_MAX.
Proof.
  intros s. destruct (snapshot_best_of_empty_side s) as [Hbid Hask].
  split; [reflexivity |]. split; [reflexivity |].
  split; [apply Hbid; reflexivity | apply Hask; reflexivity].
Defined.

Lemma spread_bps_guarded_witness :
  let s := Book.get_snapshot 7 (Book.update_ask 0 (-4) 400 (Book.new [])) in
  ((Book.mid_price s <=? 0)%float = true /\ Book.spread_bps s = 0%float) /\
  ((0 <? Book.mid_price s)%float = false /\ Book.spread_bps s = 0%float).
Proof.
  intros s. destruct spread_bps_guarded as (Hle & Hnot & _).
  split; (split; [reflexivity |]).
  - apply (Hle s). reflexivity.
  - apply (Hnot s). reflexivity.
Defined.

(** ** The risk-gated submitter *)

Section Risk_facts.
Import Wire Risk.

(** The rate limiter touches neither the limits nor position and notional. *)
Lemma check_rate_limit_frame now_ns m :
  let m1 := (check_rate_limit now_ns m).2 in
  limits_ m1 = limits_ m /\ position_ m1 = position_ m /\ notional_ m1 = notional_ m.
Proof.
  unfold check_rate_limit, update_rate_limiter.
  destruct (ONE_SECOND_NS <? _); cbn [limits_ orders_this_second_];
    destruct (_ <=? _); cbn; repeat split.
Qed.

(** With a positive rate limit, a rate rejection means the second had not
    rolled over, and then nothing was written. *)
Lemma check_rate_limit_reject now_ns m m1 :
  check_rate_limit now_ns m = (false, m1) ->
  m1 = update_rate_limiter now_ns m /\
  (0 < max_orders_per_second (limits_ m) -> m1 = m).
Proof.
  unfold check_rate_limit.
  destruct (_ <=? _) eqn:Hfull; [| discriminate].
  intros [= <-]. split; [reflexivity |].
  intros Hpos. unfold update_rate_limiter in *.
  destruct (ONE_SECOND_NS <? _); [| reflexivity].
  cbn in Hfull. apply Z.leb_le in Hfull. lia.
Qed.

(** C2 (as stated).  An order that passes the size, position and rate checks
    and fails the notional check is rejected after the rate limiter has
    counted it and, the second having changed, restamped itself. *)
Lemma risk_notional_rejection_counts :
  let order := {| symbol := []; order_id := 1; side := BUY; type := LIMIT;
                  price := 1000000; quantity := 100; timestamp := 0 |} in
  let r := submit_order 5000000000 (fun _ => true) order Risk.new in
  r.1 = Rejected NOTIONAL_LIMIT /\
  orders_this_second_ Risk.new = 0 /\ orders_this_second_ r.2 = 1 /\
  last_second_timestamp_ Risk.new = 0 /\ last_second_timestamp_ r.2 = 5000000000.
Proof. vm_compute. repeat split. Qed.

(** C2 (amended).  Every rejected [submit_order] leaves the limits, the
    position and the cumulative notional unchanged.  Rejected by the size or
    the position check, it leaves the whole state unchanged.  Rejected by the
    rate check, it leaves the state as [update_rate_limiter] left it, which is
    unchanged when [max_orders_per_second] is positive.  Rejected by the
    notional check, it leaves the state as the passed rate check left it: the
    counter one higher, after the reset if the second had changed. *)
Theorem risk_rejection_state now_ns send_order order m why m' :
  submit_order now_ns send_order order m = (Rejected why, m') ->
  limits_ m' = limits_ m /\ position_ m' = position_ m /\ notional_ m' = notional_ m /\
  match why with
  | ORDER_SIZE | POSITION_LIMIT => m' = m
  | RATE_LIMIT =>
      m' = update_rate_limiter now_ns m /\
      (0 < max_orders_per_second (limits_ m) -> m' = m)
  | NOTIONAL_LIMIT =>
      m' = (check_rate_limit now_ns m).2 /\
      orders_this_second_ m'
        = wrap32 (orders_this_second_ (update_rate_limiter now_ns m) + 1) /\
      last_second_timestamp_ m' = last_second_timestamp_ (update_rate_limiter now_ns m)
  end.
Proof.
  unfold submit_order.
  destruct (check_order_size m (quantity order)); cbn [negb];
    [| intros [= <- <-]; repeat split].
  destruct (check_position_limit m (side order) (quantity order)); cbn [negb];
    [| intros [= <- <-]; repeat split].
  pose proof (check_rate_limit_frame now_ns m) as Hframe.
  destruct (check_rate_limit now_ns m) as [ok m1] eqn:Hrate. cbn [snd] in Hframe.
  destruct Hframe as (Hl & Hp & Hn).
  destruct ok; cbn [negb].
  - destruct (check_notional_limit m1 (price order) (quantity order)); cbn [negb].
    + destruct (send_order order); discriminate.
    + intros [= <- <-]. repeat (split; [assumption |]).
      split; [reflexivity |].
      unfold check_rate_limit in Hrate.
      destruct (_ <=? _); [discriminate |].
      injection Hrate as <-. split; reflexivity.
  - intros [= <- <-]. repeat (split; [assumption |]).
    now apply check_rate_limit_reject.
Qed.

End Risk_facts.

Lemma risk_rejection_state_witness :
  let order := {| Wire.symbol := []; Wire.order_id := 1; Wire.side := Wire.SELL;
                  Wire.type := Wire.LIMIT; Wire.price := 50; Wire.quantity := 1001;
                  Wire.timestamp := 0 |} in
  let r := Risk.submit_order 5000000000 (fun _ => true) order Risk.new in
  r.1 = Risk.Rejected Risk.ORDER_SIZE /\ r.2 = Risk.new.
Proof.
  intros order r. split; [reflexivity |].
  apply (risk_rejection_state 5000000000 (fun _ => true) order Risk.new
           Risk.ORDER_SIZE r.2).
  reflexivity.
Defined.

(** ** The market-making quotes *)

Section MM_facts.
Import Wire MM.

Lemma calculate_fair_value_formula params mid position :
  calculate_fair_value params mid position
  = (mid * (1 - position / max_position params * skew_factor params))%float.
Proof.
  unfold calculate_fair_value.
  now rewrite float_opp_div_l, float_opp_mul_l, float_add_opp_r.
Qed.

Lemma bid_price_formula params fair :
  bid_price params fair
  = (fair - fair * spread_target params / 2 - fair * edge params)%float.
Proof. unfold bid_price. now rewrite (float_mul_comm (edge params)). Qed.

Lemma ask_price_formula params fair :
  ask_price params fair
  = (fair + fair * spread_target params / 2 + fair * edge params)%float.
Proof. unfold ask_price. now rewrite (float_mul_comm (edge params)). Qed.

(** C7 (as stated, at its concrete scenario).  With the default parameters,
    a flat position and a book at 99.96875 / 100.03125, whose mid is exactly
    100 and whose spread of 6.25 bps does not exceed the 10 bps at which
    [should_requote] stops the strategy from quoting, the two quotes go out
    at prices that are not the doubles [99.98] and [100.02]. *)
Lemma mm_scenario_prices_inexact :
  Book.mid_price snapshot_mid_100 = 100%float /\
  Book.spread_bps snapshot_mid_100 = 6.25%float /\
  (10 <? Book.spread_bps snapshot_mid_100)%float = false /\
  exists bid_order ask_order s',
    update_quotes 1 2 3 snapshot_mid_100 (MM.new default_params)
      = ([bid_order; ask_order], s') /\
    side bid_order = BUY /\ price bid_order <> 99.98%float /\
    side ask_order = SELL /\ price ask_order <> 100.02%float.
Proof.
  split; [reflexivity |]. split; [reflexivity |]. split; [reflexivity |].
  eexists _, _, _. split; [vm_compute; reflexivity |].
  cbn [side price].
  split; [reflexivity |]. split.
  { intros H. apply (f_equal (fun x => (x =? 99.98)%float)) in H.
    vm_compute in H. discriminate. }
  split; [reflexivity |].
  intros H. apply (f_equal (fun x => (x =? 100.02)%float)) in H.
  vm_compute in H. discriminate.
Qed.

(** C7 (amended).  Every order [update_quotes] sends was computed from a mid
    above 0 and a position within the limit, and carries, with each operator
    the rounded binary64 one, the bid price [fair - fair * spread_target / 2 -
    fair * edge] or the ask price [fair + fair * spread_target / 2 + fair *
    edge], where [fair = mid * (1 - position / max_position * skew_factor)].
    With the default parameters, position 0 and mid 100 the prices sent are
    99.97999999999999 and 100.02000000000001, the doubles next below 99.98 and
    next above 100.02. *)
Theorem mm_quote_prices :
  (forall t_bid t_ask t_done snapshot s orders s' o,
     update_quotes t_bid t_ask t_done snapshot s = (orders, s') ->
     o ∈ orders ->
     let mid := Book.mid_price snapshot in
     let p := position_ s in
     let params := params_ s in
     let fair := (mid * (1 - p / max_position params * skew_factor params))%float in
     (mid <=? 0)%float = false /\
     (max_position params <=? abs p)%float = false /\
     match side o with
     | BUY => price o
              = (fair - fair * spread_target params / 2 - fair * edge params)%float
     | SELL => price o
               = (fair + fair * spread_target params / 2 + fair * edge params)%float
     end) /\
  (forall t_bid t_ask t_done snapshot,
     Book.mid_price snapshot = 100%float ->
     (fun o => (side o, price o))
       <$> (update_quotes t_bid t_ask t_done snapshot (MM.new default_params)).1
     = [(BUY, 99.97999999999999%float); (SELL, 100.02000000000001%float)]) /\
  next_up 99.97999999999999 = 99.98%float /\
  next_down 100.02000000000001 = 100.02%float.
Proof.
  split; [| split; [| split; reflexivity]].
  - intros t_bid t_ask t_done snapshot s orders s' o Hq Ho. cbv zeta.
    unfold update_quotes in Hq.
    destruct (Book.mid_price snapshot <=? 0)%float eqn:Hmid.
    { injection Hq as <- _. now apply elem_of_nil in Ho. }
    destruct (max_position (params_ s) <=? abs (position_ s))%float eqn:Hpos.
    { injection Hq as <- _. now apply elem_of_nil in Ho. }
    injection Hq as <- _.
    split; [reflexivity |]. split; [reflexivity |].
    rewrite <- calculate_fair_value_formula.
    apply elem_of_app in Ho as [Ho | Ho].
    + destruct (_ <? _)%float in Ho; [| now apply elem_of_nil in Ho].
      apply list_elem_of_singleton in Ho as ->. cbn [side price].
      apply bid_price_formula.
    + destruct (_ <? _)%float in Ho; [| now apply elem_of_nil in Ho].
      apply list_elem_of_singleton in Ho as ->. cbn [side price].
      apply ask_price_formula.
  - intros t_bid t_ask t_done snapshot Hmid.
    unfold update_quotes. rewrite Hmid. reflexivity.
Qed.

End MM_facts.

Lemma mm_quote_prices_witness :
  let r := MM.update_quotes 1 2 3 MM.snapshot_mid_100 (MM.new MM.default_params) in
  Book.mid_price MM.snapshot_mid_100 = 100%float /\
  (10 <? Book.spread_bps MM.snapshot_mid_100)%float = false /\
  (fun o => (Wire.side o, Wire.price o)) <$> r.1
    = [(Wire.BUY, 99.97999999999999%float); (Wire.SELL, 100.02000000000001%float)] /\
  exists o, o ∈ r.1 /\ Wire.side o = Wire.BUY /\
    Wire.price o = (100 * (1 - 0 / 1000 * 0.5) - 100 * (1 - 0 / 1000 * 0.5) * 0.0002 / 2
                    - 100 * (1 - 0 / 1000 * 0.5) * 0.0001)%float.
Proof.
  intros r. destruct mm_quote_prices as (Hgen & Hscn & _).
  split; [reflexivity |]. split; [reflexivity |].
  split; [apply (Hscn 1 2 3 MM.snapshot_mid_100); reflexivity |].
  exists {| Wire.symbol := MM.SYMBOL; Wire.order_id := 1; Wire.side := Wire.BUY;
            Wire.type := Wire.LIMIT; Wire.price := 99.97999999999999;
            Wire.quantity := 100; Wire.timestamp := 1 |}.
  assert (Hin : {| Wire.symbol := MM.SYMBOL; Wire.order_id := 1; Wire.side := Wire.BUY;
                   Wire.type := Wire.LIMIT; Wire.price := 99.97999999999999;
                   Wire.quantity := 100; Wire.timestamp := 1 |} ∈ r.1).
  { vm_compute. apply list_elem_of_here. }
  split; [exact Hin |]. split; [reflexivity |].
  exact (proj2 (proj2 (Hgen 1 2 3 MM.snapshot_mid_100 (MM.new MM.default_params)
                         r.1 r.2 _ eq_refl Hin))).
Defined.

(** ** The repository's own test scenarios, replayed on the model *)

(** [test_circular_buffer]: ten pushes into a ring of 16, size 10, ten pops in
    push order, then empty. *)
Example test_circular_buffer :
  let items := Z.of_nat <$> seq 0 10 in
  let l := SPSC.run 4 0 ((SPSC.Push <$> items) ++ replicate 10 SPSC.Pop) in
  SPSC.size 4 (SPSC.ring (SPSC.run 4 0 (SPSC.Push <$> items))) = 10 /\
  SPSC.pushed l = items /\ SPSC.popped l = items /\ SPSC.empty (SPSC.ring l) = true.
Proof. vm_compute. repeat split. Qed.

(** [test_hashmap_strings]: three symbols stored and found, a fourth not
    found. *)
Example test_hashmap_strings :
  let m0 := StrMap.new 256 0 in
  let m1 := (StrMap.insert 256 true ["A"; "A"; "P"; "L"]%byte 150 m0).2 in
  let m2 := (StrMap.insert 256 true ["M"; "S"; "F"; "T"]%byte 300 m1).2 in
  let m3 := (StrMap.insert 256 true ["G"; "O"; "O"; "G"; "L"]%byte 2800 m2).2 in
  let lookup k := StrMap.find 256 true k m3 ≫= StrMap.deref m3 in
  lookup ["A"; "A"; "P"; "L"]%byte = Some 150 /\
  lookup ["M"; "S"; "F"; "T"]%byte = Some 300 /\
  lookup ["G"; "O"; "O"; "G"; "L"]%byte = Some 2800 /\
  lookup ["T"; "S"; "L"; "A"]%byte = None.
Proof. vm_compute. repeat split. Qed.

(** [test_order_book_basic], the assertions on top of book, mid and depths. *)
Example test_order_book_basic :
  let book := Book.update_ask 1 100.02 200 (Book.update_ask 0 100.01 400
                (Book.update_bid 1 99.99 300 (Book.update_bid 0 100.00 500
                   (Book.new ["T"; "E"; "S"; "T"]%byte)))) in
  let snapshot := Book.get_snapshot 0 book in
  Book.best_bid snapshot = 100.00%float /\ Book.best_ask snapshot = 100.01%float /\
  Book.mid_price snapshot = 100.005%float /\
  Book.bid_depth snapshot = 2 /\ Book.ask_depth snapshot = 2.
Proof. vm_compute. repeat split. Qed.
(** ** More on the SPSC ring *)

Section SPSC_more.
Context {T : Type}.
Variable k : nat.
Hypothesis Hk : (k <= 63)%nat.

Local Abbreviation N := (SPSC.SIZE k).

Import SPSC.

(** X1.  In every state a sequential client can reach, [push] returns [true]
    exactly when [size()] is below [SIZE - 1]; a push that returns [true]
    raises [size()] by one, and one that returns [false] leaves the ring as
    it was. *)
Theorem spsc_push_iff_room (d : T) cs item :
  let b := SPSC.ring (run k d cs) in
  ((push k item b).1 = true <-> size k b < N - 1) /\
  ((push k item b).1 = true -> size k (push k item b).2 = size k b + 1) /\
  ((push k item b).1 = false -> (push k item b).2 = b).
Proof.
  intros b. destruct (run_inv k Hk d cs) as (q & Hinv & _). fold b in Hinv.
  pose proof (push_inv k Hk b q item Hinv) as Hpush.
  rewrite (inv_size k Hk b q Hinv).
  destruct (Z.ltb_spec (Z.of_nat (length q)) (N - 1)) as [Hroom | Hfull].
  - destruct Hpush as (b' & -> & Hinv'). cbn [fst snd].
    rewrite (inv_size k Hk b' _ Hinv'), length_app. simpl.
    repeat split; intros; try lia; try discriminate.
  - rewrite Hpush. cbn [fst snd].
    repeat split; intros; try lia; try discriminate.
Qed.

(** X2.  In every state a sequential client can reach, [pop] returns [false]
    exactly when [empty()] holds, which is exactly when [size()] is 0; a pop
    that returns [false] leaves the ring as it was, and one that returns an
    item lowers [size()] by one. *)
Theorem spsc_pop_iff_nonempty (d : T) cs :
  let b := SPSC.ring (run k d cs) in
  ((pop k b).1 = None <-> empty b = true) /\
  (empty b = true <-> size k b = 0) /\
  ((pop k b).1 = None -> (pop k b).2 = b) /\
  (forall x, (pop k b).1 = Some x -> size k (pop k b).2 = size k b - 1).
Proof.
  intros b. destruct (run_inv k Hk d cs) as (q & Hinv & _). fold b in Hinv.
  pose proof (pop_inv k Hk b q Hinv) as Hpop.
  rewrite (inv_size k Hk b q Hinv).
  assert (Hempty : empty b = true <-> q = []).
  { split; [apply (inv_empty k Hk b q Hinv) |].
    intros ->. destruct Hinv as (Hh & Ht & _ & Hlen & _).
    pose proof (pow2_pos k) as HN. fold (SIZE k) in HN.
    simpl in Hlen. symmetry in Hlen. rewrite mod_one_lap in Hlen by lia.
    unfold empty. apply Z.eqb_eq.
    destruct (Z.ltb_spec (tail_ b - head_ b) 0);
      try destruct (Z.ltb_spec (tail_ b - head_ b) N); lia. }
  destruct q as [| x q'].
  - rewrite Hpop. cbn [fst snd]. simpl.
    repeat split; intros; try tauto; try discriminate; try apply Hempty; reflexivity.
  - destruct Hpop as (b' & -> & Hinv'). cbn [fst snd].
    rewrite (inv_size k Hk b' _ Hinv'). simpl length.
    repeat split; intros; try discriminate; try lia.
    + apply Hempty in H. discriminate.
    + apply Hempty in H. discriminate.
Qed.

End SPSC_more.

Lemma spsc_push_iff_room_witness :
  let b := SPSC.ring (SPSC.run 2 0 [SPSC.Push 1; SPSC.Push 2; SPSC.Push 3]) in
  (2 <= 63)%nat /\ (SPSC.push 2 4 b).1 = false /\ (SPSC.push 2 4 b).2 = b.
Proof.
  intros b. split; [lia |]. split; [reflexivity |].
  apply (spsc_push_iff_room (T := Z) 2 ltac:(lia) 0 [SPSC.Push 1; SPSC.Push 2; SPSC.Push 3] 4).
  reflexivity.
Defined.

Lemma spsc_pop_iff_nonempty_witness :
  let b := SPSC.ring (SPSC.run 2 0 [SPSC.Push 1; SPSC.Push 2; SPSC.Pop]) in
  (2 <= 63)%nat /\ (SPSC.pop 2 b).1 = Some 2 /\
  SPSC.size 2 (SPSC.pop 2 b).2 = SPSC.size 2 b - 1.
Proof.
  intros b. split; [lia |]. split; [reflexivity |].
  apply (spsc_pop_iff_nonempty (T := Z) 2 ltac:(lia) 0 [SPSC.Push 1; SPSC.Push 2; SPSC.Pop]) with (x := 2).
  reflexivity.
Defined.

(** ** More on the MPSC ring *)

Section MPSC_more.
Context {T : Type}.
Variable k : nat.
Hypothesis Hk : (1 <= k <= 63)%nat.

Import MPSC.

Local Abbreviation buf := (MPSCCircularBuffer T).

Lemma SIZE_bounds : 2 <= SIZE k <= 2 ^ 63.
Proof.
  unfold SIZE. split.
  - change 2 with (2 ^ 1) at 1. apply Z.pow_le_mono_r; lia.
  - apply Z.pow_le_mono_r; lia.
Qed.

Lemma pop_fresh fuel (d : T) (b : buf) :
  fresh k d b -> pop k (S fuel) b = Some (None, b).
Proof.
  intros ->. pose proof SIZE_bounds as HN.
  unfold pop, new; simpl. rewrite Z.land_0_l. simpl.
  rewrite lookup_replicate_2 by lia. reflexivity.
Qed.

Lemma push_fresh (d item : T) (b : buf) :
  fresh k d b ->
  exists b', (forall fuel, push k (S fuel) item b = Some (true, b')) /\ loaded k d item b'.
Proof.
  intros ->. eexists. split; [intros fuel; apply first_push | reflexivity].
Qed.

Lemma push_loaded fuel (d x item : T) (b : buf) :
  loaded k d x b -> push k (S fuel) item b = Some (false, b).
Proof. intros Hb. exact (second_push_full k fuel d x b Hk Hb item). Qed.

Lemma pop_loaded (d x : T) (b : buf) :
  loaded k d x b ->
  exists b', (forall fuel, pop k (S fuel) b = Some (Some x, b')) /\ spent k d x b'.
Proof.
  intros ->. pose proof SIZE_bounds as HN.
  eexists. split; [intros fuel | reflexivity].
  unfold pop, new; simpl. rewrite Z.land_0_l. simpl.
  rewrite list_lookup_insert_eq by (rewrite length_replicate; lia).
  simpl. rewrite list_insert_insert_eq. reflexivity.
Qed.

Lemma slot_1 : Z.to_nat (Z.land 1 (SIZE k - 1)) = 1%nat.
Proof.
  pose proof SIZE_bounds as HN. unfold SIZE in *.
  rewrite mask_small by lia. reflexivity.
Qed.

Lemma push_spent fuel (d x item : T) (b : buf) :
  spent k d x b -> push k (S fuel) item b = Some (false, b).
Proof.
  intros ->. pose proof SIZE_bounds as HN.
  unfold push, new; cbn [push_loop tail_ head_ buffer_]. rewrite slot_1.
  rewrite list_lookup_insert_ne by lia.
  rewrite lookup_replicate_2 by lia. reflexivity.
Qed.

Lemma pop_spent fuel (d x : T) (b : buf) :
  spent k d x b -> pop k (S fuel) b = Some (None, b).
Proof.
  intros ->. pose proof SIZE_bounds as HN.
  unfold pop, new; cbn [pop_loop tail_ head_ buffer_]. rewrite slot_1.
  rewrite list_lookup_insert_ne by lia.
  rewrite lookup_replicate_2 by lia. reflexivity.
Qed.

Lemma step_phase (d : T) (l : log T) c :
  phase k d l -> exists l', (forall fuel, step k (S fuel) l c = Some l') /\ phase k d l'.
Proof.
  intros [(Hb & Hpu & Hpo) | [(x & Hb & Hpu & Hpo) | (x & Hb & Hpu & Hpo)]];
    destruct c as [item |]; unfold step.
  - destruct (push_fresh d item _ Hb) as (b' & Hpush & Hb').
    eexists; split; [intros fuel; rewrite Hpush; reflexivity |]. right; left. exists item.
    cbn. rewrite Hpu, Hpo. auto.
  - eexists; split; [intros fuel; rewrite (pop_fresh fuel d _ Hb); reflexivity |].
    left. cbn. auto.
  - eexists; split; [intros fuel; rewrite (push_loaded fuel d x item _ Hb); reflexivity |].
    right; left. exists x. cbn. auto.
  - destruct (pop_loaded d x _ Hb) as (b' & Hpop & Hb').
    eexists; split; [intros fuel; rewrite Hpop; reflexivity |]. right; right. exists x.
    cbn. rewrite Hpu, Hpo. auto.
  - eexists; split; [intros fuel; rewrite (push_spent fuel d x item _ Hb); reflexivity |].
    right; right. exists x. cbn. auto.
  - eexists; split; [intros fuel; rewrite (pop_spent fuel d x _ Hb); reflexivity |].
    right; right. exists x. cbn. auto.
Qed.

Lemma run_from_phase (d : T) cs : forall l,
  phase k d l -> exists l', (forall fuel, run_from k (S fuel) l cs = Some l') /\ phase k d l'.
Proof.
  induction cs as [| c cs IH]; intros l Hl; simpl.
  - eauto.
  - destruct (step_phase d l c Hl) as (l1 & Hstep & Hl1).
    destruct (IH l1 Hl1) as (l2 & Hrun & Hl2).
    exists l2. split; [| assumption]. intros fuel. now rewrite Hstep.
Qed.

Lemma run_phase (d : T) cs :
  exists l, (forall fuel, run k (S fuel) d cs = Some l) /\ phase k d l.
Proof.
  apply run_from_phase. left. repeat split.
Qed.

(** A call that returns in its first iteration when no exchange fails returns
    the same after [n] spurious failures, one iteration later for each. *)
Lemma push_loop_weak_returns (n : nat) : forall (fuel : nat) tail (item : T) (b : buf) r,
  push_loop k 1 tail item b = Some r ->
  (n < fuel)%nat ->
  push_loop_weak k fuel n tail item b = Some r.
Proof.
  induction n as [| n IH]; intros [| fuel] tail item b r Hone Hfuel; try lia;
    pose proof Hone as Hkeep;
    cbn [push_loop] in Hone; cbn [push_loop_weak];
    (destruct (buffer_ b !! Z.to_nat (Z.land tail (SIZE k - 1))) as [e |]; [| discriminate]);
    (destruct (signed_diff (sequence e) tail =? 0);
     [| destruct (signed_diff (sequence e) tail <? 0); [exact Hone | discriminate]]);
    (destruct (Z.eqb_spec (tail_ b) tail) as [Heq | Hne]; [| discriminate]).
  - exact Hone.
  - rewrite Heq. apply IH; [exact Hkeep | lia].
Qed.

Lemma pop_loop_weak_returns (n : nat) : forall (fuel : nat) head (b : buf) r,
  pop_loop k 1 head b = Some r ->
  (n < fuel)%nat ->
  pop_loop_weak k fuel n head b = Some r.
Proof.
  induction n as [| n IH]; intros [| fuel] head b r Hone Hfuel; try lia;
    pose proof Hone as Hkeep;
    cbn [pop_loop] in Hone; cbn [pop_loop_weak];
    (destruct (buffer_ b !! Z.to_nat (Z.land head (SIZE k - 1))) as [e |]; [| discriminate]);
    (destruct (signed_diff (sequence e) (wrap64 (head + 1)) =? 0);
     [| destruct (signed_diff (sequence e) (wrap64 (head + 1)) <? 0);
        [exact Hone | discriminate]]);
    (destruct (Z.eqb_spec (head_ b) head) as [Heq | Hne]; [| discriminate]).
  - exact Hone.
  - rewrite Heq. apply IH; [exact Hkeep | lia].
Qed.

Lemma step_weak_returns (fuel : nat) (l l' : log T) (c : call T * nat) :
  step k 1 l c.1 = Some l' ->
  (c.2 < fuel)%nat ->
  step_weak k fuel l c = Some l'.
Proof.
  destruct c as [[item |] n]; cbn [fst snd]; unfold step, step_weak; cbn [fst snd];
    intros Hone Hfuel.
  - unfold push, push_weak in *.
    destruct (push_loop k 1 (tail_ (ring l)) item (ring l)) as [r |] eqn:Hr; [| discriminate].
    now rewrite (push_loop_weak_returns n fuel _ _ _ r Hr Hfuel).
  - unfold pop, pop_weak in *.
    destruct (pop_loop k 1 (head_ (ring l)) (ring l)) as [r |] eqn:Hr; [| discriminate].
    now rewrite (pop_loop_weak_returns n fuel _ _ r Hr Hfuel).
Qed.

Lemma run_from_weak_returns (fuel : nat) cs : forall (l l' : log T),
  run_from k 1 l (fst <$> cs) = Some l' ->
  Forall (fun c => (c.2 < fuel)%nat) cs ->
  run_from_weak k fuel l cs = Some l'.
Proof.
  induction cs as [| c cs IH]; intros l l' Hone Hfuel; [exact Hone |].
  cbn [fmap list_fmap run_from] in Hone. cbn [run_from_weak].
  apply Forall_cons in Hfuel as [Hc Hcs].
  destruct (step k 1 l c.1) as [l1 |] eqn:Hstep; [| discriminate].
  rewrite (step_weak_returns fuel l l1 c Hstep Hc). now apply IH.
Qed.

(** X3.  In a single-threaded run on a newly constructed ring of capacity 2
    to [2^63], the only retries are spurious failures of
    [compare_exchange_weak]: a call that meets [n] of them returns within
    [n + 1] iterations of its loop, and the results and the ring are those of
    the run in which no exchange fails.  The retry branches are never taken,
    so no call hangs. *)
Theorem mpsc_calls_return (d : T) (cs : list (call T * nat)) :
  exists l,
    run k 1 d (fst <$> cs) = Some l /\
    forall fuel, Forall (fun c => (c.2 < fuel)%nat) cs -> run_weak k fuel d cs = Some l.
Proof.
  destruct (run_phase d (fst <$> cs)) as (l & Hl & _).
  exists l. split; [apply (Hl 0%nat) |].
  intros fuel Hfuel. unfold run_weak.
  apply run_from_weak_returns; [| exact Hfuel]. exact (Hl 0%nat).
Qed.

(** X4.  Over a whole sequential run on a newly constructed ring of capacity
    2 to [2^63], at most one [push] returns [true]; the only item a [pop] can
    return is that one, once. *)
Theorem mpsc_single_item (d : T) cs l :
  run k 1 d cs = Some l ->
  (length (pushed l) <= 1)%nat /\ popped l `prefix_of` pushed l.
Proof.
  intros Hrun. destruct (run_phase d cs) as (l' & Hl & Hphase).
  rewrite Hl in Hrun. injection Hrun as <-.
  destruct Hphase as [(_ & -> & ->) | [(x & _ & -> & ->) | (x & _ & -> & ->)]]; simpl.
  - split; [lia | reflexivity].
  - split; [lia | apply prefix_nil].
  - split; [lia | reflexivity].
Qed.

End MPSC_more.

Lemma mpsc_calls_return_witness :
  let cs := [(MPSC.Push 10, 3%nat); (MPSC.Push 20, 0%nat); (MPSC.Pop, 2%nat);
             (MPSC.Pop, 1%nat); (MPSC.Push 30, 0%nat)] in
  let l := {| MPSC.pushed := [10]; MPSC.popped := [10];
              MPSC.ring := MPSC.mk 1 1 [MPSC.mkEntry 4 10; MPSC.mkEntry 0 0;
                                         MPSC.mkEntry 0 0; MPSC.mkEntry 0 0] |} in
  (1 <= 2 <= 63)%nat /\
  MPSC.run 2 1 0 (fst <$> cs) = Some l /\
  MPSC.run_weak 2 4 0 cs = Some l.
Proof.
  intros cs l. assert (Hk : (1 <= 2 <= 63)%nat) by lia.
  destruct (mpsc_calls_return 2 Hk 0 cs) as (l' & Hrun & Hweak).
  assert (Hl : MPSC.run 2 1 0 (fst <$> cs) = Some l) by reflexivity.
  rewrite Hl in Hrun. injection Hrun as <-.
  split; [exact Hk |]. split; [exact Hl |].
  apply Hweak. repeat (apply Forall_cons; split; [cbn; lia |]). constructor.
Defined.

Lemma mpsc_single_item_witness :
  let l := {| MPSC.pushed := [10]; MPSC.popped := [10];
              MPSC.ring := MPSC.mk 1 1 [MPSC.mkEntry 4 10; MPSC.mkEntry 0 0;
                                         MPSC.mkEntry 0 0; MPSC.mkEntry 0 0] |} in
  (1 <= 2 <= 63)%nat /\
  MPSC.run 2 1 0 [MPSC.Push 10; MPSC.Push 20; MPSC.Pop; MPSC.Pop; MPSC.Push 30] = Some l /\
  (length (MPSC.pushed l) <= 1)%nat /\ MPSC.popped l `prefix_of` MPSC.pushed l.
Proof.
  intros l. split; [lia |]. split; [reflexivity |].
  apply (mpsc_single_item 2 ltac:(lia) 0
           [MPSC.Push 10; MPSC.Push 20; MPSC.Pop; MPSC.Pop; MPSC.Push 30]).
  reflexivity.
Defined.

(** ** More on the slab pool *)

Section Pool_more.
Context {T : Type}.
Variable PoolSize : nat.
Hypothesis HPoolSize : Z.of_nat PoolSize < 2 ^ 64.

Local Abbreviation pool := (Pool.MemoryPool T).

Import Pool.

(** X5.  On a well-formed pool [allocate] returns a pointer exactly when
    [available()] is positive: the pointer is owned by the pool, its slot is
    flagged allocated and holds the constructed object, and [available()]
    drops by one.  When [available()] is 0 it returns [nullptr] and leaves the
    pool as it was. *)
Theorem pool_allocate_iff_available (p : pool) obj :
  wf PoolSize p ->
  if 0 <? available p
  then exists idx p',
         allocate PoolSize obj p = Some (Some idx, p') /\
         owns PoolSize (Some idx) = true /\
         available p' = available p - 1 /\
         storage_ p' !! Z.to_nat idx = Some (Some obj) /\
         allocated_ p' !! Z.to_nat idx = Some true
  else allocate PoolSize obj p = Some (None, p).
Proof.
  intros Hwf. pose proof Hwf as (Hs & Ha & Hf & Hc & Hfree).
  unfold available, allocate.
  destruct (Z.ltb_spec 0 (free_count_ p)) as [Hpos | Hzero]; [| reflexivity].
  destruct (Hfree (free_count_ p - 1)) as (idx & Hidx & Hrange); [lia |].
  rewrite Hidx.
  assert (Hin : (0 <=? idx) && (idx <? Z.of_nat PoolSize) = true).
  { apply andb_true_intro; split; [apply Z.leb_le | apply Z.ltb_lt]; lia. }
  rewrite Hin. eexists _, _. split; [reflexivity |].
  cbn [owns storage_ allocated_ free_count_].
  split; [exact Hin |]. split; [reflexivity |].
  split; apply list_lookup_insert_eq; lia.
Qed.

Lemma free_slots_snoc (p : pool) idx :
  wf PoolSize p -> 0 < free_count_ p ->
  free_list_ p !! Z.to_nat (free_count_ p - 1) = Some idx ->
  free_slots p = take (Z.to_nat (free_count_ p - 1)) (free_list_ p) ++ [idx].
Proof.
  intros (_ & _ & Hf & Hc & _) Hpos Hidx. unfold free_slots.
  replace (Z.to_nat (free_count_ p)) with (S (Z.to_nat (free_count_ p - 1))) by lia.
  now apply take_S_r.
Qed.

(** What [k] allocations in a row hand out: the top [k] free slots, top
    first; the objects sit in them. *)
Lemma allocate_all_slots objs : forall (p : pool) ptrs p1,
  stack_ok PoolSize p ->
  allocate_all PoolSize objs p = Some (ptrs, p1) ->
  Forall is_Some ptrs ->
  exists idxs,
    ptrs = Some <$> idxs /\
    free_slots p = free_slots p1 ++ reverse idxs /\
    stack_ok PoolSize p1 /\
    (forall i, 0 <= i -> i ∉ idxs ->
       storage_ p1 !! Z.to_nat i = storage_ p !! Z.to_nat i) /\
    Forall2 (fun idx obj => storage_ p1 !! Z.to_nat idx = Some (Some obj)) idxs objs.
Proof.
  induction objs as [| obj rest IH]; intros p ptrs p1 [Hwf Hnd] Hall Hok; simpl in Hall.
  - injection Hall as <- <-. exists []. rewrite app_nil_r.
    split; [reflexivity |]. split; [reflexivity |]. split; [split; assumption |].
    split; [reflexivity | constructor].
  - destruct (allocate PoolSize obj p) as [[ptr p'] |] eqn:Halloc; [| discriminate].
    destruct (allocate_all PoolSize rest p') as [[ptrs1 p2] |] eqn:Hrest; [| discriminate].
    injection Hall as <- <-.
    apply Forall_cons in Hok as [[idx ->] Hok].
    pose proof Hwf as (Hs & Ha & Hf & Hc & Hfree).
    unfold allocate in Halloc.
    destruct (Z.ltb_spec 0 (free_count_ p)) as [Hpos | Hzero]; [| discriminate].
    destruct (free_list_ p !! Z.to_nat (free_count_ p - 1)) as [idx' |] eqn:Hidx;
      [| discriminate].
    destruct ((0 <=? idx') && (idx' <? Z.of_nat PoolSize)) eqn:Hin; [| discriminate].
    injection Halloc as -> <-.
    apply andb_prop in Hin as [H0 H1]. apply Z.leb_le in H0. apply Z.ltb_lt in H1.
    pose proof (free_slots_snoc p idx Hwf Hpos Hidx) as Hsnoc.
    set (p' := {| storage_ := <[Z.to_nat idx:=Some obj]> (storage_ p);
                  allocated_ := <[Z.to_nat idx:=true]> (allocated_ p);
                  free_count_ := free_count_ p - 1;
                  free_list_ := free_list_ p |}) in *.
    assert (Hfs' : free_slots p' = take (Z.to_nat (free_count_ p - 1)) (free_list_ p))
      by reflexivity.
    assert (Hok' : stack_ok PoolSize p').
    { split.
      - unfold wf, p'; cbn [storage_ allocated_ free_count_ free_list_].
        rewrite !length_insert. repeat split; try lia.
        intros i Hi. apply Hfree. lia.
      - rewrite Hfs'. rewrite Hsnoc in Hnd. now apply NoDup_app in Hnd as (? & _ & _). }
    destruct (IH p' ptrs1 p2 Hok' Hrest Hok) as (idxs & -> & Hfs & Hok2 & Hframe & Hobjs).
    assert (Hfresh : idx ∉ idxs).
    { intros Hmem. rewrite Hsnoc, <- Hfs', Hfs in Hnd.
      apply NoDup_app in Hnd as (_ & Hdisj & _).
      apply (Hdisj idx); [| apply list_elem_of_singleton; reflexivity].
      apply elem_of_app. right. now apply elem_of_reverse. }
    exists (idx :: idxs). split; [reflexivity |].
    split; [| split; [assumption | split]].
    + rewrite Hsnoc, <- Hfs', Hfs, reverse_cons. now rewrite app_assoc.
    + intros i Hi0 Hi. apply not_elem_of_cons in Hi as [Hne Hi].
      rewrite (Hframe i Hi0 Hi). unfold p'; cbn [storage_].
      apply list_lookup_insert_ne. lia.
    + constructor; [| assumption].
      rewrite (Hframe idx H0 Hfresh). unfold p'; cbn [storage_].
      apply list_lookup_insert_eq. lia.
Qed.

Lemma stack_ok_new : stack_ok PoolSize (new PoolSize : pool).
Proof.
  split; [apply wf_new |].
  unfold free_slots, new; cbn [free_count_ free_list_].
  rewrite Nat2Z.id, take_ge by (rewrite length_fmap, length_seq; lia).
  apply NoDup_fmap_2; [intros a b; lia | apply NoDup_seq].
Qed.

(** Freeing a slot that is not already free keeps the stack duplicate-free. *)
Lemma deallocate_stack_ok (p : pool) idx :
  stack_ok PoolSize p -> 0 <= idx < Z.of_nat PoolSize -> idx ∉ free_slots p ->
  free_count_ p < Z.of_nat PoolSize ->
  exists p', deallocate PoolSize (Some idx) p = Some p' /\ stack_ok PoolSize p'.
Proof.
  intros [Hwf Hnd] Hidx Hfresh Hroom.
  destruct (deallocate_wf PoolSize HPoolSize p idx Hwf Hidx Hroom) as (p' & Hd & Hwf' & Hc').
  exists p'. split; [assumption |]. split; [assumption |].
  pose proof Hwf as (Hs & Ha & Hf & Hc & Hfree).
  unfold deallocate in Hd.
  destruct ((0 <=? idx) && (idx <? Z.of_nat PoolSize) && (0 <=? free_count_ p)
            && (free_count_ p <? Z.of_nat PoolSize)); [| discriminate].
  injection Hd as <-. unfold free_slots; cbn [free_count_ free_list_].
  rewrite wrap64_small by lia.
  replace (Z.to_nat (free_count_ p + 1)) with (S (Z.to_nat (free_count_ p))) by lia.
  rewrite (take_S_r _ _ idx) by (apply list_lookup_insert_eq; lia).
  rewrite take_insert_ge by lia.
  apply NoDup_app. split; [exact Hnd |]. split; [| apply NoDup_singleton].
  intros x Hx Hx'. apply list_elem_of_singleton in Hx' as ->. contradiction.
Qed.

(** X6.  On a pool whose free stack lists no slot twice (as after
    construction, and after any deallocation of a slot that was not already
    free), [k] allocations in a row that all succeed return [k] pairwise
    distinct pointers, and afterwards each slot still holds the object that
    was constructed in it. *)
Theorem pool_allocations_distinct (p : pool) objs ptrs p1 :
  stack_ok PoolSize p ->
  allocate_all PoolSize objs p = Some (ptrs, p1) ->
  Forall is_Some ptrs ->
  NoDup ptrs /\
  Forall2 (fun ptr obj => exists idx, ptr = Some idx /\
                                      storage_ p1 !! Z.to_nat idx = Some (Some obj))
          ptrs objs.
Proof.
  intros Hok Hall Hsome.
  destruct (allocate_all_slots objs p ptrs p1 Hok Hall Hsome)
    as (idxs & -> & Hfs & _ & _ & Hobjs).
  split.
  - apply NoDup_fmap_2; [intros a b [=]; assumption |].
    destruct Hok as [_ Hnd]. rewrite Hfs in Hnd.
    apply NoDup_app in Hnd as (_ & _ & Hnd). now rewrite reverse_Permutation in Hnd.
  - apply Forall2_fmap_l. eapply Forall2_impl; [exact Hobjs |].
    intros idx obj H. eauto.
Qed.

(** X7.  The free list is a stack: after [deallocate(ptr)] the next
    [allocate] returns that same pointer, and [available()] is back where it
    was. *)
Theorem pool_lifo_reuse (p : pool) idx obj :
  wf PoolSize p -> 0 <= idx < Z.of_nat PoolSize -> free_count_ p < Z.of_nat PoolSize ->
  exists p1 p2,
    deallocate PoolSize (Some idx) p = Some p1 /\
    allocate PoolSize obj p1 = Some (Some idx, p2) /\
    available p2 = available p.
Proof.
  intros Hwf Hidx Hroom. pose proof Hwf as (Hs & Ha & Hf & Hc & Hfree).
  unfold deallocate.
  assert (Hin : (0 <=? idx) && (idx <? Z.of_nat PoolSize) = true).
  { apply andb_true_intro; split; [apply Z.leb_le | apply Z.ltb_lt]; lia. }
  rewrite Hin. cbn [andb].
  assert (Hc' : (0 <=? free_count_ p) && (free_count_ p <? Z.of_nat PoolSize) = true).
  { apply andb_true_intro; split; [apply Z.leb_le | apply Z.ltb_lt]; lia. }
  rewrite Hc'. eexists _, _. split; [reflexivity |].
  unfold allocate, available; cbn [free_count_ free_list_ storage_ allocated_].
  rewrite wrap64_small by lia.
  destruct (Z.ltb_spec 0 (free_count_ p + 1)); [| lia].
  replace (free_count_ p + 1 - 1) with (free_count_ p) by lia.
  rewrite list_lookup_insert_eq by lia. rewrite Hin.
  split; [reflexivity | reflexivity].
Qed.


End Pool_more.

Lemma pool_allocate_iff_available_witness :
  let p : Pool.MemoryPool Z := Pool.new 2 in
  Pool.wf 2 p /\
  exists idx p', Pool.allocate 2 7 p = Some (Some idx, p') /\ Pool.available p' = 1.
Proof.
  intros p.
  assert (Hwf : Pool.wf 2 p) by (apply (wf_new 2)).
  split; [exact Hwf |].
  pose proof (pool_allocate_iff_available 2 p 7 Hwf) as H.
  change (0 <? Pool.available p) with true in H.
  destruct H as (idx & p' & Halloc & _ & Hav & _).
  exists idx, p'. split; [exact Halloc | exact Hav].
Defined.

Lemma pool_allocations_distinct_witness :
  let p : Pool.MemoryPool Z := Pool.new 4 in
  exists ptrs p1,
    Pool.allocate_all 4 [7; 8; 9] p = Some (ptrs, p1) /\ Forall is_Some ptrs /\ NoDup ptrs.
Proof.
  intros p.
  exists [Some 3; Some 2; Some 1],
         (Pool.mk [None; Some 9; Some 8; Some 7] [false; true; true; true] 1 [0; 1; 2; 3]).
  assert (Hsome : Forall is_Some [Some 3; Some 2; Some 1 : option Z])
    by (repeat constructor; eexists; reflexivity).
  split; [reflexivity |]. split; [exact Hsome |].
  apply (pool_allocations_distinct 4 p [7; 8; 9] _ _ (stack_ok_new 4) eq_refl Hsome).
Defined.

Lemma pool_lifo_reuse_witness :
  let p := Pool.mk [None; Some 9; Some 8; Some 7] [false; true; true; true] 1 [0; 1; 2; 3] in
  exists p1 p2,
    Pool.deallocate 4 (Some 2) p = Some p1 /\
    Pool.allocate 4 5 p1 = Some (Some 2, p2) /\
    Pool.available p2 = Pool.available p.
Proof.
  intros p. assert (Hsize : Z.of_nat 4 < 2 ^ 64) by lia.
  apply (pool_lifo_reuse 4 Hsize p 2 5).
  - unfold Pool.wf; simpl. repeat split; try lia.
    intros i Hi. assert (i = 0) as -> by lia. eexists; split; [reflexivity | lia].
  - lia.
  - simpl; lia.
Defined.


(** ** More on the symbol table *)

Section StrMap_more.
Import StrMap.
Context {V : Type}.
Variable Capacity : Z.
Variable char_signed : bool.

Local Abbreviation table := (list (Entry V)).

(** What a hit of [find] says about the slot. *)
Lemma find_loop_Some n : forall idx h k (es : table) s,
  find_loop Capacity n idx h k es = Some s ->
  exists e, es !! Z.to_nat s = Some e /\ hash e <> EMPTY /\
            hash e = h /\ strcmp_eq (key e) k = true.
Proof.
  induction n as [| n IH]; intros idx h k es s Hfind; cbn [find_loop] in Hfind;
    [discriminate |].
  destruct (es !! Z.to_nat idx) as [e |] eqn:He; [| discriminate].
  destruct (Z.eqb_spec (hash e) EMPTY) as [| Hused]; [discriminate |].
  destruct ((hash e =? h) && strcmp_eq (key e) k) eqn:Hmatch.
  - injection Hfind as <-. apply andb_prop in Hmatch as [Hh Hk].
    apply Z.eqb_eq in Hh. eauto.
  - eauto.
Qed.

(** What [insert] does to the table: nothing when it returns [false]; else
    one slot is written, either claimed from EMPTY or updated in place. *)
Lemma insert_loop_shape n : forall idx h k v (es es' : table) ok,
  insert_loop Capacity n idx h k v es = (ok, es') ->
  if ok then
    exists (j : nat) e0,
      es !! j = Some e0 /\
      ((hash e0 = EMPTY /\
        es' = <[ j := {| hash := h; key := strncpy (key e0) k 15; value := v |} ]> es) \/
       (hash e0 <> EMPTY /\ hash e0 = h /\ strcmp_eq (key e0) k = true /\
        es' = <[ j := {| hash := hash e0; key := key e0; value := v |} ]> es))
  else es' = es.
Proof.
  induction n as [| n IH]; intros idx h k v es es' ok Hins; cbn [insert_loop] in Hins.
  - now injection Hins as <- <-.
  - destruct (es !! Z.to_nat idx) as [e |] eqn:He; [| now injection Hins as <- <-].
    destruct (Z.eqb_spec (hash e) EMPTY) as [Hempty | Hused].
    + injection Hins as <- <-. exists (Z.to_nat idx), e. split; [assumption |]. left. auto.
    + destruct ((hash e =? h) && strcmp_eq (key e) k) eqn:Hmatch.
      * injection Hins as <- <-. apply andb_prop in Hmatch as [Hh Hk].
        apply Z.eqb_eq in Hh.
        exists (Z.to_nat idx), e. split; [assumption |]. right. auto.
      * now apply IH in Hins.
Qed.

(** [find] reads only the tags and the keys. *)
Lemma find_loop_same_keys n : forall idx h k (es es' : table),
  (fun e => (hash e, key e)) <$> es = (fun e => (hash e, key e)) <$> es' ->
  find_loop Capacity n idx h k es = find_loop Capacity n idx h k es'.
Proof.
  induction n as [| n IH]; intros idx h k es es' Hsame; cbn [find_loop]; [reflexivity |].
  pose proof (f_equal (fun l => l !! Z.to_nat idx) Hsame) as Hi. cbn beta in Hi.
  rewrite !list_lookup_fmap in Hi.
  destruct (es !! Z.to_nat idx) as [e |], (es' !! Z.to_nat idx) as [e' |];
    try discriminate; [| reflexivity].
  injection Hi as -> ->. now rewrite (IH _ h k es es' Hsame).
Qed.

Lemma same_keys_update (es : table) (j : nat) e0 v :
  es !! j = Some e0 ->
  (fun e => (hash e, key e)) <$> <[ j := {| hash := hash e0; key := key e0; value := v |} ]> es
  = (fun e => (hash e, key e)) <$> es.
Proof.
  intros He0. rewrite list_fmap_insert. cbn [hash key].
  apply list_insert_id. now rewrite list_lookup_fmap, He0.
Qed.

(** A hit of [find] does not go through an EMPTY slot, so writing one does
    not disturb it. *)
Lemma find_loop_claim n : forall idx h k (es : table) s (j : nat) e0 x,
  find_loop Capacity n idx h k es = Some s ->
  es !! j = Some e0 -> hash e0 = EMPTY ->
  find_loop Capacity n idx h k (<[ j := x ]> es) = Some s.
Proof.
  induction n as [| n IH]; intros idx h k es s j e0 x Hfind He0 Hempty;
    cbn [find_loop] in *; [discriminate |].
  destruct (es !! Z.to_nat idx) as [e |] eqn:He; [| discriminate].
  destruct (Z.eqb_spec (hash e) EMPTY) as [| Hused]; [discriminate |].
  assert (Hne : j <> Z.to_nat idx) by (intros ->; congruence).
  rewrite list_lookup_insert_ne by assumption. rewrite He.
  destruct (Z.eqb_spec (hash e) EMPTY); [contradiction |].
  destruct ((hash e =? h) && strcmp_eq (key e) k); [assumption |].
  eapply IH; eassumption.
Qed.

(** X9.  On a newly constructed table [find] returns [nullptr] for every
    key. *)
Theorem strmap_find_new (v0 : V) k :
  find Capacity char_signed k (new Capacity v0) = None.
Proof.
  unfold find, new. destruct (Z.to_nat (SIZE Capacity)) as [| n]; [reflexivity |].
  cbn [find_loop].
  destruct (replicate _ _ !! _) as [e |] eqn:He; [| reflexivity].
  apply lookup_replicate in He as [-> _]. reflexivity.
Qed.

(** X10.  When [find(K)] hits a slot, [insert(K, V)] returns [true] and
    writes [V] into that same slot, leaving its tag and key and every other
    slot as they were: no new slot is claimed, [find(K)] still returns the
    slot, and the value read through it is [V]. *)
Theorem strmap_insert_update (es : table) k v s :
  find Capacity char_signed k es = Some s ->
  exists e,
    es !! Z.to_nat s = Some e /\
    insert Capacity char_signed k v es
    = (true, <[ Z.to_nat s := {| hash := hash e; key := key e; value := v |} ]> es) /\
    find Capacity char_signed k (insert Capacity char_signed k v es).2 = Some s /\
    deref (insert Capacity char_signed k v es).2 s = Some v.
Proof.
  unfold find, insert. set (h := tag char_signed k). set (idx0 := Z.land h (mask Capacity)).
  generalize (Z.to_nat (SIZE Capacity)) as n. generalize idx0 as idx. clear idx0.
  intros idx n. revert idx.
  induction n as [| n IH]; intros idx Hfind; cbn [find_loop] in Hfind; [discriminate |].
  cbn [insert_loop].
  destruct (es !! Z.to_nat idx) as [e |] eqn:He; [| discriminate].
  destruct (Z.eqb_spec (hash e) EMPTY) as [| Hused]; [discriminate |].
  destruct ((hash e =? h) && strcmp_eq (key e) k) eqn:Hmatch.
  - injection Hfind as <-. exists e. split; [assumption |]. split; [reflexivity |].
    cbn [snd]. pose proof (lookup_lt_Some _ _ _ He) as Hlt.
    split.
    + cbn [find_loop]. rewrite list_lookup_insert_eq by assumption. cbn [hash key].
      destruct (Z.eqb_spec (hash e) EMPTY); [contradiction |]. now rewrite Hmatch.
    + unfold deref. now rewrite list_lookup_insert_eq by assumption.
  - destruct (IH _ Hfind) as (e' & He' & Hins & Hfind' & Hderef).
    exists e'. split; [assumption |]. split; [assumption |].
    rewrite Hins in *. cbn [snd] in *. split; [| assumption].
    rewrite <- (find_loop_same_keys (S n) idx h k es) by (symmetry; now apply same_keys_update).
    cbn [find_loop]. rewrite He.
    destruct (Z.eqb_spec (hash e) EMPTY); [contradiction |]. now rewrite Hmatch.
Qed.

(** X11.  [insert] of one key does not disturb another: when [find(K')]
    hits a slot and [K] is a different string, then after [insert(K, V)],
    whatever it returns, [find(K')] hits the same slot and reads the same
    value. *)
Theorem strmap_insert_frame (es : table) k v k' s :
  find Capacity char_signed k' es = Some s ->
  c_str k' <> c_str k ->
  find Capacity char_signed k' (insert Capacity char_signed k v es).2 = Some s /\
  deref (insert Capacity char_signed k v es).2 s = deref es s.
Proof.
  intros Hfind Hne.
  destruct (insert Capacity char_signed k v es) as [ok es'] eqn:Hins. cbn [snd].
  unfold insert in Hins. apply insert_loop_shape in Hins.
  destruct ok; [| now subst].
  destruct Hins as (j & e0 & He0 & [[Hempty ->] | (Hused & Hh & Hk & ->)]).
  - unfold find in *.
    pose proof (find_loop_Some _ _ _ _ _ _ Hfind) as (e & He & Hnz & _).
    split; [eapply find_loop_claim; eassumption |].
    unfold deref. rewrite list_lookup_insert_ne; [reflexivity |].
    intros ->. congruence.
  - unfold find in *.
    pose proof (find_loop_Some _ _ _ _ _ _ Hfind) as (e & He & _ & _ & Hk').
    split.
    + rewrite <- Hfind. apply find_loop_same_keys. now apply same_keys_update.
    + unfold deref. rewrite list_lookup_insert_ne; [reflexivity |].
      intros ->. rewrite He0 in He. injection He as <-.
      apply strcmp_eq_c_str in Hk, Hk'. congruence.
Qed.

(** The terminator at byte 15 bounds the string a slot holds. *)
Lemma c_str_bounded (a : list char) (n : nat) :
  a !! n = Some NUL -> (strlen a <= n)%nat.
Proof.
  unfold strlen. revert n. induction a as [| c a IH]; intros n Hn; [discriminate |].
  simpl. destruct n as [| n]; simpl in Hn.
  - injection Hn as ->. reflexivity.
  - destruct (is_nul c); simpl; [lia |]. specialize (IH n Hn). lia.
Qed.

(** X12.  A key of 16 characters or more is never found: on any table laid
    out as the constructor and [insert] leave it, [find] returns [nullptr] for
    it, whatever was inserted before. *)
Theorem strmap_find_long_key (es : table) k :
  table_ok es -> (16 <= strlen k)%nat -> find Capacity char_signed k es = None.
Proof.
  intros Hok Hlong.
  destruct (find Capacity char_signed k es) as [s |] eqn:Hfind; [| reflexivity].
  unfold find in Hfind. apply find_loop_Some in Hfind as (e & He & _ & _ & Hk).
  pose proof (proj1 (Forall_lookup _ _) Hok _ _ He) as [_ H15].
  apply c_str_bounded in H15. apply strcmp_eq_c_str in Hk.
  unfold strlen in *. rewrite Hk in H15. lia.
Qed.

(** With a power-of-two capacity the probe walks the slots in cyclic order,
    so it meets every EMPTY slot within [SIZE] steps. *)
Lemma insert_loop_reaches (k : nat) n : forall idx h key0 v (es : table),
  Capacity = 2 ^ Z.of_nat k -> (k <= 63)%nat ->
  length es = Z.to_nat Capacity ->
  0 <= idx < Capacity ->
  (exists (i : nat) e, (i < n)%nat /\
      es !! Z.to_nat ((idx + Z.of_nat i) mod Capacity) = Some e /\ hash e = EMPTY) ->
  (insert_loop Capacity n idx h key0 v es).1 = true.
Proof.
  induction n as [| n IH]; intros idx h key0 v es HC Hk Hlen Hidx (i & e & Hi & He & Hempty);
    [lia |].
  pose proof (pow2_pos k) as HN. rewrite <- HC in HN.
  cbn [insert_loop].
  destruct (lookup_lt_is_Some_2 es (Z.to_nat idx)) as [e0 He0]; [lia |].
  rewrite He0.
  destruct (Z.eqb_spec (hash e0) EMPTY) as [| Hused]; [reflexivity |].
  destruct ((hash e0 =? h) && strcmp_eq (key e0) key0); [reflexivity |].
  assert (Hnext : Z.land (wrap64 (idx + 1)) (mask Capacity) = (idx + 1) mod Capacity).
  { unfold mask, SIZE. rewrite HC.
    rewrite (wrap64_small (2 ^ Z.of_nat k - 1)).
    - apply mask_mod. lia.
    - pose proof (Z.pow_le_mono_r 2 (Z.of_nat k) 63 ltac:(lia) ltac:(lia)). lia. }
  rewrite Hnext. apply IH; try assumption.
  - apply Z.mod_pos_bound. lia.
  - destruct i as [| i].
    + rewrite Z.add_0_r, Z.mod_small in He by lia. congruence.
    + exists i, e. split; [lia |]. split; [| assumption].
      rewrite Zplus_mod_idemp_l.
      replace (idx + 1 + Z.of_nat i) with (idx + Z.of_nat (S i)) by lia. assumption.
Qed.

(** Hence [insert] succeeds on any table with an EMPTY slot. *)
Lemma insert_claims_empty (k : nat) (es : table) key0 v (j : nat) e :
  Capacity = 2 ^ Z.of_nat k -> (k <= 63)%nat ->
  length es = Z.to_nat Capacity ->
  es !! j = Some e -> hash e = EMPTY ->
  (insert Capacity char_signed key0 v es).1 = true.
Proof.
  intros HC Hk Hlen He Hempty. pose proof (pow2_pos k) as HN. rewrite <- HC in HN.
  pose proof (lookup_lt_Some _ _ _ He) as Hj.
  unfold insert.
  set (idx := Z.land (tag char_signed key0) (mask Capacity)).
  assert (Hidx : 0 <= idx < Capacity).
  { unfold idx, mask, SIZE. rewrite HC.
    rewrite wrap64_small
      by (pose proof (Z.pow_le_mono_r 2 (Z.of_nat k) 63 ltac:(lia) ltac:(lia)); lia).
    replace (2 ^ Z.of_nat k - 1) with (Z.ones (Z.of_nat k))
      by (rewrite Z.ones_equiv; lia).
    rewrite Z.land_ones by lia. apply Z.mod_pos_bound. lia. }
  apply insert_loop_reaches with (k := k); try assumption.
  exists (Z.to_nat ((Z.of_nat j - idx) mod Capacity)), e.
  pose proof (Z.mod_pos_bound (Z.of_nat j - idx) Capacity HN) as Hb.
  split; [unfold SIZE; lia |]. split; [| assumption].
  rewrite Z2Nat.id by lia. rewrite Zplus_mod_idemp_r.
  replace (idx + (Z.of_nat j - idx)) with (Z.of_nat j) by lia.
  rewrite Z.mod_small by lia. now rewrite Nat2Z.id.
Qed.

(** A key that [find] misses is not updated in place: a successful
    [insert] of it claims an EMPTY slot. *)
Lemma insert_loop_absent n : forall idx h k v (es es' : table),
  find_loop Capacity n idx h k es = None ->
  insert_loop Capacity n idx h k v es = (true, es') ->
  exists (j : nat) e0,
    es !! j = Some e0 /\ hash e0 = EMPTY /\
    es' = <[ j := {| hash := h; key := strncpy (key e0) k 15; value := v |} ]> es.
Proof.
  induction n as [| n IH]; intros idx h k v es es' Hfind Hins;
    cbn [find_loop insert_loop] in *; [discriminate |].
  destruct (es !! Z.to_nat idx) as [e |] eqn:He; [| discriminate].
  destruct (Z.eqb_spec (hash e) EMPTY) as [Hempty | Hused].
  - injection Hins as <-. now exists (Z.to_nat idx), e.
  - destruct ((hash e =? h) && strcmp_eq (key e) k); [discriminate |].
    eapply IH; eassumption.
Qed.

(** X13.  With a power-of-two capacity, [insert] returns [false] only on a
    table with no EMPTY slot left, and then leaves the table as it was. *)
Theorem strmap_insert_fails_only_when_full (k : nat) (es : table) key0 v :
  Capacity = 2 ^ Z.of_nat k -> (k <= 63)%nat ->
  length es = Z.to_nat Capacity ->
  (insert Capacity char_signed key0 v es).1 = false ->
  (insert Capacity char_signed key0 v es).2 = es /\
  Forall (fun e => hash e <> EMPTY) es.
Proof.
  intros HC Hk Hlen Hfail.
  split.
  - destruct (insert Capacity char_signed key0 v es) as [ok es'] eqn:Hins.
    cbn [fst snd] in *. subst ok. unfold insert in Hins.
    now apply insert_loop_shape in Hins.
  - apply Forall_lookup. intros j e He Hempty.
    pose proof (insert_claims_empty k es key0 v j e HC Hk Hlen He Hempty). congruence.
Qed.

End StrMap_more.

Lemma strmap_insert_update_witness :
  let K := ["A"; "A"; "P"; "L"]%byte in
  let m := (StrMap.insert 256 true K 150 (StrMap.new 256 0)).2 in
  exists s, StrMap.find 256 true K m = Some s /\
            StrMap.deref (StrMap.insert 256 true K 151 m).2 s = Some 151.
Proof.
  intros K m.
  assert (Hfind : StrMap.find 256 true K m = Some 203) by (vm_compute; reflexivity).
  exists 203. split; [exact Hfind |].
  destruct (strmap_insert_update 256 true m K 151 203 Hfind) as (e & _ & _ & _ & Hderef).
  exact Hderef.
Defined.

Lemma strmap_insert_frame_witness :
  let K := ["A"; "A"; "P"; "L"]%byte in
  let K' := ["M"; "S"; "F"; "T"]%byte in
  let m := (StrMap.insert 256 true K' 300 (StrMap.new 256 0)).2 in
  exists s, StrMap.find 256 true K' m = Some s /\ StrMap.c_str K' <> StrMap.c_str K /\
            StrMap.find 256 true K' (StrMap.insert 256 true K 150 m).2 = Some s.
Proof.
  intros K K' m.
  destruct (StrMap.find 256 true K' m) as [s |] eqn:Hfind;
    [| vm_compute in Hfind; discriminate].
  assert (Hne : StrMap.c_str K' <> StrMap.c_str K) by (vm_compute; discriminate).
  exists s. split; [reflexivity |]. split; [exact Hne |].
  exact (proj1 (strmap_insert_frame 256 true m K 150 K' s Hfind Hne)).
Defined.

Lemma strmap_find_long_key_witness :
  let K := replicate 16 "A"%byte in
  let m := (StrMap.insert 256 true K 7 (StrMap.new 256 0)).2 in
  StrMap.table_ok m /\ (16 <= StrMap.strlen K)%nat /\ StrMap.find 256 true K m = None.
Proof.
  intros K m.
  assert (Hok : StrMap.table_ok m) by (apply insert_table_ok, table_ok_new).
  assert (Hlen : (16 <= StrMap.strlen K)%nat) by (vm_compute; lia).
  split; [exact Hok |]. split; [exact Hlen |].
  exact (strmap_find_long_key 256 true m K Hok Hlen).
Defined.

Lemma strmap_insert_fails_only_when_full_witness :
  let full := [StrMap.mkEntry 2 (replicate 16 StrMap.NUL) 0;
               StrMap.mkEntry 2 (replicate 16 StrMap.NUL) 0] in
  let K := ["A"]%byte in
  (StrMap.insert 2 true K 9 full).1 = false /\
  (StrMap.insert 2 true K 9 full).2 = full /\
  Forall (fun e => StrMap.hash e <> StrMap.EMPTY) full.
Proof.
  intros full K.
  assert (Hfail : (StrMap.insert 2 true K 9 full).1 = false) by (vm_compute; reflexivity).
  split; [exact Hfail |].
  apply (strmap_insert_fails_only_when_full 2 true 1 full K 9); try reflexivity; lia.
Defined.

(** ** The generic hash map *)

Section KeyMap_facts.
Import KeyMap.
Context {V : Type}.
Variable k : nat.
Variable key_size : nat.
Variable char_signed : bool.

Local Abbreviation table := (list (Entry V)).
Local Abbreviation N := (SIZE k).

Lemma keys_equal_refl (a : list char) : keys_equal a a = true.
Proof.
  induction a as [| c a IH]; [reflexivity |]. simpl.
  now rewrite (proj2 (byte_eqb_true c c) eq_refl), IH.
Qed.

Lemma keymap_tag_not_empty key0 : tag key_size char_signed key0 <> EMPTY.
Proof.
  unfold tag, EMPTY, TOMBSTONE.
  destruct (Z.eqb_spec (hash key_size char_signed key0) 0); simpl; [lia |].
  destruct (Z.eqb_spec (hash key_size char_signed key0) 1); lia.
Qed.

(** A successful probe of [insert] writes one slot, and [find] walking the
    same chain over the new table stops there. *)
Lemma keymap_insert_loop_find n : forall idx h key0 v (es es' : table),
  h <> EMPTY ->
  insert_loop k n idx h key0 v es = (true, es') ->
  exists slot e1,
    es' !! Z.to_nat slot = Some e1 /\ value e1 = v /\
    exists e0, es !! Z.to_nat slot = Some e0 /\
      (hash_ e0 =? EMPTY) || ((hash_ e0 =? h) && keys_equal (key e0) key0) = true /\
      es' = <[ Z.to_nat slot := e1 ]> es /\
      find_loop k n idx h key0 es' = Some slot.
Proof.
  induction n as [| n IH]; intros idx h key0 v es es' Hh Hins; cbn [insert_loop] in Hins;
    [discriminate |].
  destruct (es !! Z.to_nat idx) as [e |] eqn:He; [| discriminate].
  pose proof (lookup_lt_Some _ _ _ He) as Hin.
  destruct (Z.eqb_spec (hash_ e) EMPTY) as [Hempty | Hused].
  - injection Hins as <-. eexists idx, _.
    split; [now apply list_lookup_insert_eq |]. split; [reflexivity |].
    exists e. split; [assumption |]. split; [rewrite Hempty; reflexivity |].
    split; [reflexivity |].
    cbn [find_loop]. rewrite list_lookup_insert_eq by assumption. cbn [hash_ key].
    destruct (Z.eqb_spec h EMPTY); [contradiction |].
    now rewrite Z.eqb_refl, keys_equal_refl.
  - destruct ((hash_ e =? h) && keys_equal (key e) key0) eqn:Hmatch.
    + injection Hins as <-. eexists idx, _.
      split; [now apply list_lookup_insert_eq |]. split; [reflexivity |].
      exists e. split; [assumption |]. split; [rewrite Hmatch; apply orb_true_r |].
      split; [reflexivity |].
      cbn [find_loop]. rewrite list_lookup_insert_eq by assumption. cbn [hash_ key].
      destruct (Z.eqb_spec (hash_ e) EMPTY); [contradiction |]. now rewrite Hmatch.
    + destruct (IH _ h key0 v es es' Hh Hins)
        as (slot & e1 & He1 & Hv & e0 & He0 & Hacc & -> & Hfind).
      exists slot, e1. split; [assumption |]. split; [assumption |].
      exists e0. split; [assumption |]. split; [assumption |]. split; [reflexivity |].
      assert (Hj : Z.to_nat idx <> Z.to_nat slot).
      { intros Heq. rewrite Heq, He0 in He. injection He as ->.
        rewrite Hmatch, orb_false_r in Hacc. apply Z.eqb_eq in Hacc. contradiction. }
      cbn [find_loop]. rewrite list_lookup_insert_ne by congruence. rewrite He.
      destruct (Z.eqb_spec (hash_ e) EMPTY); [contradiction |]. now rewrite Hmatch.
Qed.

(** X14.  For every key and value: once [insert(key, value)] has returned
    [true], [find(key)] returns a pointer to a slot of the table and the value
    read through it is [value]. *)
Theorem keymap_insert_find (es es' : table) key0 v :
  insert k key_size char_signed key0 v es = (true, es') ->
  exists slot, find k key_size char_signed key0 es' = Some slot /\
               deref es' slot = Some v.
Proof.
  intros Hins. unfold insert in Hins.
  destruct (keymap_insert_loop_find _ _ _ _ _ _ _ (keymap_tag_not_empty key0) Hins)
    as (slot & e1 & He1 & Hv & _ & _ & _ & _ & Hfind).
  exists slot. split; [exact Hfind |]. unfold deref. now rewrite He1, <- Hv.
Qed.

Hypothesis Hk : (k <= 63)%nat.

Lemma keymap_next (idx : Z) :
  Z.land (wrap64 (idx + 1)) (mask k) = (idx + 1) mod N.
Proof.
  unfold mask, SIZE.
  rewrite (wrap64_small (2 ^ Z.of_nat k - 1)).
  - apply mask_mod. lia.
  - pose proof (pow2_pos k).
    pose proof (Z.pow_le_mono_r 2 (Z.of_nat k) 63 ltac:(lia) ltac:(lia)). lia.
Qed.

Lemma keymap_insert_loop_reaches n : forall idx h key0 v (es : table),
  length es = Z.to_nat N ->
  0 <= idx < N ->
  (exists (i : nat) e, (i < n)%nat /\
      es !! Z.to_nat ((idx + Z.of_nat i) mod N) = Some e /\ hash_ e = EMPTY) ->
  (insert_loop k n idx h key0 v es).1 = true.
Proof.
  induction n as [| n IH]; intros idx h key0 v es Hlen Hidx (i & e & Hi & He & Hempty);
    [lia |].
  pose proof (pow2_pos k) as HN. fold N in HN.
  cbn [insert_loop].
  destruct (lookup_lt_is_Some_2 es (Z.to_nat idx)) as [e0 He0]; [lia |].
  rewrite He0.
  destruct (Z.eqb_spec (hash_ e0) EMPTY) as [| Hused]; [reflexivity |].
  destruct ((hash_ e0 =? h) && keys_equal (key e0) key0); [reflexivity |].
  rewrite keymap_next. apply IH; try assumption.
  - apply Z.mod_pos_bound. lia.
  - destruct i as [| i].
    + rewrite Z.add_0_r, Z.mod_small in He by lia. congruence.
    + exists i, e. split; [lia |]. split; [| assumption].
      rewrite Zplus_mod_idemp_l.
      replace (idx + 1 + Z.of_nat i) with (idx + Z.of_nat (S i)) by lia. assumption.
Qed.

(** X15.  On a table with at least one EMPTY slot [insert] returns [true],
    whatever the key: the probe reaches every slot. *)
Theorem keymap_insert_with_room (es : table) key0 v (j : nat) e :
  length es = Z.to_nat N ->
  es !! j = Some e -> hash_ e = EMPTY ->
  (insert k key_size char_signed key0 v es).1 = true.
Proof.
  intros Hlen He Hempty. pose proof (pow2_pos k) as HN. fold N in HN.
  pose proof (lookup_lt_Some _ _ _ He) as Hj.
  unfold insert.
  set (idx := Z.land (tag key_size char_signed key0) (mask k)).
  assert (Hidx : 0 <= idx < N).
  { unfold idx, mask, SIZE.
    rewrite wrap64_small
      by (pose proof (Z.pow_le_mono_r 2 (Z.of_nat k) 63 ltac:(lia) ltac:(lia));
          unfold N, SIZE in HN; lia).
    replace (2 ^ Z.of_nat k - 1) with (Z.ones (Z.of_nat k))
      by (rewrite Z.ones_equiv; lia).
    rewrite Z.land_ones by lia. apply Z.mod_pos_bound. exact HN. }
  apply keymap_insert_loop_reaches; try assumption.
  exists (Z.to_nat ((Z.of_nat j - idx) mod N)), e.
  pose proof (Z.mod_pos_bound (Z.of_nat j - idx) N HN) as Hb.
  split; [lia |]. split; [| assumption].
  rewrite Z2Nat.id by lia. rewrite Zplus_mod_idemp_r.
  replace (idx + (Z.of_nat j - idx)) with (Z.of_nat j) by lia.
  rewrite Z.mod_small by lia. now rewrite Nat2Z.id.
Qed.

End KeyMap_facts.

Lemma keymap_insert_find_witness :
  let key50 := [Byte.x32; Byte.x00; Byte.x00; Byte.x00; Byte.x00; Byte.x00; Byte.x00; Byte.x00] in
  let r := KeyMap.insert 8 8 true key50 500 (KeyMap.new 8 8 0) in
  r.1 = true /\
  exists slot, KeyMap.find 8 8 true key50 r.2 = Some slot /\ KeyMap.deref r.2 slot = Some 500.
Proof.
  intros key50 r. split; [vm_compute; reflexivity |].
  apply (keymap_insert_find 8 8 true (KeyMap.new 8 8 0) r.2 key50 500).
  vm_compute. reflexivity.
Defined.

Lemma keymap_insert_with_room_witness :
  let key50 := [Byte.x32; Byte.x00; Byte.x00; Byte.x00; Byte.x00; Byte.x00; Byte.x00; Byte.x00] in
  (8 <= 63)%nat /\ (KeyMap.insert 8 8 true key50 500 (KeyMap.new 8 8 0)).1 = true.
Proof.
  intros key50. split; [lia |].
  apply (keymap_insert_with_room 8 8 true ltac:(lia) (KeyMap.new 8 8 0) key50 500 0%nat
           (KeyMap.mkEntry 0 (replicate 8 Byte.x00) 0)); reflexivity.
Defined.

(** ** More on the order book *)

Section Book_more.
Import Book.

Lemma top_ok_update (side : Book) level p q :
  side_ok side -> 0 <= level < MAX_DEPTH -> top_ok (update_level side level p q).
Proof.
  intros (_ & _ & Hdepth & _) Hlevel Hzero. unfold MAX_DEPTH in *.
  unfold update_level in Hzero; cbn [depth] in Hzero.
  destruct (Z.leb_spec (depth side) level); [rewrite wrap32_small in Hzero |]; lia.
Qed.

Lemma reachable_top_ok b : reachable b -> top_ok (bids_ b) /\ top_ok (asks_ b).
Proof.
  induction 1 as [symbol | b level p q Hb [IHb IHa] Hl | b level p q Hb [IHb IHa] Hl].
  - split; intros _; reflexivity.
  - destruct (reachable_ok b Hb) as [Hbids _].
    unfold update_bid. destruct (Z.leb_spec MAX_DEPTH level); cbn [bids_ asks_]; [tauto |].
    split; [apply top_ok_update; [assumption | lia] | assumption].
  - destruct (reachable_ok b Hb) as [_ Hasks].
    unfold update_ask. destruct (Z.leb_spec MAX_DEPTH level); cbn [bids_ asks_]; [tauto |].
    split; [assumption | apply top_ok_update; [assumption | lia]].
Qed.

Lemma take_all_levels (side : Book) :
  side_ok side -> take (Z.to_nat MAX_DEPTH) (levels side) = levels side.
Proof. intros (Hlen & _). apply take_ge. lia. Qed.

(** X16.  Every snapshot of a book that was constructed and then updated
    carries ten levels per side, depths between 0 and [MAX_DEPTH], and an
    [order_count] of 0 on every level. *)
Theorem book_snapshot_shape (b : OrderBook) (now : Z) :
  reachable b ->
  let s := get_snapshot now b in
  length (bids s) = 10%nat /\ length (asks s) = 10%nat /\
  0 <= bid_depth s <= MAX_DEPTH /\ 0 <= ask_depth s <= MAX_DEPTH /\
  Forall (fun pl => order_count pl = 0) (bids s ++ asks s).
Proof.
  intros Hreach. destruct (reachable_ok b Hreach) as [Hbids Hasks].
  unfold get_snapshot; cbn [bids asks bid_depth ask_depth].
  rewrite !take_all_levels by assumption.
  destruct Hbids as (Hlb & Hcb & Hdb & _), Hasks as (Hla & Hca & Hda & _).
  repeat split; try assumption; try lia.
  apply Forall_app. split; assumption.
Qed.

(** X20.  On a book that was constructed and then updated, the live
    accessors [OrderBook::best_bid()], [best_ask()] and [mid_price()] agree
    with the snapshot's wherever the side has depth.  On a side with no level
    both best bids are 0, but the best asks differ: [OrderBook::best_ask()]
    reads 0 where the snapshot reports [numeric_limits<double>::max()]. *)
Theorem book_top_accessors (b : OrderBook) (now : Z) :
  reachable b ->
  let s := get_snapshot now b in
  (0 < bid_depth s -> best_bid s = book_best_bid b) /\
  (0 < ask_depth s -> best_ask s = book_best_ask b) /\
  (0 < bid_depth s -> 0 < ask_depth s -> mid_price s = book_mid_price b) /\
  (bid_depth s = 0 -> best_bid s = 0%float /\ book_best_bid b = 0%float) /\
  (ask_depth s = 0 -> best_ask s = DBL_MAX /\ book_best_ask b = 0%float).
Proof.
  intros Hreach. destruct (reachable_ok b Hreach) as [Hbids Hasks].
  destruct (reachable_top_ok b Hreach) as [Htb Hta].
  unfold mid_price, book_mid_price, best_bid, best_ask, book_best_bid, book_best_ask.
  unfold get_snapshot; cbn [bids asks bid_depth ask_depth].
  rewrite !take_all_levels by assumption.
  split; [intros Hd; apply Z.ltb_lt in Hd; now rewrite Hd |].
  split; [intros Hd; apply Z.ltb_lt in Hd; now rewrite Hd |].
  split; [intros Hd1 Hd2; apply Z.ltb_lt in Hd1, Hd2; now rewrite Hd1, Hd2 |].
  split; intros Hd; rewrite Hd.
  - split; [reflexivity |]. now rewrite (list_lookup_total_correct _ _ _ (Htb Hd)).
  - split; [reflexivity |]. now rewrite (list_lookup_total_correct _ _ _ (Hta Hd)).
Qed.

Lemma wrap64_succ n : wrap64 (wrap64 n + 1) = wrap64 (n + 1).
Proof. unfold wrap64. now rewrite Zplus_mod_idemp_l. Qed.

Lemma apply_updates_snoc b us u :
  apply_updates b (us ++ [u]) = apply_update (apply_updates b us) u.
Proof. unfold apply_updates. now rewrite foldl_snoc. Qed.

Lemma high_water_snoc written l :
  high_water (written ++ [l]) = Z.max (l + 1) (high_water written).
Proof.
  unfold high_water. induction written as [| w ws IH]; simpl; [reflexivity |].
  rewrite IH. lia.
Qed.

Lemma high_water_nonneg written : 0 <= high_water written.
Proof. unfold high_water. induction written; simpl; lia. Qed.

Lemma levels_snoc us u :
  bid_levels (us ++ [u])
  = bid_levels us ++ match u with
                     | Bid level _ _ => if MAX_DEPTH <=? level then [] else [level]
                     | Ask _ _ _ => []
                     end /\
  ask_levels (us ++ [u])
  = ask_levels us ++ match u with
                     | Ask level _ _ => if MAX_DEPTH <=? level then [] else [level]
                     | Bid _ _ _ => []
                     end.
Proof.
  unfold bid_levels, ask_levels. rewrite !omap_app.
  destruct u as [level p q | level p q]; simpl; destruct (MAX_DEPTH <=? level); split; reflexivity.
Qed.

(** X17.  The sequence of a side counts its updates: after any feed applied
    to a new book, each side's sequence is the number of updates of that side
    with a level below [MAX_DEPTH], modulo [2^64]; updates at or beyond
    [MAX_DEPTH] are not counted. *)
Theorem book_sequence_counts_updates symbol us :
  let b := apply_updates (new symbol) us in
  sequence (bids_ b) = wrap64 (Z.of_nat (length (bid_levels us))) /\
  sequence (asks_ b) = wrap64 (Z.of_nat (length (ask_levels us))).
Proof.
  induction us as [| u us IH] using rev_ind; [split; reflexivity |].
  cbv zeta in *. destruct IH as [IHb IHa].
  rewrite apply_updates_snoc.
  destruct (levels_snoc us u) as [-> ->]. rewrite !length_app.
  destruct u as [level p q | level p q]; cbn [apply_update];
    unfold update_bid, update_ask;
    destruct (MAX_DEPTH <=? level); cbn [bids_ asks_ length];
    rewrite ?Nat.add_0_r; try (split; assumption).
  - split; [| assumption]. unfold update_level; cbn [sequence].
    rewrite IHb, wrap64_succ. f_equal. lia.
  - split; [assumption |]. unfold update_level; cbn [sequence].
    rewrite IHa, wrap64_succ. f_equal. lia.
Qed.

Lemma depth_update (side : Book) level p q :
  0 <= depth side <= MAX_DEPTH -> level < MAX_DEPTH ->
  depth (update_level side level p q) = Z.max (level + 1) (depth side).
Proof.
  unfold MAX_DEPTH, update_level; cbn [depth]. intros Hd Hl.
  destruct (Z.leb_spec (depth side) level); [rewrite wrap32_small |]; lia.
Qed.

(** X18.  The depth of a side is a high-water mark: after any feed applied
    to a new book it is one more than the highest level below [MAX_DEPTH]
    written on that side, 0 when none was, and never above [MAX_DEPTH]. *)
Theorem book_depth_high_water symbol us :
  let b := apply_updates (new symbol) us in
  depth (bids_ b) = high_water (bid_levels us) /\
  depth (asks_ b) = high_water (ask_levels us) /\
  0 <= depth (bids_ b) <= MAX_DEPTH /\ 0 <= depth (asks_ b) <= MAX_DEPTH.
Proof.
  induction us as [| u us IH] using rev_ind.
  { unfold MAX_DEPTH. repeat split; simpl; lia. }
  cbv zeta in *. destruct IH as (IHb & IHa & Hb & Ha).
  rewrite apply_updates_snoc.
  destruct (levels_snoc us u) as [-> ->].
  destruct u as [level p q | level p q]; cbn [apply_update];
    unfold update_bid, update_ask;
    destruct (Z.leb_spec MAX_DEPTH level); cbn [bids_ asks_];
    rewrite ?app_nil_r; try (repeat split; assumption || lia).
  - rewrite high_water_snoc, depth_update by assumption. unfold MAX_DEPTH in *.
    repeat split; try assumption; lia.
  - rewrite high_water_snoc, depth_update by assumption. unfold MAX_DEPTH in *.
    repeat split; try assumption; lia.
Qed.

(** X19.  An update writes one level of one side: [update_bid] leaves the
    ask side, the symbol and every other bid level as they were, and
    [update_ask] likewise; at a level of [MAX_DEPTH] or more either leaves the
    whole book as it was. *)
Theorem book_update_frame (b : OrderBook) (L : Z) (P Q : float) :
  0 <= L ->
  let b' := update_bid L P Q b in
  let b'' := update_ask L P Q b in
  (asks_ b' = asks_ b /\ symbol_ b' = symbol_ b /\
   forall i : nat, i <> Z.to_nat L -> levels (bids_ b') !! i = levels (bids_ b) !! i) /\
  (bids_ b'' = bids_ b /\ symbol_ b'' = symbol_ b /\
   forall i : nat, i <> Z.to_nat L -> levels (asks_ b'') !! i = levels (asks_ b) !! i) /\
  (MAX_DEPTH <= L -> b' = b /\ b'' = b).
Proof.
  intros HL. cbv zeta. unfold update_bid, update_ask.
  destruct (Z.leb_spec MAX_DEPTH L) as [Hout | Hin]; cbn [bids_ asks_ symbol_].
  - repeat split; reflexivity.
  - repeat split; try lia; intros i Hi; unfold update_level; cbn [levels];
      now apply list_lookup_alter_ne.
Qed.

End Book_more.

Lemma book_snapshot_shape_witness :
  let b := Book.update_bid 3 99.5 500 (Book.new []) in
  Book.reachable b /\ Book.bid_depth (Book.get_snapshot 0 b) = 4 /\
  length (Book.bids (Book.get_snapshot 0 b)) = 10%nat.
Proof.
  intros b.
  assert (Hb : Book.reachable b) by (apply Book.reach_bid; [apply Book.reach_new | lia]).
  split; [exact Hb |]. split; [reflexivity |].
  exact (proj1 (book_snapshot_shape b 0 Hb)).
Defined.

Lemma book_top_accessors_witness :
  let b := Book.update_bid 0 99.5 500 (Book.new []) in
  let s := Book.get_snapshot 0 b in
  Book.reachable b /\ 0 < Book.bid_depth s /\ Book.ask_depth s = 0 /\
  Book.best_bid s = Book.book_best_bid b /\
  Book.best_ask s = Book.DBL_MAX /\ Book.book_best_ask b = 0%float.
Proof.
  intros b s.
  assert (Hb : Book.reachable b) by (apply Book.reach_bid; [apply Book.reach_new | lia]).
  destruct (book_top_accessors b 0 Hb) as (Hbid & _ & _ & _ & Hask).
  split; [exact Hb |]. split; [reflexivity |]. split; [reflexivity |].
  split; [apply Hbid; reflexivity |]. apply Hask. reflexivity.
Defined.

Lemma book_update_frame_witness :
  let b := Book.update_bid 0 99.5 500 (Book.new []) in
  0 <= 1 /\
  Book.levels (Book.bids_ (Book.update_bid 1 99 300 b)) !! 0%nat
  = Book.levels (Book.bids_ b) !! 0%nat.
Proof.
  intros b. split; [lia |].
  destruct (book_update_frame b 1 99 300 ltac:(lia)) as ((_ & _ & Hother) & _).
  apply Hother. discriminate.
Defined.

(** ** More on the risk-gated submitter *)

Section Risk_more.
Import Wire Risk.

(** What one call can change. *)
Lemma submit_order_frame now_ns send_order order m :
  let r := submit_order now_ns send_order order m in
  limits_ r.2 = limits_ m /\ notional_ r.2 = notional_ m /\
  match r.1 with
  | Forwarded true =>
      check_position_limit m (side order) (quantity order) = true /\
      position_ r.2 = match side order with
                      | BUY => (position_ m + quantity order)%float
                      | SELL => (position_ m - quantity order)%float
                      end
  | _ => position_ r.2 = position_ m
  end.
Proof.
  cbv zeta. unfold submit_order.
  destruct (check_order_size m (quantity order)); cbn [negb]; [| repeat split].
  destruct (check_position_limit m (side order) (quantity order)) eqn:Hpos; cbn [negb];
    [| repeat split].
  pose proof (check_rate_limit_frame now_ns m) as Hframe.
  destruct (check_rate_limit now_ns m) as [ok m1]. cbn [snd] in Hframe.
  destruct Hframe as (Hl & Hp & Hn).
  destruct ok; cbn [negb]; [| repeat split; assumption].
  destruct (check_notional_limit m1 (price order) (quantity order)); cbn [negb];
    [| repeat split; assumption].
  destruct (send_order order); cbn [fst snd limits_ notional_ position_];
    [| repeat split; assumption].
  rewrite Hp. repeat split; assumption.
Qed.

(** X21.  The position limit is an invariant of the manager: an order that
    [submit_order] forwards and the sender accepts leaves [|position_|] within
    [max_position], and a manager that starts within the limit stays within
    it over any run of submissions, whatever the sender answers. *)
Theorem risk_position_within_limit send_order :
  (forall now_ns order m m',
     submit_order now_ns send_order order m = (Forwarded true, m') ->
     (abs (position_ m') <=? max_position (limits_ m'))%float = true) /\
  (forall calls m,
     (abs (position_ m) <=? max_position (limits_ m))%float = true ->
     let m' := (submit_all send_order calls m).2 in
     (abs (position_ m') <=? max_position (limits_ m'))%float = true).
Proof.
  assert (Hstep : forall now_ns order m,
    (abs (position_ m) <=? max_position (limits_ m))%float = true \/
    (submit_order now_ns send_order order m).1 = Forwarded true ->
    let m' := (submit_order now_ns send_order order m).2 in
    (abs (position_ m') <=? max_position (limits_ m'))%float = true).
  { intros now_ns order m Hpre. cbv zeta.
    pose proof (submit_order_frame now_ns send_order order m) as (Hl & _ & Hp).
    rewrite Hl.
    destruct (submit_order now_ns send_order order m) as [o m']. cbn [fst snd] in *.
    destruct o as [why | [|]].
    - rewrite Hp. destruct Hpre as [Hpre | Hpre]; [assumption | discriminate].
    - destruct Hp as [Hcheck ->]. unfold check_position_limit in Hcheck.
      destruct (side order); exact Hcheck.
    - rewrite Hp. destruct Hpre as [Hpre | Hpre]; [assumption | discriminate]. }
  split.
  - intros now_ns order m m' Hsub.
    specialize (Hstep now_ns order m). rewrite Hsub in Hstep. apply Hstep. now right.
  - intros calls. induction calls as [| [now_ns order] rest IH]; intros m Hpre; [exact Hpre |].
    cbn [submit_all]. specialize (Hstep now_ns order m (or_introl Hpre)).
    destruct (submit_order now_ns send_order order m) as [o m1]. cbn [snd] in Hstep.
    specialize (IH m1 Hstep).
    destruct (submit_all send_order rest m1) as [os m2]. exact IH.
Qed.

(** X22.  [submit_order] never writes [notional_] or the limits: after any
    run of submissions both are what they were, so the notional check always
    compares the stored notional plus the one order against the limit. *)
Theorem risk_notional_never_moves send_order calls m :
  let m' := (submit_all send_order calls m).2 in
  notional_ m' = notional_ m /\ limits_ m' = limits_ m.
Proof.
  revert m. induction calls as [| [now_ns order] rest IH]; intros m; [split; reflexivity |].
  cbn [submit_all].
  pose proof (submit_order_frame now_ns send_order order m) as (Hl & Hn & _).
  destruct (submit_order now_ns send_order order m) as [o m1]. cbn [snd] in *.
  specialize (IH m1). cbv zeta in IH.
  destruct (submit_all send_order rest m1) as [os m2]. cbn [snd] in *.
  destruct IH as [-> ->]. split; assumption.
Qed.

(** One call inside the current second: what it does to the rate limiter. *)
Lemma submit_order_rate now_ns send_order order m :
  wrap64 (now_ns - last_second_timestamp_ m) <= ONE_SECOND_NS ->
  0 <= orders_this_second_ m <= max_orders_per_second (limits_ m) ->
  max_orders_per_second (limits_ m) < 2 ^ 32 ->
  let r := submit_order now_ns send_order order m in
  last_second_timestamp_ r.2 = last_second_timestamp_ m /\
  orders_this_second_ m <= orders_this_second_ r.2 <= max_orders_per_second (limits_ m) /\
  (is_forwarded r.1 = true -> orders_this_second_ r.2 = orders_this_second_ m + 1).
Proof.
  intros Hnow Hcount Hmax. cbv zeta. unfold submit_order.
  destruct (check_order_size m (quantity order)); cbn [negb];
    [| cbn; repeat split; try lia; discriminate].
  destruct (check_position_limit m (side order) (quantity order)); cbn [negb];
    [| cbn; repeat split; try lia; discriminate].
  unfold check_rate_limit, update_rate_limiter.
  destruct (Z.ltb_spec ONE_SECOND_NS (wrap64 (now_ns - last_second_timestamp_ m))); [lia |].
  destruct (Z.leb_spec (max_orders_per_second (limits_ m)) (orders_this_second_ m));
    cbn [negb]; [cbn; repeat split; try lia; discriminate |].
  rewrite wrap32_small by lia.
  destruct (check_notional_limit _ (price order) (quantity order)); cbn [negb];
    [| cbn; repeat split; try lia; discriminate].
  destruct (send_order order); cbn; repeat split; lia.
Qed.

(** X23.  The rate limiter caps what goes out: over submissions whose clock
    readings all lie within one second of the stored window start, the number
    of orders handed to the sender is at most [max_orders_per_second] minus
    the orders already counted in the window. *)
Theorem risk_rate_limit_bound send_order calls : forall m,
  Forall (fun c => wrap64 (c.1 - last_second_timestamp_ m) <= ONE_SECOND_NS) calls ->
  0 <= orders_this_second_ m <= max_orders_per_second (limits_ m) ->
  max_orders_per_second (limits_ m) < 2 ^ 32 ->
  Z.of_nat (length (List.filter is_forwarded (submit_all send_order calls m).1))
  <= max_orders_per_second (limits_ m) - orders_this_second_ m.
Proof.
  induction calls as [| [now_ns order] rest IH]; intros m Hnow Hcount Hmax.
  - simpl. lia.
  - apply Forall_cons in Hnow as [Hnow Hrest]. cbn [fst] in Hnow.
    pose proof (submit_order_rate now_ns send_order order m Hnow Hcount Hmax) as (Hts & Hc & Hf).
    pose proof (submit_order_frame now_ns send_order order m) as (Hl & _ & _).
    cbn [submit_all].
    destruct (submit_order now_ns send_order order m) as [o m1]. cbn [fst snd] in *.
    specialize (IH m1). rewrite Hts, Hl in IH.
    specialize (IH Hrest ltac:(lia) Hmax).
    destruct (submit_all send_order rest m1) as [os m2]. cbn [fst] in *.
    cbn [List.filter]. destruct (is_forwarded o); [| lia].
    specialize (Hf eq_refl). cbn [length]. lia.
Qed.

End Risk_more.

Lemma risk_position_within_limit_witness :
  let send := fun _ : Wire.Order => true in
  let order := {| Wire.symbol := MM.SYMBOL; Wire.order_id := 1; Wire.side := Wire.BUY;
                  Wire.type := Wire.LIMIT; Wire.price := 10%float;
                  Wire.quantity := 100%float; Wire.timestamp := 0 |} in
  let m' := (Risk.submit_all send [(5, order); (6, order)] Risk.new).2 in
  (abs (Risk.position_ m') <=? Risk.max_position (Risk.limits_ m'))%float = true.
Proof.
  intros send order.
  apply (proj2 (risk_position_within_limit send) [(5, order); (6, order)] Risk.new).
  reflexivity.
Defined.

Lemma risk_rate_limit_bound_witness :
  let send := fun _ : Wire.Order => true in
  let order := {| Wire.symbol := MM.SYMBOL; Wire.order_id := 1; Wire.side := Wire.BUY;
                  Wire.type := Wire.LIMIT; Wire.price := 10%float;
                  Wire.quantity := 100%float; Wire.timestamp := 0 |} in
  Z.of_nat (length (List.filter Risk.is_forwarded
                      (Risk.submit_all send [(5, order); (6, order)] Risk.new).1))
  <= 100.
Proof.
  intros send order.
  apply (risk_rate_limit_bound send [(5, order); (6, order)] Risk.new).
  - apply Forall_cons; split; [vm_compute; discriminate |].
    apply Forall_cons; split; [vm_compute; discriminate | constructor].
  - cbn. lia.
  - cbn. lia.
Defined.

(** ** More on the market-making strategy *)

Section MM_more.
Import Wire MM.

(** What one quoting round sends and what it does to the order-id counter:
    either nothing at all, or two ids are taken and each side that is sent
    carries its own. *)
Lemma update_quotes_shape t_bid t_ask t_done snapshot s :
  let r := update_quotes t_bid t_ask t_done snapshot s in
  params_ r.2 = params_ s /\ position_ r.2 = position_ s /\ pnl_ r.2 = pnl_ s /\
  ((r.1 = [] /\ r.2 = s) \/
   (next_order_id_ r.2 = wrap64 (wrap64 (next_order_id_ s + 1) + 1) /\
    last_quote_time_ r.2 = t_done /\
    exists bid ask,
      r.1 = (if (position_ s <? max_position (params_ s) * 0.8)%float then [bid] else [])
            ++ (if (- max_position (params_ s) * 0.8 <? position_ s)%float then [ask] else []) /\
      side bid = BUY /\ order_id bid = next_order_id_ s /\ timestamp bid = t_bid /\
      side ask = SELL /\ order_id ask = wrap64 (next_order_id_ s + 1) /\ timestamp ask = t_ask /\
      Forall (fun o => symbol o = SYMBOL /\ type o = LIMIT /\
                       quantity o = quote_size (params_ s)) [bid; ask])).
Proof.
  cbv zeta. unfold update_quotes.
  destruct (Book.mid_price snapshot <=? 0)%float; [repeat split; now left |].
  destruct (max_position (params_ s) <=? abs (position_ s))%float; [repeat split; now left |].
  cbn [fst snd params_ position_ pnl_ next_order_id_ last_quote_time_].
  repeat split. right. repeat split.
  eexists _, _. split; [reflexivity |].
  cbn [side order_id timestamp]. repeat split; try reflexivity.
  repeat constructor.
Qed.

(** X24.  Quoting never moves the strategy's own position, P&L or
    parameters, over any run of rounds; and every order it sends is a LIMIT
    order for [quote_size] on the symbol SYMBOL. *)
Theorem mm_position_never_moves rounds : forall s,
  let r := quote_all rounds s in
  position_ r.2 = position_ s /\ pnl_ r.2 = pnl_ s /\ params_ r.2 = params_ s /\
  Forall (fun o => symbol o = SYMBOL /\ type o = LIMIT /\
                   quantity o = quote_size (params_ s)) r.1.
Proof.
  induction rounds as [| [[[t_bid t_ask] t_done] snapshot] rest IH]; intros s.
  - cbn. repeat split. constructor.
  - cbn [quote_all].
    pose proof (update_quotes_shape t_bid t_ask t_done snapshot s) as (Hpar & Hpos & Hpnl & Hsent).
    cbv zeta in Hpar, Hpos, Hpnl, Hsent.
    destruct (update_quotes t_bid t_ask t_done snapshot s) as [orders s1].
    cbn [fst snd] in *.
    specialize (IH s1). cbv zeta in IH.
    destruct (quote_all rest s1) as [more s2]. cbn [fst snd] in *.
    destruct IH as (IHpos & IHpnl & IHpar & IHall).
    rewrite IHpos, IHpnl, IHpar, Hpos, Hpnl, Hpar. repeat split.
    apply Forall_app. split; [| now rewrite <- Hpar].
    destruct Hsent as [[-> _] | (_ & _ & bid & ask & -> & _ & _ & _ & _ & _ & _ & Hall)];
      [constructor |].
    apply Forall_cons in Hall as [Hbid Hall]. apply Forall_cons in Hall as [Hask _].
    apply Forall_app.
    split; [destruct (_ <? _)%float | destruct (_ <? _)%float]; repeat constructor; tauto.
Qed.

(** X25.  Order ids are unique and increasing: as long as the 64-bit counter
    does not wrap, the ids of the orders sent over a run of quoting rounds are
    strictly increasing and lie between the first counter value and the last;
    a round that quotes takes two ids whether or not both sides are sent, so
    BUY orders carry the even offsets and SELL orders the odd ones. *)
Theorem mm_order_ids_increase rounds : forall s,
  0 <= next_order_id_ s ->
  next_order_id_ s + 2 * Z.of_nat (length rounds) < 2 ^ 64 ->
  let r := quote_all rounds s in
  StronglySorted Z.lt (order_id <$> r.1) /\
  Forall (fun o => next_order_id_ s <= order_id o < next_order_id_ r.2 /\
                   (side o = BUY <-> Z.even (order_id o - next_order_id_ s) = true)) r.1 /\
  next_order_id_ s <= next_order_id_ r.2 <= next_order_id_ s + 2 * Z.of_nat (length rounds) /\
  Z.even (next_order_id_ r.2 - next_order_id_ s) = true.
Proof.
  induction rounds as [| [[[t_bid t_ask] t_done] snapshot] rest IH]; intros s Hn Hroom.
  - cbn [quote_all fst snd length]. rewrite Z.sub_diag.
    repeat split; try constructor; try lia.
  - cbn [quote_all].
    pose proof (update_quotes_shape t_bid t_ask t_done snapshot s) as (_ & _ & _ & Hsent).
    cbv zeta in Hsent.
    destruct (update_quotes t_bid t_ask t_done snapshot s) as [orders s1].
    cbn [fst snd] in *.
    rewrite length_cons in Hroom.
    assert (Hs1 : next_order_id_ s <= next_order_id_ s1 <= next_order_id_ s + 2 /\
                  Z.even (next_order_id_ s1 - next_order_id_ s) = true /\
                  StronglySorted Z.lt (order_id <$> orders) /\
                  Forall (fun o => next_order_id_ s <= order_id o < next_order_id_ s1 /\
                     (side o = BUY <-> Z.even (order_id o - next_order_id_ s) = true)) orders).
    { destruct Hsent as [[-> ->] | (Hnext & _ & bid & ask & -> & Hbs & Hbi & _ & Has & Hai & _ & _)].
      - rewrite Z.sub_diag. repeat split; try constructor; lia.
      - rewrite !wrap64_small in Hnext by (try rewrite wrap64_small; lia).
        rewrite wrap64_small in Hai by lia.
        rewrite Hnext.
        replace (next_order_id_ s + 1 + 1 - next_order_id_ s) with 2 by lia.
        assert (Hbid : next_order_id_ s <= order_id bid < next_order_id_ s + 1 + 1 /\
                  (side bid = BUY <-> Z.even (order_id bid - next_order_id_ s) = true)).
        { rewrite Hbi, Hbs, Z.sub_diag. split; [lia | tauto]. }
        assert (Hask : next_order_id_ s <= order_id ask < next_order_id_ s + 1 + 1 /\
                  (side ask = BUY <-> Z.even (order_id ask - next_order_id_ s) = true)).
        { rewrite Hai, Has.
          replace (next_order_id_ s + 1 - next_order_id_ s) with 1 by lia.
          split; [lia |]. cbn. split; discriminate. }
        split; [lia |]. split; [reflexivity |].
        destruct (_ <? _)%float; destruct (_ <? _)%float; cbn [app fmap list_fmap];
          (split; [repeat constructor; lia | repeat constructor; tauto || lia]). }
    destruct Hs1 as (Hrange & Heven & Hsorted & Hall).
    assert (Hn1 : 0 <= next_order_id_ s1) by lia.
    assert (Hroom1 : next_order_id_ s1 + 2 * Z.of_nat (length rest) < 2 ^ 64) by lia.
    specialize (IH s1 Hn1 Hroom1). cbv zeta in IH.
    destruct (quote_all rest s1) as [more s2]. cbn [fst snd] in *.
    destruct IH as (IHsorted & IHall & IHrange & IHeven).
    assert (Heven2 : Z.even (next_order_id_ s2 - next_order_id_ s) = true).
    { replace (next_order_id_ s2 - next_order_id_ s)
        with ((next_order_id_ s2 - next_order_id_ s1) + (next_order_id_ s1 - next_order_id_ s))
        by lia.
      now rewrite Z.even_add, IHeven, Heven. }
    split; [| split; [| split; [cbn [length]; lia | exact Heven2]]].
    + rewrite fmap_app. 
      assert (Hlt : forall a b, a ∈ order_id <$> orders -> b ∈ order_id <$> more -> a < b).
      { intros a b Ha Hb.
        apply list_elem_of_fmap in Ha as (oa & -> & Ha).
        apply list_elem_of_fmap in Hb as (ob & -> & Hb).
        pose proof (proj1 (Forall_forall _ _) Hall _ Ha) as [? _].
        pose proof (proj1 (Forall_forall _ _) IHall _ Hb) as [? _]. lia. }
      clear - Hsorted IHsorted Hlt.
      induction Hsorted as [| a l Hs IHs Ha]; [exact IHsorted |].
      cbn [app]. constructor.
      * apply IHs. intros x y Hx Hy. apply Hlt; [now right | assumption].
      * apply Forall_app. split; [assumption |].
        apply Forall_forall. intros y Hy. apply Hlt; [now left | assumption].
    + apply Forall_app. split.
      * eapply Forall_impl; [exact Hall |]. cbn. intros o [? ?]. split; [lia | assumption].
      * eapply Forall_impl; [exact IHall |]. cbn. intros o [? Hside]. split; [lia |].
        rewrite Hside.
        replace (order_id o - next_order_id_ s)
          with ((order_id o - next_order_id_ s1) + (next_order_id_ s1 - next_order_id_ s))
          by lia.
        rewrite Z.even_add, Heven. destruct (Z.even (order_id o - next_order_id_ s1)); tauto.
Qed.

End MM_more.

Lemma mm_order_ids_increase_witness :
  let r := MM.quote_all [(1, 2, 3, MM.snapshot_mid_100); (4, 5, 6, MM.snapshot_mid_100)]
             (MM.new MM.default_params) in
  StronglySorted Z.lt (Wire.order_id <$> r.1) /\
  Forall (fun o => 1 <= Wire.order_id o < MM.next_order_id_ r.2 /\
                   (Wire.side o = Wire.BUY <-> Z.even (Wire.order_id o - 1) = true)) r.1 /\
  1 <= MM.next_order_id_ r.2 <= 1 + 2 * 2 /\
  Z.even (MM.next_order_id_ r.2 - 1) = true.
Proof.
  apply (mm_order_ids_increase
           [(1, 2, 3, MM.snapshot_mid_100); (4, 5, 6, MM.snapshot_mid_100)]
           (MM.new MM.default_params)).
  - cbn. lia.
  - cbn. lia.
Defined.

(** ** The market-data handler *)

Section Handler_facts.
Variable char_signed : bool.

Local Abbreviation table := (list (StrMap.Entry (option Z))).
Local Abbreviation handler := Handler.MarketDataHandler.

Lemma occupied_insert (es : table) : forall (j : nat) e0 e1,
  es !! j = Some e0 ->
  (Handler.occupied (<[ j := e1 ]> es) + (if Z.eqb (StrMap.hash e0) StrMap.EMPTY then 0 else 1)
   = Handler.occupied es + (if Z.eqb (StrMap.hash e1) StrMap.EMPTY then 0 else 1))%nat.
Proof.
  unfold Handler.occupied.
  induction es as [| e es IH]; intros [| j] e0 e1 He; try discriminate.
  - injection He as ->.
    change (<[0%nat:=e1]> (e0 :: es)) with (e1 :: es). cbn [List.filter].
    destruct (StrMap.hash e0 =? StrMap.EMPTY), (StrMap.hash e1 =? StrMap.EMPTY);
      cbn [negb length]; lia.
  - change (<[S j:=e1]> (e :: es)) with (e :: <[j:=e1]> es). cbn [List.filter].
    cbn in He. specialize (IH j e0 e1 He).
    destruct (negb (StrMap.hash e =? StrMap.EMPTY)); cbn [length]; [| exact IH].
    lia.
Qed.

Lemma occupied_room (es : table) :
  (Handler.occupied es < length es)%nat ->
  exists (j : nat) e, es !! j = Some e /\ StrMap.hash e = StrMap.EMPTY.
Proof.
  unfold Handler.occupied. induction es as [| e es IH]; cbn [List.filter length]; [lia |].
  destruct (Z.eqb_spec (StrMap.hash e) StrMap.EMPTY) as [Hempty | Hused]; cbn [negb].
  - intros _. now exists 0%nat, e.
  - cbn [length]. intros Hlt. destruct IH as (j & e' & He' & Hempty); [lia |].
    now exists (S j), e'.
Qed.

Lemma allocate_stack {T : Type} (PoolSize : nat) (p p' : Pool.MemoryPool T) obj idx :
  Pool.stack_ok PoolSize p ->
  Pool.allocate PoolSize obj p = Some (Some idx, p') ->
  Pool.stack_ok PoolSize p' /\
  Pool.free_slots p = Pool.free_slots p' ++ [idx] /\
  Pool.storage_ p' = <[ Z.to_nat idx := Some obj ]> (Pool.storage_ p) /\
  Pool.free_list_ p' = Pool.free_list_ p /\
  0 <= idx < Z.of_nat PoolSize /\
  Pool.free_count_ p' = Pool.free_count_ p - 1.
Proof.
  intros [Hwf Hnd] Halloc.
  destruct (allocate_wf PoolSize p obj Hwf) as (ptr & p1 & Heq & Hwf1 & Hptr).
  rewrite Heq in Halloc. injection Halloc as -> ->. destruct Hptr as [Hidx Hcount].
  unfold Pool.allocate in Heq.
  destruct (Z.ltb_spec 0 (Pool.free_count_ p)) as [Hpos |]; [| discriminate].
  destruct (Pool.free_list_ p !! Z.to_nat (Pool.free_count_ p - 1)) as [idx' |] eqn:Htop;
    [| discriminate].
  destruct ((0 <=? idx') && (idx' <? Z.of_nat PoolSize)); [| discriminate].
  injection Heq as -> <-.
  pose proof (free_slots_snoc PoolSize p idx Hwf Hpos Htop) as Hsnoc.
  assert (Hslots : Pool.free_slots p
                   = Pool.free_slots
                       {| Pool.storage_ := <[ Z.to_nat idx := Some obj ]> (Pool.storage_ p);
                          Pool.allocated_ := <[ Z.to_nat idx := true ]> (Pool.allocated_ p);
                          Pool.free_count_ := Pool.free_count_ p - 1;
                          Pool.free_list_ := Pool.free_list_ p |} ++ [idx])
    by exact Hsnoc.
  split; [split; [exact Hwf1 |] | split; [exact Hslots | repeat split; lia]].
  rewrite Hslots in Hnd. now apply NoDup_app in Hnd as (Hnd & _ & _).
Qed.

Lemma get_order_book_Some (h : handler) sym book :
  Handler.get_order_book char_signed sym h = Some book ->
  exists slot e,
    StrMap.find Handler.MAP_SIZE char_signed sym (Handler.order_book_map_ h) = Some slot /\
    Handler.order_book_map_ h !! Z.to_nat slot = Some e /\
    StrMap.hash e <> StrMap.EMPTY /\
    StrMap.strcmp_eq (StrMap.key e) sym = true /\
    StrMap.value e = Some book.
Proof.
  unfold Handler.get_order_book.
  destruct (StrMap.find _ _ _ _) as [slot |] eqn:Hfind; [| discriminate].
  pose proof Hfind as Hslot. unfold StrMap.find in Hslot.
  apply find_loop_Some in Hslot as (e & He & Hused & _ & Hkey).
  unfold StrMap.deref. rewrite He. cbn [fmap option_fmap option_map].
  intros Hbook. now exists slot, e.
Qed.

Lemma get_order_book_None (h : handler) sym :
  Handler.handler_ok h ->
  Handler.get_order_book char_signed sym h = None ->
  StrMap.find Handler.MAP_SIZE char_signed sym (Handler.order_book_map_ h) = None.
Proof.
  intros (_ & _ & _ & _ & Hlive & _).
  unfold Handler.get_order_book.
  destruct (StrMap.find _ _ _ _) as [slot |] eqn:Hfind; [| reflexivity].
  pose proof Hfind as Hslot. unfold StrMap.find in Hslot.
  apply find_loop_Some in Hslot as (e & He & Hused & _ & Hkey).
  destruct (Hlive _ _ He Hused) as (book & b & Hv & _).
  unfold StrMap.deref. rewrite He. cbn [fmap option_fmap option_map]. rewrite Hv.
  discriminate.
Qed.

Lemma handler_ok_new : Handler.handler_ok Handler.new.
Proof.
  unfold Handler.handler_ok, Handler.new.
  cbn [Handler.order_book_map_ Handler.order_book_pool_].
  split; [apply table_ok_new |]. split; [apply length_replicate |].
  split; [apply stack_ok_new |]. split; [vm_compute; discriminate |].
  split.
  - intros i e He Hused. unfold StrMap.new in He.
    apply lookup_replicate in He as [-> _]. now contradiction Hused.
  - intros i j e e' _ He _ Hused. unfold StrMap.new in He.
    apply lookup_replicate in He as [-> _]. now contradiction Hused.
Qed.


(** Writing a live book over a live one, or over a slot no table pointer
    addresses, keeps the handler in shape. *)
Lemma book_at_insert (h : handler) pool' (book book' : Z) (b : Book.OrderBook) :
  Pool.storage_ pool' = <[ Z.to_nat book := Some b ]> (Pool.storage_ (Handler.order_book_pool_ h)) ->
  0 <= book -> 0 <= book' ->
  (Z.to_nat book < length (Pool.storage_ (Handler.order_book_pool_ h)))%nat ->
  forall m c,
  Handler.book_at {| Handler.order_book_map_ := m; Handler.order_book_pool_ := pool';
                     Handler.callback_ := c |} book'
  = if decide (book' = book) then Some b else Handler.book_at h book'.
Proof.
  intros Hst Hb Hb' Hlen m c. unfold Handler.book_at.
  cbn [Handler.order_book_pool_]. rewrite Hst.
  destruct (decide (book' = book)) as [-> | Hne].
  - now rewrite list_lookup_insert_eq.
  - rewrite list_lookup_insert_ne by lia. reflexivity.
Qed.

(** [add_symbol] of a symbol that is not tracked, with a book left in the
    pool: the book is constructed in the top free slot and the table claims
    an EMPTY slot for it. *)
Lemma add_symbol_fresh (h : handler) sym :
  Handler.handler_ok h ->
  Handler.get_order_book char_signed sym h = None ->
  0 < Pool.free_count_ (Handler.order_book_pool_ h) ->
  exists idx pool' (j : nat) e0,
    Pool.allocate Handler.POOL_SIZE (Book.new sym) (Handler.order_book_pool_ h)
    = Some (Some idx, pool') /\
    Handler.order_book_map_ h !! j = Some e0 /\ StrMap.hash e0 = StrMap.EMPTY /\
    StrMap.insert Handler.MAP_SIZE char_signed sym (Some idx) (Handler.order_book_map_ h)
    = (true, <[ j := {| StrMap.hash := StrMap.tag char_signed sym;
                        StrMap.key := StrMap.strncpy (StrMap.key e0) sym 15;
                        StrMap.value := Some idx |} ]> (Handler.order_book_map_ h)) /\
    Handler.add_symbol char_signed sym h
    = Some {| Handler.order_book_map_ :=
                <[ j := {| StrMap.hash := StrMap.tag char_signed sym;
                           StrMap.key := StrMap.strncpy (StrMap.key e0) sym 15;
                           StrMap.value := Some idx |} ]> (Handler.order_book_map_ h);
              Handler.order_book_pool_ := pool';
              Handler.callback_ := Handler.callback_ h |}.
Proof.
  intros Hok Hget Hroom.
  pose proof (get_order_book_None h sym Hok Hget) as Hfind.
  destruct Hok as (Htab & Hlen & [Hwf Hnd] & Hocc & Hlive & Hdist).
  destruct (allocate_wf Handler.POOL_SIZE (Handler.order_book_pool_ h) (Book.new sym) Hwf)
    as (ptr & pool' & Halloc & _ & Hptr).
  destruct ptr as [idx |]; [| lia].
  destruct (occupied_room (Handler.order_book_map_ h)) as (j0 & e & He & Hempty).
  { rewrite Hlen. unfold Handler.MAP_SIZE in *. lia. }
  pose proof (insert_claims_empty Handler.MAP_SIZE char_signed 8
                (Handler.order_book_map_ h) sym (Some idx) j0 e
                eq_refl ltac:(lia) Hlen He Hempty) as Hins.
  destruct (StrMap.insert Handler.MAP_SIZE char_signed sym (Some idx)
              (Handler.order_book_map_ h)) as [ok es'] eqn:Heq.
  cbn [fst] in Hins. subst ok.
  pose proof Heq as Hshape. unfold StrMap.insert in Hshape. unfold StrMap.find in Hfind.
  destruct (insert_loop_absent _ _ _ _ _ _ _ _ Hfind Hshape) as (j & e0 & He0 & Hempty0 & ->).
  exists idx, pool', j, e0.
  split; [exact Halloc |]. split; [exact He0 |]. split; [exact Hempty0 |].
  split; [exact Heq |].
  unfold Handler.add_symbol. rewrite Hget, Halloc, Heq. reflexivity.
Qed.

Lemma add_symbol_fresh_ok (h : handler) sym idx pool' (j : nat) e0 :
  Handler.handler_ok h ->
  Pool.allocate Handler.POOL_SIZE (Book.new sym) (Handler.order_book_pool_ h)
  = Some (Some idx, pool') ->
  Handler.order_book_map_ h !! j = Some e0 -> StrMap.hash e0 = StrMap.EMPTY ->
  Handler.handler_ok
    {| Handler.order_book_map_ :=
         <[ j := {| StrMap.hash := StrMap.tag char_signed sym;
                    StrMap.key := StrMap.strncpy (StrMap.key e0) sym 15;
                    StrMap.value := Some idx |} ]> (Handler.order_book_map_ h);
       Handler.order_book_pool_ := pool';
       Handler.callback_ := Handler.callback_ h |}.
Proof.
  intros (Htab & Hlen & Hstack & Hocc & Hlive & Hdist) Halloc He0 Hempty.
  destruct (allocate_stack _ _ _ _ _ Hstack Halloc)
    as (Hstack' & Hslots & Hst & _ & Hidx & Hcount).
  pose proof (lookup_lt_Some _ _ _ He0) as Hj.
  pose proof (proj1 (Forall_lookup _ _) Htab _ _ He0) as [Hklen Hk15].
  assert (Hslen : (Z.to_nat idx < length (Pool.storage_ (Handler.order_book_pool_ h)))%nat).
  { destruct Hstack as [(Hl & _) _]. rewrite Hl. unfold Handler.POOL_SIZE in *. lia. }
  assert (Hfree : idx ∈ Pool.free_slots (Handler.order_book_pool_ h)).
  { rewrite Hslots. apply elem_of_app. right. now left. }
  assert (Hnot : forall x, x ∉ Pool.free_slots (Handler.order_book_pool_ h) ->
                           x ∉ Pool.free_slots pool').
  { intros x Hx Hin. apply Hx. rewrite Hslots. apply elem_of_app. now left. }
  assert (Hidx' : idx ∉ Pool.free_slots pool').
  { destruct Hstack as [_ Hnd]. rewrite Hslots in Hnd.
    apply NoDup_app in Hnd as (_ & Hnd & _). intros Hin. apply (Hnd _ Hin). now left. }
  unfold Handler.handler_ok. cbn [Handler.order_book_map_ Handler.order_book_pool_].
  split; [| split; [| split; [| split; [| split]]]].
  - apply Forall_insert; [assumption |]. split; cbn [StrMap.key].
    + now rewrite length_strncpy.
    + now rewrite strncpy_beyond by lia.
  - now rewrite length_insert.
  - exact Hstack'.
  - pose proof (occupied_insert (Handler.order_book_map_ h) j e0
                  {| StrMap.hash := StrMap.tag char_signed sym;
                     StrMap.key := StrMap.strncpy (StrMap.key e0) sym 15;
                     StrMap.value := Some idx |} He0) as Hoi.
    cbn [StrMap.hash] in Hoi. rewrite Hempty in Hoi.
    pose proof (tag_not_empty char_signed sym) as Htag.
    destruct (Z.eqb_spec (StrMap.tag char_signed sym) StrMap.EMPTY); [contradiction |].
    change (StrMap.EMPTY =? StrMap.EMPTY) with true in Hoi. cbv beta iota in Hoi. lia.
  - intros i e He Hused.
    destruct (decide (i = j)) as [-> | Hne].
    + rewrite list_lookup_insert_eq in He by assumption. injection He as <-.
      exists idx, (Book.new sym). cbn [StrMap.value].
      split; [reflexivity |]. split; [| split; [lia | exact Hidx']].
      rewrite (book_at_insert h pool' idx idx (Book.new sym) Hst) by lia.
      now rewrite decide_True.
    + rewrite list_lookup_insert_ne in He by congruence.
      destruct (Hlive _ _ He Hused) as (book & b & Hv & Hb & Hpos & Hoff).
      exists book, b. split; [exact Hv |]. split; [| split; [exact Hpos | now apply Hnot]].
      rewrite (book_at_insert h pool' idx book (Book.new sym) Hst) by lia.
      rewrite decide_False; [exact Hb |]. intros ->. contradiction.
  - intros i i' e e' Hii He He' Hused Hused'.
    destruct (decide (i = j)) as [-> | Hne]; [| destruct (decide (i' = j)) as [-> | Hne']].
    + rewrite list_lookup_insert_eq in He by assumption. injection He as <-.
      rewrite list_lookup_insert_ne in He' by congruence.
      destruct (Hlive _ _ He' Hused') as (book & b & Hv & _ & _ & Hoff).
      cbn [StrMap.value]. rewrite Hv. intros [= ->]. contradiction.
    + rewrite list_lookup_insert_eq in He' by assumption. injection He' as <-.
      rewrite list_lookup_insert_ne in He by congruence.
      destruct (Hlive _ _ He Hused) as (book & b & Hv & _ & _ & Hoff).
      cbn [StrMap.value]. rewrite Hv. intros [= ->]. contradiction.
    + rewrite list_lookup_insert_ne in He by congruence.
      rewrite list_lookup_insert_ne in He' by congruence.
      exact (Hdist i i' e e' Hii He He' Hused Hused').
Qed.

Lemma handler_eta (h : handler) :
  {| Handler.order_book_map_ := Handler.order_book_map_ h;
     Handler.order_book_pool_ := Handler.order_book_pool_ h;
     Handler.callback_ := Handler.callback_ h |} = h.
Proof. now destruct h. Qed.

Lemma add_symbol_ok (h : handler) sym :
  Handler.handler_ok h ->
  exists h', Handler.add_symbol char_signed sym h = Some h' /\ Handler.handler_ok h'.
Proof.
  intros Hok.
  destruct (Handler.get_order_book char_signed sym h) as [book |] eqn:Hget.
  - exists h. unfold Handler.add_symbol. now rewrite Hget.
  - destruct (Z.ltb_spec 0 (Pool.free_count_ (Handler.order_book_pool_ h))) as [Hroom | Hnone].
    + destruct (add_symbol_fresh h sym Hok Hget Hroom)
        as (idx & pool' & j & e0 & Halloc & He0 & Hempty & _ & Hadd).
      eexists. split; [exact Hadd |]. now apply add_symbol_fresh_ok.
    + exists h. split; [| exact Hok].
      unfold Handler.add_symbol, Pool.allocate. rewrite Hget.
      destruct (Z.ltb_spec 0 (Pool.free_count_ (Handler.order_book_pool_ h))); [lia |].
      now rewrite handler_eta.
Qed.

(** [process_message] on a tracked symbol. *)
Lemma process_message_tracked (h : handler) msg len book :
  Handler.handler_ok h ->
  Handler.MESSAGE_SIZE <= len ->
  Handler.get_order_book char_signed (Handler.symbol msg ++ Handler.after_symbol msg) h
  = Some book ->
  exists b,
    Handler.book_at h book = Some b /\ 0 <= book /\
    let b' := if Handler.side msg =? 0
              then Book.update_bid (Handler.level msg) (Handler.price msg)
                     (Handler.quantity msg) b
              else Book.update_ask (Handler.level msg) (Handler.price msg)
                     (Handler.quantity msg) b in
    let pool := Handler.order_book_pool_ h in
    let h' := {| Handler.order_book_map_ := Handler.order_book_map_ h;
                 Handler.order_book_pool_ :=
                   {| Pool.storage_ := <[ Z.to_nat book := Some b' ]> (Pool.storage_ pool);
                      Pool.allocated_ := Pool.allocated_ pool;
                      Pool.free_count_ := Pool.free_count_ pool;
                      Pool.free_list_ := Pool.free_list_ pool |};
                 Handler.callback_ := Handler.callback_ h |} in
    Handler.process_message char_signed msg len h
    = Some (if Handler.callback_ h then Some b' else None, h') /\
    Handler.handler_ok h' /\
    (forall book', 0 <= book' ->
       Handler.book_at h' book' = if decide (book' = book) then Some b'
                                  else Handler.book_at h book').
Proof.
  intros Hok Hlen Hget.
  destruct (get_order_book_Some h _ _ Hget) as (slot & e & _ & He & Hused & _ & Hv).
  destruct Hok as (Htab & Hmlen & [Hwf Hnd] & Hocc & Hlive & Hdist).
  destruct (Hlive _ _ He Hused) as (book0 & b & Hv0 & Hb & Hpos & Hoff).
  rewrite Hv in Hv0. injection Hv0 as <-.
  exists b. split; [exact Hb |]. split; [exact Hpos |]. cbv zeta.
  set (b' := if Handler.side msg =? 0 then _ else _).
  assert (Hslen : (Z.to_nat book < length (Pool.storage_ (Handler.order_book_pool_ h)))%nat).
  { unfold Handler.book_at in Hb.
    destruct (Pool.storage_ (Handler.order_book_pool_ h) !! Z.to_nat book) eqn:Hl;
      [| discriminate].
    now apply lookup_lt_Some in Hl. }
  assert (Hat : forall book', 0 <= book' ->
    Handler.book_at
      {| Handler.order_book_map_ := Handler.order_book_map_ h;
         Handler.order_book_pool_ :=
           {| Pool.storage_ := <[ Z.to_nat book := Some b' ]>
                                 (Pool.storage_ (Handler.order_book_pool_ h));
              Pool.allocated_ := Pool.allocated_ (Handler.order_book_pool_ h);
              Pool.free_count_ := Pool.free_count_ (Handler.order_book_pool_ h);
              Pool.free_list_ := Pool.free_list_ (Handler.order_book_pool_ h) |};
         Handler.callback_ := Handler.callback_ h |} book'
    = if decide (book' = book) then Some b' else Handler.book_at h book').
  { intros book' Hpos'. now apply book_at_insert. }
  split; [| split; [| exact Hat]].
  - unfold Handler.process_message.
    destruct (Z.ltb_spec len Handler.MESSAGE_SIZE); [lia |].
    rewrite Hget, Hb. reflexivity.
  - unfold Handler.handler_ok. cbn [Handler.order_book_map_ Handler.order_book_pool_].
    split; [exact Htab |]. split; [exact Hmlen |].
    split; [| split; [exact Hocc | split; [| exact Hdist]]].
    + destruct Hwf as (Hl1 & Hl2 & Hl3 & Hc & Hfl).
      split; [| exact Hnd].
      unfold Pool.wf. cbn [Pool.storage_ Pool.allocated_ Pool.free_list_ Pool.free_count_].
      rewrite length_insert. repeat split; try assumption; lia.
    + intros i e1 He1 Hused1.
      destruct (Hlive _ _ He1 Hused1) as (book1 & b1 & Hv1 & Hb1 & Hpos1 & Hoff1).
      destruct (decide (book1 = book)) as [-> | Hne].
      * exists book, b'. split; [assumption |].
        split; [rewrite (Hat book Hpos); now rewrite decide_True | split; assumption].
      * exists book1, b1. split; [assumption |].
        split; [rewrite (Hat book1 Hpos1); now rewrite decide_False | split; assumption].
Qed.

Lemma process_message_ok (h : handler) msg len :
  Handler.handler_ok h ->
  exists r, Handler.process_message char_signed msg len h = Some r /\
            Handler.handler_ok r.2.
Proof.
  intros Hok.
  destruct (Z.ltb_spec len Handler.MESSAGE_SIZE) as [Hshort | Hlen].
  - exists (None, h). split; [| exact Hok]. unfold Handler.process_message.
    destruct (Z.ltb_spec len Handler.MESSAGE_SIZE); [reflexivity | lia].
  - destruct (Handler.get_order_book char_signed
                (Handler.symbol msg ++ Handler.after_symbol msg) h) as [book |] eqn:Hget.
    + destruct (process_message_tracked h msg len book Hok Hlen Hget)
        as (b & _ & _ & Hpm & Hok' & _).
      eexists. split; [exact Hpm | exact Hok'].
    + exists (None, h). split; [| exact Hok]. unfold Handler.process_message.
      destruct (Z.ltb_spec len Handler.MESSAGE_SIZE); [lia |]. now rewrite Hget.
Qed.

Lemma step_ok (h : handler) c :
  Handler.handler_ok h ->
  exists h', Handler.step char_signed c h = Some h' /\ Handler.handler_ok h'.
Proof.
  intros Hok. destruct c as [| sym | msg len]; cbn [Handler.step].
  - eexists. split; [reflexivity |]. exact Hok.
  - now apply add_symbol_ok.
  - destruct (process_message_ok h msg len Hok) as (r & -> & Hok').
    exists r.2. split; [reflexivity | exact Hok'].
Qed.

Lemma run_ok cs : forall (h : handler),
  Handler.handler_ok h ->
  exists h', Handler.run char_signed cs h = Some h' /\ Handler.handler_ok h'.
Proof.
  induction cs as [| c cs IH]; intros h Hok; cbn [Handler.run].
  - now exists h.
  - destruct (step_ok h c Hok) as (h1 & -> & Hok1). now apply IH.
Qed.

Lemma handler_reachable_ok cs (h : handler) :
  Handler.run char_signed cs Handler.new = Some h -> Handler.handler_ok h.
Proof.
  intros Hrun. destruct (run_ok cs Handler.new handler_ok_new) as (h' & Heq & Hok).
  rewrite Heq in Hrun. now injection Hrun as <-.
Qed.


(** A key of 16 characters or more is in no slot, so the handler never finds
    it. *)
Lemma get_order_book_long (h : handler) sym :
  Handler.handler_ok h -> (16 <= StrMap.strlen sym)%nat ->
  Handler.get_order_book char_signed sym h = None.
Proof.
  intros (Htab & _) Hlong.
  destruct (Handler.get_order_book char_signed sym h) as [book |] eqn:Hget; [| reflexivity].
  destruct (get_order_book_Some h sym book Hget) as (slot & e & _ & He & _ & Hkey & _).
  pose proof (proj1 (Forall_lookup _ _) Htab _ _ He) as [_ H15].
  apply c_str_bounded in H15. apply strcmp_eq_c_str in Hkey.
  unfold StrMap.strlen in *. rewrite Hkey in H15. lia.
Qed.





(** X27.  [add_symbol] makes a symbol of at most 15 characters tracked: if
    it already is, or the pool still has a book, then afterwards
    [get_order_book] returns a live book for it; a symbol that was not
    tracked gets a newly constructed, empty book and takes one book from the
    pool; and every symbol tracked before keeps its pointer and its book. *)
Theorem handler_add_symbol_tracks cs (h : handler) sym :
  Handler.run char_signed cs Handler.new = Some h ->
  (StrMap.strlen sym <= 15)%nat ->
  0 < Pool.available (Handler.order_book_pool_ h) \/
    Handler.get_order_book char_signed sym h <> None ->
  exists h' book b,
    Handler.add_symbol char_signed sym h = Some h' /\
    Handler.get_order_book char_signed sym h' = Some book /\
    Handler.book_at h' book = Some b /\
    (Handler.get_order_book char_signed sym h = None ->
       b = Book.new sym /\
       Pool.available (Handler.order_book_pool_ h')
       = Pool.available (Handler.order_book_pool_ h) - 1) /\
    (forall sym' book',
       Handler.get_order_book char_signed sym' h = Some book' ->
       Handler.get_order_book char_signed sym' h' = Some book' /\
       Handler.book_at h' book' = Handler.book_at h book').
Proof.
  intros Hrun Hlen Hroom. pose proof (handler_reachable_ok cs h Hrun) as Hok.
  destruct (Handler.get_order_book char_signed sym h) as [book |] eqn:Hget.
  - destruct (get_order_book_Some h sym book Hget) as (slot & e & _ & He & Hused & _ & Hv).
    destruct Hok as (_ & _ & _ & _ & Hlive & _).
    destruct (Hlive _ _ He Hused) as (book0 & b & Hv0 & Hb & _).
    rewrite Hv in Hv0. injection Hv0 as <-.
    exists h, book, b. unfold Handler.add_symbol. rewrite Hget.
    split; [reflexivity |]. split; [reflexivity |]. split; [exact Hb |].
    split; [discriminate |]. intros sym' book' Hget'. now split.
  - destruct Hroom as [Hroom | Hnot]; [| now contradiction Hnot].
    unfold Pool.available in Hroom.
    destruct (add_symbol_fresh h sym Hok Hget Hroom)
      as (idx & pool' & j & e0 & Halloc & He0 & Hempty & Hins & Hadd).
    pose proof Hok as (Htab & _ & Hstack & _ & Hlive & _).
    destruct (allocate_stack _ _ _ _ _ Hstack Halloc)
      as (_ & Hslots & Hst & _ & Hidx & Hcount).
    assert (Hslen : (Z.to_nat idx < length (Pool.storage_ (Handler.order_book_pool_ h)))%nat).
    { destruct Hstack as [(Hl & _) _]. rewrite Hl. unfold Handler.POOL_SIZE in *. lia. }
    destruct (insert_then_find _ _ _ _ _ _ Htab Hlen Hins) as (_ & slot & Hfind & Hderef).
    eexists _, idx, (Book.new sym). split; [exact Hadd |].
    split; [| split; [| split]].
    + unfold Handler.get_order_book. cbn [Handler.order_book_map_].
      now rewrite Hfind, Hderef.
    + rewrite (book_at_insert h pool' idx idx (Book.new sym) Hst) by lia.
      now rewrite decide_True.
    + intros _. split; [reflexivity |]. cbn [Handler.order_book_pool_].
      unfold Pool.available. exact Hcount.
    + intros sym' book' Hget'.
      destruct (get_order_book_Some h sym' book' Hget')
        as (slot' & e' & Hfind' & He' & Hused' & _ & Hv').
      destruct (Hlive _ _ He' Hused') as (book0 & b & Hv0 & Hb & Hpos & Hoff).
      rewrite Hv' in Hv0. injection Hv0 as <-.
      split.
      * unfold Handler.get_order_book. cbn [Handler.order_book_map_].
        unfold StrMap.find in *.
        rewrite (find_loop_claim _ _ _ _ _ _ _ _ _ _ Hfind' He0 Hempty).
        unfold StrMap.deref. rewrite list_lookup_insert_ne.
        -- rewrite He'. cbn [fmap option_fmap option_map]. now rewrite Hv'.
        -- intros ->. rewrite He0 in He'. injection He' as <-. contradiction.
      * rewrite (book_at_insert h pool' idx book' (Book.new sym) Hst) by lia.
        rewrite decide_False; [reflexivity |]. intros ->. apply Hoff.
        rewrite Hslots. apply elem_of_app. right. now left.
Qed.

(** X28.  A symbol of 16 characters or more can never be tracked: the table
    keeps only its first 15 characters, so [get_order_book] returns [nullptr]
    for it on every handler, and each [add_symbol] for it, while the pool
    has a book, takes that book and still leaves the symbol untracked. *)
Theorem handler_long_symbol_leaks cs (h : handler) sym :
  Handler.run char_signed cs Handler.new = Some h ->
  (16 <= StrMap.strlen sym)%nat ->
  0 < Pool.available (Handler.order_book_pool_ h) ->
  Handler.get_order_book char_signed sym h = None /\
  exists h',
    Handler.add_symbol char_signed sym h = Some h' /\
    Pool.available (Handler.order_book_pool_ h')
    = Pool.available (Handler.order_book_pool_ h) - 1 /\
    Handler.get_order_book char_signed sym h' = None.
Proof.
  intros Hrun Hlong Hroom. pose proof (handler_reachable_ok cs h Hrun) as Hok.
  pose proof (get_order_book_long h sym Hok Hlong) as Hget.
  split; [exact Hget |]. unfold Pool.available in *.
  destruct (add_symbol_fresh h sym Hok Hget Hroom)
    as (idx & pool' & j & e0 & Halloc & He0 & Hempty & _ & Hadd).
  pose proof (add_symbol_fresh_ok h sym idx pool' j e0 Hok Halloc He0 Hempty) as Hok'.
  destruct Hok as (_ & _ & Hstack & _).
  destruct (allocate_stack _ _ _ _ _ Hstack Halloc) as (_ & _ & _ & _ & _ & Hcount).
  eexists. split; [exact Hadd |]. split; [exact Hcount |].
  now apply get_order_book_long.
Qed.

(** X29.  A full-length message for a tracked symbol updates that symbol's
    book and nothing else: the bid side when the side byte is 0, the ask
    side otherwise; the callback, when one is registered, is handed the
    updated book; every lookup returns what it returned before, and the book
    of every other tracked symbol is untouched. *)
Theorem handler_message_updates_book cs (h : handler) msg len book :
  Handler.run char_signed cs Handler.new = Some h ->
  Handler.MESSAGE_SIZE <= len ->
  Handler.get_order_book char_signed (Handler.symbol msg ++ Handler.after_symbol msg) h
  = Some book ->
  exists b h',
    Handler.book_at h book = Some b /\
    let b' := if Handler.side msg =? 0
              then Book.update_bid (Handler.level msg) (Handler.price msg)
                     (Handler.quantity msg) b
              else Book.update_ask (Handler.level msg) (Handler.price msg)
                     (Handler.quantity msg) b in
    Handler.process_message char_signed msg len h
    = Some (if Handler.callback_ h then Some b' else None, h') /\
    Handler.book_at h' book = Some b' /\
    (forall sym, Handler.get_order_book char_signed sym h'
                 = Handler.get_order_book char_signed sym h) /\
    (forall sym' book', Handler.get_order_book char_signed sym' h = Some book' ->
       book' <> book -> Handler.book_at h' book' = Handler.book_at h book').
Proof.
  intros Hrun Hlen Hget. pose proof (handler_reachable_ok cs h Hrun) as Hok.
  destruct (process_message_tracked h msg len book Hok Hlen Hget)
    as (b & Hb & Hpos & Hpm & _ & Hat).
  cbv zeta in Hpm, Hat.
  eexists b, _. split; [exact Hb |]. cbv zeta.
  split; [exact Hpm |]. split; [| split].
  - rewrite (Hat book Hpos). now rewrite decide_True.
  - intros sym. reflexivity.
  - intros sym' book' Hget' Hne.
    destruct (get_order_book_Some h sym' book' Hget') as (slot' & e' & _ & He' & Hused' & _ & Hv').
    destruct Hok as (_ & _ & _ & _ & Hlive & _).
    destruct (Hlive _ _ He' Hused') as (book0 & b0 & Hv0 & _ & Hpos' & _).
    rewrite Hv' in Hv0. injection Hv0 as <-.
    rewrite (Hat book' Hpos'). now rewrite decide_False.
Qed.

(** X30.  Different symbols never share a book: on any handler reached from
    a new one, two tracked symbols that differ as strings have different
    books. *)
Theorem handler_books_distinct cs (h : handler) sym1 sym2 book1 book2 :
  Handler.run char_signed cs Handler.new = Some h ->
  Handler.get_order_book char_signed sym1 h = Some book1 ->
  Handler.get_order_book char_signed sym2 h = Some book2 ->
  StrMap.c_str sym1 <> StrMap.c_str sym2 ->
  book1 <> book2.
Proof.
  intros Hrun Hget1 Hget2 Hne. pose proof (handler_reachable_ok cs h Hrun) as Hok.
  destruct (get_order_book_Some h sym1 book1 Hget1) as (s1 & e1 & _ & He1 & Hu1 & Hk1 & Hv1).
  destruct (get_order_book_Some h sym2 book2 Hget2) as (s2 & e2 & _ & He2 & Hu2 & Hk2 & Hv2).
  destruct Hok as (_ & _ & _ & _ & _ & Hdist).
  assert (Hslots : Z.to_nat s1 <> Z.to_nat s2).
  { intros Heq. rewrite Heq in He1. rewrite He1 in He2. injection He2 as <-.
    apply strcmp_eq_c_str in Hk1, Hk2. congruence. }
  pose proof (Hdist _ _ _ _ Hslots He1 He2 Hu1 Hu2) as Hvals.
  rewrite Hv1, Hv2 in Hvals. congruence.
Qed.

End Handler_facts.


Lemma handler_add_symbol_tracks_witness :
  let sym := ["A"; "A"; "P"; "L"]%byte in
  exists h' book b,
    Handler.add_symbol true sym Handler.new = Some h' /\
    Handler.get_order_book true sym h' = Some book /\
    Handler.book_at h' book = Some b /\
    (Handler.get_order_book true sym Handler.new = None ->
       b = Book.new sym /\
       Pool.available (Handler.order_book_pool_ h')
       = Pool.available (Handler.order_book_pool_ Handler.new) - 1) /\
    (forall sym' book',
       Handler.get_order_book true sym' Handler.new = Some book' ->
       Handler.get_order_book true sym' h' = Some book' /\
       Handler.book_at h' book' = Handler.book_at Handler.new book').
Proof.
  intros sym. apply (handler_add_symbol_tracks true [] Handler.new sym).
  - reflexivity.
  - vm_compute. lia.
  - left. vm_compute. reflexivity.
Defined.

Lemma handler_long_symbol_leaks_witness :
  let sym := replicate 16 "A"%byte in
  Handler.get_order_book true sym Handler.new = None /\
  exists h',
    Handler.add_symbol true sym Handler.new = Some h' /\
    Pool.available (Handler.order_book_pool_ h')
    = Pool.available (Handler.order_book_pool_ Handler.new) - 1 /\
    Handler.get_order_book true sym h' = None.
Proof.
  intros sym. apply (handler_long_symbol_leaks true [] Handler.new sym).
  - reflexivity.
  - vm_compute. lia.
  - vm_compute. reflexivity.
Defined.

Lemma handler_message_updates_book_witness :
  let sym := ["A"; "A"; "P"; "L"]%byte in
  let cs := [Handler.AddSymbol sym; Handler.RegisterCallback] in
  let h := default Handler.new (Handler.run true cs Handler.new) in
  let msg := {| Handler.symbol := sym ++ replicate 12 StrMap.NUL;
                Handler.after_symbol := [];
                Handler.side := 0; Handler.level := 0;
                Handler.price := 150%float; Handler.quantity := 100%float;
                Handler.timestamp := 0 |} in
  exists b h',
    Handler.book_at h 255 = Some b /\
    let b' := if Handler.side msg =? 0
              then Book.update_bid (Handler.level msg) (Handler.price msg)
                     (Handler.quantity msg) b
              else Book.update_ask (Handler.level msg) (Handler.price msg)
                     (Handler.quantity msg) b in
    Handler.process_message true msg 42 h
    = Some (if Handler.callback_ h then Some b' else None, h') /\
    Handler.book_at h' 255 = Some b' /\
    (forall sym, Handler.get_order_book true sym h' = Handler.get_order_book true sym h) /\
    (forall sym' book', Handler.get_order_book true sym' h = Some book' ->
       book' <> 255 -> Handler.book_at h' book' = Handler.book_at h book').
Proof.
  intros sym cs h msg. apply (handler_message_updates_book true cs h msg 42 255).
  - vm_compute. reflexivity.
  - vm_compute. discriminate.
  - vm_compute. reflexivity.
Defined.

Lemma handler_books_distinct_witness :
  let aapl := ["A"; "A"; "P"; "L"]%byte in
  let msft := ["M"; "S"; "F"; "T"]%byte in
  let cs := [Handler.AddSymbol aapl; Handler.AddSymbol msft] in
  let h := default Handler.new (Handler.run true cs Handler.new) in
  Handler.get_order_book true aapl h = Some 255 /\
  Handler.get_order_book true msft h = Some 254 /\
  255 <> 254.
Proof.
  intros aapl msft cs h.
  assert (Ha : Handler.get_order_book true aapl h = Some 255) by (vm_compute; reflexivity).
  assert (Hm : Handler.get_order_book true msft h = Some 254) by (vm_compute; reflexivity).
  split; [exact Ha |]. split; [exact Hm |].
  apply (handler_books_distinct true cs h aapl msft 255 254).
  - vm_compute. reflexivity.
  - exact Ha.
  - exact Hm.
  - vm_compute. discriminate.
Defined.
